(** * wapiti: the Mediawiki template parser

    A shallow embedding of [wapiti/operations/template_parser.py] and the
    properties of its lexer, pushback token stream, recursive-descent
    parser and reference builder.

    The module is Python 2 code ([TokenStream] implements the iterator
    protocol through [next], the sibling module imports [unicode_literals]),
    so the builtins [int], [float] and [str] are modelled with their
    Python 2.7 behaviour.  A token text is a byte string ([str]) or a
    [unicode] text; the lexer and the parser are modelled on byte strings,
    [atomize] on both.

    The file has three parts: the embedding of the source, the vocabulary
    of the properties, and the properties with their proofs. *)

From Stdlib Require Import ZArith List String Ascii Bool Lia.

From Stdlib Require Import DecimalString DecimalZ DecimalFacts.

From Stdlib Require Import SpecFloat.

From Equations Require Import Equations.

Import ListNotations.

Local Open Scope string_scope.

Local Open Scope Z_scope.

(** ** Python builtins used by [atomize] *)

Module Py.

(** *** [str.strip()] *)

(** The characters [str.strip()] removes: tab, line feed, vertical tab,
    form feed, carriage return and space. *)
Definition is_space (c : ascii) : bool :=
  let n := N_of_ascii c in ((9 <=? n) && (n <=? 13) || (n =? 32))%N.

Fixpoint lstrip (s : string) : string :=
  match s with
  | String c s' => if is_space c then lstrip s' else s
  | EmptyString => EmptyString
  end.

Fixpoint rstrip (s : string) : string :=
  match s with
  | EmptyString => EmptyString
  | String c s' =>
      match rstrip s' with
      | EmptyString => if is_space c then EmptyString else String c EmptyString
      | r => String c r
      end
  end.

Definition strip (s : string) : string := rstrip (lstrip s).

(** *** [int(s)] *)

(** One or more decimal digits. *)
Definition digits (s : string) : option Z :=
  option_map Z.of_uint (NilZero.uint_of_string s).

(** [int(s)] in base ten: white space, an optional sign, white space again
    (Python 2 reads [- 5] as -5), one or more decimal digits, white space.
    Python 2 promotes to [long] on overflow, so the value is an unbounded
    integer. *)
Definition int (s : string) : option Z :=
  match strip s with
  | String "+" s' => digits (lstrip s')
  | String "-" s' => option_map Z.opp (digits (lstrip s'))
  | t => digits t
  end.

(** *** [float(s)]: IEEE binary64 values *)

Definition prec : Z := 53.
Definition emax : Z := 1024.

(** The double nearest (ties to even) to [m * 10 ^ e], with the sign [neg]
    when [m] is zero. *)
Definition float_of_decimal (neg : bool) (m : Z) (e : Z) : spec_float :=
  match m with
  | Z0 => S754_zero neg
  | _ =>
      if 0 <=? e
      then binary_normalize prec emax (if neg then - (m * 10 ^ e) else m * 10 ^ e) 0 neg
      else
        let '(q, e', l) := SFdiv_core_binary prec emax m 0 (10 ^ (- e)) 0 in
        binary_round_aux prec emax neg q e' l
  end.

Definition lower (c : ascii) : ascii :=
  let n := N_of_ascii c in
  if ((65 <=? n) && (n <=? 90))%N then ascii_of_N (n + 32) else c.

Fixpoint lowercase (s : string) : string :=
  match s with
  | EmptyString => EmptyString
  | String c s' => String (lower c) (lowercase s')
  end.

(** Splits [s] at the first character satisfying [p]: the part before it
    and, when there is one, the part after it. *)
Fixpoint split_at (p : ascii -> bool) (s : string) : string * option string :=
  match s with
  | EmptyString => (EmptyString, None)
  | String c s' =>
      if p c then (EmptyString, Some s')
      else let '(a, b) := split_at p s' in (String c a, b)
  end.

Definition is_e (c : ascii) : bool := (c =? "e")%char || (c =? "E")%char.
Definition is_dot (c : ascii) : bool := (c =? ".")%char.

(** A signed decimal exponent: an optional sign and one or more digits. *)
Definition exponent (s : string) : option Z :=
  match s with
  | String "+" s' => digits s'
  | String "-" s' => option_map Z.opp (digits s')
  | _ => digits s
  end.

(** The unsigned part of a float literal: [digits [. [digits]]] or
    [. digits], then an optional exponent. *)
Definition float_unsigned (neg : bool) (s : string) : option spec_float :=
  match lowercase s with
  | "inf" | "infinity" => Some (S754_infinity neg)
  | "nan" => Some S754_nan
  | _ =>
      let '(mant, ex) := split_at is_e s in
      let '(ip, fp) := split_at is_dot mant in
      let fp := match fp with Some f => f | None => EmptyString end in
      match NilZero.uint_of_string (ip ++ fp),
            match ex with None => Some 0 | Some x => exponent x end with
      | Some digits, Some e =>
          Some (float_of_decimal neg (Z.of_uint digits)
                  (e - Z.of_nat (String.length fp)))
      | _, _ => None
      end
  end.

(** [float(s)]: white space, an optional sign, the literal, white
    space. *)
Definition float (s : string) : option spec_float :=
  match strip s with
  | String "+" s' => float_unsigned false s'
  | String "-" s' => float_unsigned true s'
  | t => float_unsigned false t
  end.

(** *** [str(x)] *)

Definition str_int (n : Z) : string := NilZero.string_of_int (Z.to_int n).

(** [str] of a float is the C format [%.12g] (Python 2 keeps twelve
    significant digits), with [.0] appended to a result that would read as
    an integer. *)

(** Whether [10 ^ d <= num / den]. *)
Definition ge_pow10 (num den d : Z) : bool :=
  if 0 <=? d then 10 ^ d * den <=? num else den <=? num * 10 ^ (- d).

Fixpoint adjust_exp (fuel : nat) (num den d : Z) : Z :=
  match fuel with
  | O => d
  | S fuel' =>
      if ge_pow10 num den (d + 1) then adjust_exp fuel' num den (d + 1)
      else if ge_pow10 num den d then d
      else adjust_exp fuel' num den (d - 1)
  end.

(** The decimal exponent [d] of the positive rational [num / den]:
    [10 ^ d <= num / den < 10 ^ (d + 1)]. *)
Definition decimal_exponent (num den : Z) : Z :=
  adjust_exp 8 num den ((Z.log2 num - Z.log2 den) * 30103 / 100000).

(** [num / den] rounded to the nearest integer, ties to even. *)
Definition round_half_even (num den : Z) : Z :=
  let q := num / den in
  match 2 * (num mod den) ?= den with
  | Lt => q
  | Eq => if Z.even q then q else q + 1
  | Gt => q + 1
  end.

(** The [p] significant digits of [num / den] and the position of the
    decimal point relative to their start. *)
Definition significant_digits (p : Z) (num den : Z) : Z * Z :=
  let d := decimal_exponent num den in
  let k := p - 1 - d in
  let n := if 0 <=? k then round_half_even (num * 10 ^ k) den
           else round_half_even num (den * 10 ^ (- k)) in
  if 10 ^ p <=? n then (10 ^ (p - 1), d + 2) else (n, d + 1).

Fixpoint zeros (n : nat) : string :=
  match n with O => EmptyString | S n' => String "0" (zeros n') end.

(** Removes trailing zeros. *)
Fixpoint strip_zeros (s : string) : string :=
  match s with
  | EmptyString => EmptyString
  | String c s' =>
      match strip_zeros s' with
      | EmptyString => if (c =? "0")%char then EmptyString else String c EmptyString
      | r => String c r
      end
  end.

Definition two_digits (n : Z) : string :=
  if n <? 10 then String "0" (str_int n) else str_int n.

Definition format_g12 (digits : Z) (decpt : Z) : string :=
  let ds := match strip_zeros (str_int digits) with
            | EmptyString => "0"
            | r => r
            end in
  let n := Z.of_nat (String.length ds) in
  if (decpt <=? -4) || (11 <? decpt) then
    let e := decpt - 1 in
    let mant := match ds with
                | String c EmptyString => ds
                | String c r => String c (String "." r)
                | EmptyString => ds
                end in
    mant ++ "e" ++ (if e <? 0 then "-" else "+") ++ two_digits (Z.abs e)
  else if decpt <=? 0 then "0." ++ zeros (Z.to_nat (- decpt)) ++ ds
  else if n <=? decpt then ds ++ zeros (Z.to_nat (decpt - n)) ++ ".0"
  else substring 0 (Z.to_nat decpt) ds ++ "."
       ++ substring (Z.to_nat decpt) (Z.to_nat (n - decpt)) ds.

Definition str_float (f : spec_float) : string :=
  match f with
  | S754_nan => "nan"
  | S754_infinity neg => if neg then "-inf" else "inf"
  | S754_zero neg => if neg then "-0.0" else "0.0"
  | S754_finite neg m e =>
      let '(num, den) := if 0 <=? e then (Zpos m * 2 ^ e, 1)
                         else (Zpos m, 2 ^ (- e)) in
      let '(digits, decpt) := significant_digits 12 num den in
      (if neg then "-" else "") ++ format_g12 digits decpt
  end.

End Py.

(** ** Values, errors and results *)

(** Python objects that occur in tokens and in the parsed tree.  A template
    node is a dict that is empty ([{}]) or holds the two keys ['name'] and
    ['parameters']; [Arg] and [Kwarg] are the two namedtuples of the
    parameter list. *)
Inductive obj : Type :=
| PyNone
| PyInt (n : Z)
| PyFloat (f : spec_float)
| PyStr (s : string)
| PyDict (d : template)
with template : Type :=
| EmptyDict
| Template (name : obj) (parameters : list param)
with param : Type :=
| Arg (value : obj)
| Kwarg (key value : obj).

Definition is_None (o : obj) : bool :=
  match o with PyNone => true | _ => false end.

(** The exceptions the module can raise. *)
Inductive exn : Type :=
| RuntimeError        (* atomize: no converter accepted the token *)
| UnicodeEncodeError  (* atomize: the token has no byte string form *)
| AssertionError      (* match_end: the closing token is not END *)
| UnboundLocalError   (* a local variable read before assignment *)
| KeyError            (* from_string: the node has no 'parameters' *)
| TypeError.          (* from_string: a keyword key is unhashable *)

(** The outcome of a call: a value, a raised exception, or (for the
    fuel-bounded functions only) the bound on calls being reached. *)
Inductive result (A : Type) : Type :=
| Ok (a : A)
| Raise (e : exn)
| OutOfFuel.

Arguments Ok {A} a.

Arguments Raise {A} e.

Arguments OutOfFuel {A}.

(** ** Token texts *)

(** [atomize] is written for any token that has a [strip] method and that
    [int], [float] and [str] take.  Python 2 has two text types, the byte
    string [str] and [unicode], and each has its own version of the four
    operations.  [None] stands for a raised [ValueError]; for [str(token)]
    it is the [UnicodeEncodeError] (a [ValueError]) of a text that the
    default codec cannot encode. *)
Class Text (T : Type) : Type := {
  strip : T -> T;
  to_int : T -> option Z;
  to_float : T -> option spec_float;
  to_str : T -> option string
}.

(** The byte string: [str(token)] is the token itself. *)
#[export] Instance byte_string : Text string := {|
  strip := Py.strip;
  to_int := Py.int;
  to_float := Py.float;
  to_str := fun token => Some token
|}.

(** ** [atomize] *)

Section Atomize.

Context {T : Type} {text_type : Text T}.

(** A converter returns [None] where the Python callable raises
    [ValueError]. *)
Definition converter : Type := T -> option obj.

Definition convert_int : converter :=
  fun token => option_map PyInt (to_int token).

Definition convert_float : converter :=
  fun token => option_map PyFloat (to_float token).

Definition convert_str : converter :=
  fun token => option_map PyStr (to_str token).

Definition converters : list converter :=
  [convert_int; convert_float; convert_str].

(** The [else] branch: ['unknown token {0}'.format(token)] makes the byte
    string form of the token, as [str(token)] does, before [RuntimeError]
    is raised with it. *)
Definition unknown_token (token : T) : result obj :=
  match to_str token with
  | Some _ => Raise RuntimeError
  | None => Raise UnicodeEncodeError
  end.

(** The [for ... else] loop: the first converter that does not raise
    [ValueError] returns; the [else] branch runs when all of them raised. *)
Fixpoint try_converters (cs : list converter) (token : T) : result obj :=
  match cs with
  | [] => unknown_token token
  | convert :: cs' =>
      match convert token with
      | Some v => Ok v
      | None => try_converters cs' token
      end
  end.

Definition atomize (token : T) : result obj :=
  try_converters converters (strip token).

End Atomize.

(** [str(x)] on the values [atomize] returns. *)
Definition str (o : obj) : string :=
  match o with
  | PyInt n => Py.str_int n
  | PyFloat f => Py.str_float f
  | PyStr s => s
  | _ => EmptyString
  end.

(** *** Python's [==] on the values [atomize] returns *)

(** A number as [(-1)^neg * m * 2^e] with [m] odd, so that equal numbers
    have equal representations whether they are ints or floats. *)
Inductive number : Type :=
| NaN
| Inf (neg : bool)
| Zero
| Fin (neg : bool) (m : positive) (e : Z).

Fixpoint odd_part (m : positive) (e : Z) : positive * Z :=
  match m with
  | xO p => odd_part p (e + 1)
  | _ => (m, e)
  end.

Definition fin (neg : bool) (m : positive) (e : Z) : number :=
  let '(m', e') := odd_part m e in Fin neg m' e'.

Definition number_of_Z (n : Z) : number :=
  match n with
  | Z0 => Zero
  | Zpos p => fin false p 0
  | Zneg p => fin true p 0
  end.

Definition number_of_float (f : spec_float) : number :=
  match f with
  | S754_nan => NaN
  | S754_infinity neg => Inf neg
  | S754_zero _ => Zero
  | S754_finite neg m e => fin neg m e
  end.

Definition number_eqb (a b : number) : bool :=
  match a, b with
  | Inf s, Inf s' => Bool.eqb s s'
  | Zero, Zero => true
  | Fin s m e, Fin s' m' e' => Bool.eqb s s' && (m =? m')%positive && (e =? e')
  | _, _ => false
  end.

(** What a value is compared by: its number, or its text. *)
Definition comparand (o : obj) : option (number + string) :=
  match o with
  | PyInt n => Some (inl (number_of_Z n))
  | PyFloat f => Some (inl (number_of_float f))
  | PyStr s => Some (inr s)
  | _ => None
  end.

(** [a == b] for ints, floats and strings: numbers compare by value (an
    int equals the float of the same value, nan equals nothing), strings by
    content, and a number never equals a string. *)
Definition py_eq (a b : obj) : bool :=
  match comparand a, comparand b with
  | Some (inl x), Some (inl y) => number_eqb x y
  | Some (inr s), Some (inr t) => String.eqb s t
  | _, _ => false
  end.

(** ** Tokens and the lexer *)

Inductive kind : Type := BEGIN | END | ATOM | EQUAL | PARAMETER.

Definition kind_eqb (a b : kind) : bool :=
  match a, b with
  | BEGIN, BEGIN | END, END | ATOM, ATOM | EQUAL, EQUAL
  | PARAMETER, PARAMETER => true
  | _, _ => false
  end.

(** [Token = namedtuple('Token', 'name value')]; the name is [None] only in
    the end-of-stream token [Token(None, None)] that [advance] makes up. *)
Record Token : Type := mkToken { name : option kind; value : obj }.

Definition is_kind (k : kind) (t : Token) : bool :=
  match name t with Some k' => kind_eqb k k' | None => false end.

(** A pattern of the lexicon, matched at the start of the text: the matched
    text and what follows it. *)
Definition pattern : Type := string -> option (string * string).

Fixpoint literal (lit : string) : pattern := fun s =>
  match lit with
  | EmptyString => Some (EmptyString, s)
  | String c lit' =>
      match s with
      | String c' s' =>
          if (c =? c')%char then
            match literal lit' s' with
            | Some (m, rest) => Some (String c m, rest)
            | None => None
            end
          else None
      | EmptyString => None
      end
  end.

(** The character class [[^|{}=]]. *)
Definition atom_char (c : ascii) : bool :=
  negb ((c =? "|")%char || (c =? "{")%char || (c =? "}")%char || (c =? "=")%char).

(** The longest prefix of characters satisfying [p], and the rest. *)
Fixpoint span (p : ascii -> bool) (s : string) : string * string :=
  match s with
  | String c s' =>
      if p c then let '(run, rest) := span p s' in (String c run, rest)
      else (EmptyString, s)
  | EmptyString => (EmptyString, EmptyString)
  end.

(** [[^|{}=]+]: greedy, at least one character. *)
Definition atom_run : pattern := fun s =>
  match span atom_char s with
  | (EmptyString, _) => None
  | (run, rest) => Some (run, rest)
  end.

(** The lexicon of [lex], in the order [re.Scanner] tries it. *)
Definition lexicon : list (pattern * kind) :=
  [ (literal "{{", BEGIN);
    (literal "}}", END);
    (atom_run, ATOM);
    (literal "=", EQUAL);
    (literal "|", PARAMETER) ].

(** The first pattern that matches at the start of [s]. *)
Fixpoint first_match (lx : list (pattern * kind)) (s : string)
  : option (kind * string * string) :=
  match lx with
  | [] => None
  | (p, k) :: lx' =>
      match p s with
      | Some (m, rest) => Some (k, m, rest)
      | None => first_match lx' s
      end
  end.

(** One step of [Scanner.scan]: the loop breaks when no pattern matches
    ([if not m]) and when the match is empty ([if i == j]). *)
Definition next_lexeme (s : string) : option (kind * string * string) :=
  match first_match lexicon s with
  | Some (_, EmptyString, _) => None
  | r => r
  end.

Definition inspect {A : Type} (a : A) : {b : A | a = b} := exist _ a eq_refl.

Definition cons_fst {A B : Type} (a : A) (p : list A * B) : list A * B :=
  (a :: fst p, snd p).

(** [Scanner.scan]: the lexemes (pattern matched, text matched) from the
    start of the text up to the first position where the loop breaks, and
    the unscanned remainder [string[i:]]. *)
Equations? scan (s : string) : list (kind * string) * string
  by wf (String.length s) lt :=
  scan s with inspect (next_lexeme s) := {
    | exist _ (Some (k, m, rest)) _ => cons_fst (k, m) (scan rest)
    | exist _ None _ => ([], s) }.
Proof.
  (* a pattern splits the text into the match and the rest, and the match
     is not empty *)
  clear scan.
  assert (Hlit : forall lit t m' r, literal lit t = Some (m', r) ->
            String.length t = (String.length m' + String.length r)%nat).
  { induction lit as [|c lit IH]; intros t m' r; simpl.
    - intros [= <- <-]. reflexivity.
    - destruct t as [|c' t']; [discriminate|].
      destruct (c =? c')%char; [|discriminate].
      destruct (literal lit t') as [[m1 r1]|] eqn:E; [|discriminate].
      intros [= <- <-]. simpl. f_equal. apply IH. exact E. }
  assert (Hspan : forall t,
            String.length t = (String.length (fst (span atom_char t))
                               + String.length (snd (span atom_char t)))%nat).
  { induction t as [|c t IH]; simpl; [reflexivity|].
    destruct (atom_char c); [|reflexivity].
    destruct (span atom_char t); simpl in *. lia. }
  match goal with H : next_lexeme s = Some _ |- _ => rename H into Hnext end.
  unfold next_lexeme, lexicon, first_match, atom_run in Hnext.
  specialize (Hspan s).
  repeat match type of Hnext with
  | context [literal ?l s] =>
      let E := fresh "E" in
      destruct (literal l s) as [[? ?]|] eqn:E; [apply Hlit in E|]
  end;
  destruct (span atom_char s) as [[|? ?] ?]; simpl in *;
  try discriminate;
  repeat match type of Hnext with
  | context [match ?x with EmptyString => _ | String _ _ => _ end] =>
      destruct x; try discriminate
  end;
  try (injection Hnext as <- <- <-); simpl in *; lia.
Qed.

(** The action of each lexicon entry: [ATOM] tokens carry the atomized
    text, the others the matched text itself. *)
Definition action (lexeme : kind * string) : result Token :=
  let '(k, t) := lexeme in
  match k with
  | ATOM =>
      match atomize t with
      | Ok v => Ok (mkToken (Some ATOM) v)
      | Raise e => Raise e
      | OutOfFuel => OutOfFuel
      end
  | _ => Ok (mkToken (Some k) (PyStr t))
  end.

Fixpoint actions (lexemes : list (kind * string)) : result (list Token) :=
  match lexemes with
  | [] => Ok []
  | x :: rest =>
      match action x with
      | Ok t =>
          match actions rest with
          | Ok ts => Ok (t :: ts)
          | r => r
          end
      | Raise e => Raise e
      | OutOfFuel => OutOfFuel
      end
  end.

(** [lex.scan(s)]: the tokens and the unscanned remainder. *)
Definition lex_scan (s : string) : result (list Token * string) :=
  let '(lexemes, remainder) := scan s in
  match actions lexemes with
  | Ok tokens => Ok (tokens, remainder)
  | Raise e => Raise e
  | OutOfFuel => OutOfFuel
  end.

(** ** The pushback token stream *)

(** [iterator] holds the tokens not yet drawn and [pushed] the pushback
    slot.  [lost] is a ghost field the source does not have: it collects
    every token that was still pending in [pushed] when an assignment to
    [tokens.pushed] replaced it. *)
Record TokenStream : Type := mkStream {
  iterator : list Token;
  pushed : option Token;
  lost : list Token
}.

Definition new_TokenStream (tokens : list Token) : TokenStream :=
  mkStream tokens None [].

(** [TokenStream.next]; [None] stands for [StopIteration]. *)
Definition next (ts : TokenStream) : option Token * TokenStream :=
  match pushed ts with
  | Some t => (Some t, mkStream (iterator ts) None (lost ts))
  | None =>
      match iterator ts with
      | [] => (None, ts)
      | t :: rest => (Some t, mkStream rest None (lost ts))
      end
  end.

(** The assignment [tokens.pushed = token]. *)
Definition set_pushed (t : Token) (ts : TokenStream) : TokenStream :=
  mkStream (iterator ts) (Some t)
    (match pushed ts with Some old => old :: lost ts | None => lost ts end).

Definition end_of_stream : Token := mkToken None PyNone.

(** ** The parser *)

(** Parser functions take the stream and leave it mutated, also when they
    raise. *)
Definition M (A : Type) : Type := TokenStream -> result A * TokenStream.

Definition ret {A} (a : A) : M A := fun ts => (Ok a, ts).

Definition raise {A} (e : exn) : M A := fun ts => (Raise e, ts).

Definition out_of_fuel {A} : M A := fun ts => (OutOfFuel, ts).

Definition bind {A B} (c : M A) (k : A -> M B) : M B := fun ts =>
  match c ts with
  | (Ok a, ts') => k a ts'
  | (Raise e, ts') => (Raise e, ts')
  | (OutOfFuel, ts') => (OutOfFuel, ts')
  end.

Definition lift {A} (r : result A) : M A := fun ts => (r, ts).

Notation "x <- c ;; k" := (bind c (fun x => k))
  (at level 61, c at next level, right associativity).

Notation "c ;;; k" := (bind c (fun _ => k))
  (at level 61, right associativity).

Definition advance : M Token := fun ts =>
  match next ts with
  | (Some t, ts') => (Ok t, ts')
  | (None, ts') => (Ok end_of_stream, ts')
  end.

Definition push (t : Token) : M unit := fun ts => (Ok tt, set_pushed t ts).

Definition match_atom : M obj :=
  token <- advance ;;
  if negb (is_kind ATOM token) then push token ;;; ret PyNone
  else ret (value token).

Definition match_end : M unit :=
  token <- advance ;;
  if is_kind END token then ret tt else raise AssertionError.

(** The generator [manage_pairs], by what one [send((idx, value))] does to
    the list [pairs].  The local [pair] is the list appended last, so
    [pair[idx] = value] with [idx = 1] writes slot 1 of the last element
    of [pairs]; before the first append [pair] is unbound. *)
Fixpoint set_last_slot1 (value : obj) (pairs : list (obj * obj))
  : option (list (obj * obj)) :=
  match pairs with
  | [] => None
  | [p] => Some [(fst p, value)]
  | p :: rest => option_map (cons p) (set_last_slot1 value rest)
  end.

Definition send (idx : nat) (value : obj) (pairs : list (obj * obj))
  : result (list (obj * obj)) :=
  if is_None value then Ok pairs
  else
    match idx with
    | O => Ok (pairs ++ [(value, PyNone)])%list
    | _ =>
        match set_last_slot1 value pairs with
        | Some pairs' => Ok pairs'
        | None => Raise UnboundLocalError
        end
    end.

(** [next(idx_cycle)] on [itertools.cycle([0, 1])]: the local [idx_cycle]
    is unbound ([None]) until a PARAMETER token binds it; a bound cycle is
    the index it yields next. *)
Definition next_idx (idx_cycle : option nat) : M (nat * option nat) :=
  match idx_cycle with
  | None => raise UnboundLocalError
  | Some i => ret (i, Some (1 - i)%nat)
  end.

(** The entry made of a pair: [Arg] of slot 0 when slot 1 [is None], else
    [Kwarg] of both slots. *)
Definition classify (pair : obj * obj) : param :=
  if is_None (snd pair) then Arg (fst pair) else Kwarg (fst pair) (snd pair).

(** [match_template] and the [while True] loop of [match_parameters].
    [fuel] bounds the nesting of calls and loop iterations. *)
Fixpoint match_template (fuel : nat) : M template :=
  match fuel with
  | O => out_of_fuel
  | S fuel' =>
      token <- advance ;;
      if negb (is_kind BEGIN token) then push token ;;; ret EmptyDict
      else
        name <- match_atom ;;
        name <- (if is_None name
                 then t <- match_template fuel' ;; ret (PyDict t)
                 else ret name) ;;
        parameters <- match_parameters fuel' [] None ;;
        match_end ;;;
        ret (Template name parameters)
  end
with match_parameters (fuel : nat) (pairs : list (obj * obj))
       (idx_cycle : option nat) : M (list param) :=
  match fuel with
  | O => out_of_fuel
  | S fuel' =>
      token <- advance ;;
      match name token with
      | Some PARAMETER =>
          pairs <- lift (send 0 PyNone pairs) ;;
          match_parameters fuel' pairs (Some 0%nat)
      | Some ATOM =>
          ic <- next_idx idx_cycle ;;
          pairs <- lift (send (fst ic) (value token) pairs) ;;
          match_parameters fuel' pairs (snd ic)
      | Some BEGIN =>
          push token ;;;
          ic <- next_idx idx_cycle ;;
          t <- match_template fuel' ;;
          pairs <- lift (send (fst ic) (PyDict t) pairs) ;;
          match_parameters fuel' pairs (snd ic)
      | Some EQUAL => match_parameters fuel' pairs idx_cycle
      | _ => push token ;;; ret (map classify pairs)
      end
  end.

(** Calls nest and loops iterate at most this often on a stream of the
    given tokens (see [parse_terminates]). *)
Definition call_bound (tokens : list Token) : nat :=
  (4 * List.length tokens + 1)%nat.

(** [parse(s)], with the stream it leaves behind. *)
Definition parse_stream (s : string) : result template * TokenStream :=
  match lex_scan s with
  | Ok (tokens, _) => match_template (call_bound tokens) (new_TokenStream tokens)
  | Raise e => (Raise e, new_TokenStream [])
  | OutOfFuel => (OutOfFuel, new_TokenStream [])
  end.

Definition parse (s : string) : result template := fst (parse_stream s).

(** [parse] from the token list on. *)
Definition parse_tokens (tokens : list Token) : result template :=
  fst (match_template (call_bound tokens) (new_TokenStream tokens)).

(** ** The reference builder *)

(** A Python dict as its items, at most one per key.  Keys are compared
    with [==]; [None] is a key of its own. *)
Definition dict : Type := list (obj * obj).

Definition hashable (o : obj) : bool :=
  match o with PyDict _ => false | _ => true end.

Definition key_eq (a b : obj) : bool :=
  py_eq a b || (is_None a && is_None b).

(** [d[k] = v]: the item of an equal key keeps its key and takes the new
    value; otherwise a new item is added. *)
Fixpoint setitem (d : dict) (k v : obj) : dict :=
  match d with
  | [] => [(k, v)]
  | (k', v') :: d' =>
      if key_eq k' k then (k', v) :: d' else (k', v') :: setitem d' k v
  end.

(** [d.get(k)]. *)
Fixpoint getitem (d : dict) (k : obj) : option obj :=
  match d with
  | [] => None
  | (k', v') :: d' => if key_eq k' k then Some v' else getitem d' k
  end.

(** [dict(items)], updating [d]: the items are stored in order; storing
    under an unhashable key (a nested template node) raises [TypeError]. *)
Fixpoint dict_update (d : dict) (items : list (obj * obj)) : result dict :=
  match items with
  | [] => Ok d
  | (k, v) :: rest =>
      if hashable k then dict_update (setitem d k v) rest
      else Raise TypeError
  end.

(** [[p.value for p in parameters if isinstance(p, Arg)]]. *)
Fixpoint arg_values (parameters : list param) : list obj :=
  match parameters with
  | [] => []
  | Arg v :: rest => v :: arg_values rest
  | Kwarg _ _ :: rest => arg_values rest
  end.

(** [[(p.key, p.value) for p in parameters if isinstance(p, Kwarg)]]. *)
Fixpoint kwarg_items (parameters : list param) : list (obj * obj) :=
  match parameters with
  | [] => []
  | Arg _ :: rest => kwarg_items rest
  | Kwarg k v :: rest => (k, v) :: kwarg_items rest
  end.

Inductive reference : Type :=
| TemplateReference (name : obj) (args : list obj) (kwargs : dict).

(** The body of [from_string] after [parse]: subscripting the empty node
    with ['parameters'] raises [KeyError]. *)
Definition build_reference (parsed_tmpl : template) : result reference :=
  match parsed_tmpl with
  | EmptyDict => Raise KeyError
  | Template name parameters =>
      let args := arg_values parameters in
      match dict_update [] (kwarg_items parameters) with
      | Ok kwargs => Ok (TemplateReference name args kwargs)
      | Raise e => Raise e
      | OutOfFuel => OutOfFuel
      end
  end.

Definition from_string (text : string) : result reference :=
  match parse text with
  | Ok parsed_tmpl => build_reference parsed_tmpl
  | Raise e => Raise e
  | OutOfFuel => OutOfFuel
  end.

(** * Vocabulary of the properties *)

(** ** [atomize] *)

(** The value [atomize] returns, by the order of its converters. *)
Definition coerced (token : string) : obj :=
  let t := Py.strip token in
  match Py.int t with
  | Some n => PyInt n
  | None =>
      match Py.float t with
      | Some f => PyFloat f
      | None => PyStr t
      end
  end.


(** *** Re-coercing the string form of a coerced value *)

(** [atomize(str(atomize(x))) == atomize(x)]. *)
Definition recoerced_equal (x : string) : bool :=
  match atomize x with
  | Ok v =>
      match atomize (str v) with
      | Ok w => py_eq w v
      | _ => false
      end
  | _ => false
  end.

Definition is_int_or_str (o : obj) : bool :=
  match o with PyInt _ | PyStr _ => true | _ => false end.

(** [float(str(f)) == f]: the twelve significant digits that [str] keeps
    of the float read back as the float. *)
Definition str_reads_back (f : spec_float) : bool :=
  match Py.float (Py.str_float f) with
  | Some g => py_eq (PyFloat g) (PyFloat f)
  | None => false
  end.

(** The text has a decimal point or an exponent letter. *)
Fixpoint has_mark (s : string) : bool :=
  match s with
  | EmptyString => false
  | String c s' => Py.is_dot c || Py.is_e c || has_mark s'
  end.

Fixpoint no_space (s : string) : bool :=
  match s with
  | EmptyString => true
  | String c s' => negb (Py.is_space c) && no_space s'
  end.

(** What [lstrip] returns is empty or starts with a character that is not
    white space. *)
Definition starts_clean (s : string) : bool :=
  match s with
  | EmptyString => true
  | String c _ => negb (Py.is_space c)
  end.

(** ** The lexer *)

(** The texts of the lexemes, joined in order. *)
Fixpoint texts (lexemes : list (kind * string)) : string :=
  match lexemes with
  | [] => EmptyString
  | (_, t) :: rest => t ++ texts rest
  end.

(** The text starts with a brace that is not followed by a second brace of
    its kind. *)
Definition lone_brace (s : string) : bool :=
  match s with
  | String c rest =>
      ((c =? "{")%char || (c =? "}")%char) &&
      match rest with
      | String c' _ => negb (c =? c')%char
      | EmptyString => true
      end
  | EmptyString => false
  end.

(** ** Reasoning about parser functions *)

(** [triple P c Q]: run from a stream satisfying [P], the function [c]
    ends with a result and a stream satisfying [Q]. *)
Definition triple {A} (P : TokenStream -> Prop) (c : M A)
  (Q : result A -> TokenStream -> Prop) : Prop :=
  forall ts, P ts -> Q (fst (c ts)) (snd (c ts)).

(** A function that keeps a property of the stream whatever it returns. *)
Definition keeps {A} (I : TokenStream -> Prop) (c : M A) : Prop :=
  triple I c (fun _ => I).

(** ** The pushback slot *)

(** The tokens overwritten so far are [L]. *)
Definition lost_is (L : list Token) (ts : TokenStream) : Prop := lost ts = L.

(** ** Inputs that do not start with a template *)

(** Whether the first token of the input is [BEGIN]. *)
Definition starts_with_BEGIN (s : string) : bool :=
  match lex_scan s with
  | Ok (t :: _, _) => is_kind BEGIN t
  | _ => false
  end.

(** ** Entries of the parameter list *)

(** Every entry of a node, at any depth, holds a value in each slot it
    shows: no [Arg(None)], no [Kwarg] with a [None] key or value. *)
Fixpoint filled_obj (o : obj) : bool :=
  match o with
  | PyDict d => filled_template d
  | _ => true
  end
with filled_template (d : template) : bool :=
  match d with
  | EmptyDict => true
  | Template nm parameters =>
      filled_obj nm &&
      (fix all (ps : list param) : bool :=
         match ps with
         | [] => true
         | p :: rest => filled_param p && all rest
         end) parameters
  end
with filled_param (p : param) : bool :=
  match p with
  | Arg v => negb (is_None v) && filled_obj v
  | Kwarg k v =>
      negb (is_None k) && negb (is_None v) && filled_obj k && filled_obj v
  end.

(** A pair under assembly: slot 0 is written, and what the slots hold
    is filled. *)
Definition filled_pair (pair : obj * obj) : bool :=
  negb (is_None (fst pair)) && filled_obj (fst pair) && filled_obj (snd pair).

(** The values of the tokens of a stream are not nodes: the lexer makes
    strings and coerced atoms only. *)
Definition atomic (t : Token) : bool :=
  match value t with PyDict _ => false | _ => true end.

Definition atomic_stream (ts : TokenStream) : Prop :=
  forallb atomic (iterator ts) = true /\
  match pushed ts with Some t => atomic t = true | None => True end.

(** What is kept along a run: the stream stays atomic, and a returned
    value satisfies [good]. *)
Definition returns {A} (good : A -> Prop) (r : result A) (ts : TokenStream)
  : Prop :=
  atomic_stream ts /\ forall a, r = Ok a -> good a.

(** The token of [|]. *)
Definition parameter_token : Token := mkToken (Some PARAMETER) (PyStr "|").

(** The value of the last item stored under a key equal to [k]. *)
Fixpoint last_value (k : obj) (items : list (obj * obj)) : option obj :=
  match items with
  | [] => None
  | (k', v) :: rest =>
      match last_value k rest with
      | Some w => Some w
      | None => if key_eq k' k then Some v else None
      end
  end.

(** ** Written templates *)

Local Open Scope list_scope.

(** A value as written in the source: the text of an atom, or a template
    [{{name|...}}] whose name is an atom.  A parameter of a written template
    is empty ([|] with nothing after it), positional ([|v]) or keyword
    ([|k=v], the key an atom). *)
Inductive written : Type :=
| Atom (x : string)
| Nested (nm : string) (parameters : list parameter)
with parameter : Type :=
| Empty
| Positional (v : written)
| Keyword (k : string) (v : written).

Definition atom_token (x : string) : Token := mkToken (Some ATOM) (coerced x).

Definition begin_token : Token := mkToken (Some BEGIN) (PyStr "{{").

Definition end_token : Token := mkToken (Some END) (PyStr "}}").

Definition equal_token : Token := mkToken (Some EQUAL) (PyStr "=").

(** The tokens of a written value and of a written parameter. *)
Fixpoint value_tokens (w : written) : list Token :=
  match w with
  | Atom x => [atom_token x]
  | Nested nm ws =>
      begin_token :: atom_token nm :: flat_map parameter_tokens ws
      ++ [end_token]
  end
with parameter_tokens (p : parameter) : list Token :=
  match p with
  | Empty => [parameter_token]
  | Positional v => parameter_token :: value_tokens v
  | Keyword k v =>
      parameter_token :: atom_token k :: equal_token :: value_tokens v
  end.

(** The object a written value stands for, and the entries a written
    parameter stands for: one, or none when the parameter is empty. *)
Fixpoint value_obj (w : written) : obj :=
  match w with
  | Atom x => coerced x
  | Nested nm ws =>
      PyDict (Template (coerced nm) (flat_map parameter_entries ws))
  end
with parameter_entries (p : parameter) : list param :=
  match p with
  | Empty => []
  | Positional v => [Arg (value_obj v)]
  | Keyword k v => [Kwarg (coerced k) (value_obj v)]
  end.

(** The node of the template [{{nm|ws}}]. *)
Definition written_node (nm : string) (ws : list parameter) : template :=
  Template (coerced nm) (flat_map parameter_entries ws).

(** The pairs a written parameter makes. *)
Definition parameter_pairs (p : parameter) : list (obj * obj) :=
  match p with
  | Empty => []
  | Positional v => [(value_obj v, PyNone)]
  | Keyword k v => [(coerced k, value_obj v)]
  end.

(** The args and the kwargs items of the written parameters. *)
Definition parameter_args (p : parameter) : list obj :=
  match p with
  | Positional v => [value_obj v]
  | _ => []
  end.

Definition parameter_items (p : parameter) : list (obj * obj) :=
  match p with
  | Keyword k v => [(coerced k, value_obj v)]
  | _ => []
  end.

(** The value of a parameter satisfies [P]. *)
Definition on_value (P : written -> Prop) (p : parameter) : Prop :=
  match p with
  | Empty => True
  | Positional v => P v
  | Keyword _ v => P v
  end.

(** What the parser does with a written value met in the parameter loop:
    it sends the object of the value to the pair manager and goes on after
    the tokens of the value. *)
Definition parsed_in_loop (w : written) : Prop :=
  forall fuel i pairs pairs' rest l,
    (List.length (value_tokens w) <= fuel)%nat ->
    send i (value_obj w) pairs = Ok pairs' ->
    match_parameters (S fuel) pairs (Some i)
      (mkStream (value_tokens w ++ rest) None l)
    = match_parameters fuel pairs' (Some (1 - i)%nat) (mkStream rest None l).

(** ** Termination: the bound on calls is never reached *)

(** The weight of a token in the measure: the end-of-stream token, which
    [advance] can produce again and again, weighs nothing. *)
Definition weight (t : Token) : nat :=
  match name t with Some _ => 1 | None => 0 end.

(** The measure of a stream: two for each token not yet drawn, one for a
    pushed token. *)
Definition measure (ts : TokenStream) : nat :=
  2 * List.length (iterator ts)
  + match pushed ts with Some t => weight t | None => 0 end.

(** The token [advance] returns next. *)
Definition peek (ts : TokenStream) : Token :=
  match pushed ts with
  | Some t => t
  | None => match iterator ts with t :: _ => t | [] => end_of_stream end
  end.

Definition within (n : nat) (ts : TokenStream) : Prop := (measure ts <= n)%nat.

(** The function ended, by returning or raising, on a stream of measure at
    most [n]. *)
Definition finished {A} (n : nat) (r : result A) (ts : TokenStream) : Prop :=
  r <> OutOfFuel /\ (measure ts <= n)%nat.

(** The stream is smaller than [n]. *)
Definition below (n : nat) (ts : TokenStream) : Prop :=
  (measure ts + 1 <= n)%nat.

(** ** Templates that are never closed *)

(** No END token is left in the stream. *)
Definition open_token (t : Token) : bool := negb (is_kind END t).

Definition no_END (ts : TokenStream) : Prop :=
  forallb open_token (iterator ts) = true /\
  match pushed ts with Some t => open_token t = true | None => True end.

(** The exceptions of the parser functions. *)
Definition parser_exn {A} (r : result A) : Prop :=
  forall e, r = Raise e -> e = AssertionError \/ e = UnboundLocalError.

Definition safe {A} (r : result A) (ts : TokenStream) : Prop :=
  no_END ts /\ parser_exn r.

(** The function did not return. *)
Definition fails {A} (r : result A) (ts : TokenStream) : Prop :=
  safe r ts /\ forall a, r <> Ok a.

(** Whether the tokens of the input hold no END token. *)
Definition never_closed (s : string) : bool :=
  match lex_scan s with
  | Ok (tokens, _) => forallb open_token tokens
  | _ => false
  end.

(** ** Lexemes and their texts *)

(** Every character of the text satisfies [p]. *)
Fixpoint all_chars (p : ascii -> bool) (s : string) : bool :=
  match s with
  | EmptyString => true
  | String c s' => p c && all_chars p s'
  end.

(** A text the pattern [[^|{}=]+] matches in full. *)
Definition atom_text (x : string) : bool :=
  match x with
  | EmptyString => false
  | _ => all_chars atom_char x
  end.

(** The text of a lexeme is one the pattern of its kind matches in full. *)
Definition lexeme_ok (l : kind * string) : bool :=
  match fst l with
  | BEGIN => (snd l =? "{{")%string
  | END => (snd l =? "}}")%string
  | ATOM => atom_text (snd l)
  | EQUAL => (snd l =? "=")%string
  | PARAMETER => (snd l =? "|")%string
  end.

Definition is_atom_lexeme (l : kind * string) : bool := kind_eqb ATOM (fst l).

(** No ATOM lexeme comes right after another. *)
Fixpoint atoms_apart (ls : list (kind * string)) : bool :=
  match ls with
  | a :: rest =>
      match rest with
      | b :: _ => negb (is_atom_lexeme a && is_atom_lexeme b)
      | [] => true
      end && atoms_apart rest
  | [] => true
  end.

(** The lexeme lists the scanner makes: every text fits its pattern, and an
    ATOM run is as long as it can be. *)
Definition well_lexed (ls : list (kind * string)) : bool :=
  forallb lexeme_ok ls && atoms_apart ls.

(** The text starts with a character of the class [[^|{}=]]. *)
Definition starts_atom (s : string) : bool :=
  match s with
  | String c _ => atom_char c
  | EmptyString => false
  end.

(** The token the action of a lexeme makes. *)
Definition lexeme_token (l : kind * string) : Token :=
  match fst l with
  | ATOM => mkToken (Some ATOM) (coerced (snd l))
  | k => mkToken (Some k) (PyStr (snd l))
  end.

(** ** Written templates as text *)

(** The lexemes of a written value and of a written parameter. *)
Fixpoint value_lexemes (w : written) : list (kind * string) :=
  match w with
  | Atom x => [(ATOM, x)]
  | Nested nm ws =>
      (BEGIN, "{{") :: (ATOM, nm) :: flat_map parameter_lexemes ws
      ++ [(END, "}}")]
  end
with parameter_lexemes (p : parameter) : list (kind * string) :=
  match p with
  | Empty => [(PARAMETER, "|")]
  | Positional v => (PARAMETER, "|") :: value_lexemes v
  | Keyword k v => (PARAMETER, "|") :: (ATOM, k) :: (EQUAL, "=") :: value_lexemes v
  end.

(** The text of a written value: [{{nm|v|k=v...}}]. *)
Definition render (w : written) : string := texts (value_lexemes w).

(** Every atom of the written value (names, keys and atom values) is a text
    of the class [[^|{}=]+]. *)
Fixpoint clean (w : written) : bool :=
  match w with
  | Atom x => atom_text x
  | Nested nm ws =>
      atom_text nm &&
      (fix all (ps : list parameter) : bool :=
         match ps with
         | [] => true
         | p :: rest => clean_parameter p && all rest
         end) ws
  end
with clean_parameter (p : parameter) : bool :=
  match p with
  | Empty => true
  | Positional v => clean v
  | Keyword k v => atom_text k && clean v
  end.

(** ** White space around an atom *)

Definition all_space (s : string) : bool := all_chars Py.is_space s.

(** ** Turns of the parameter loop *)

(** The turns the loop of [match_parameters] takes on a written parameter:
    one for each of its tokens outside a nested template, one for a nested
    template. *)
Definition parameter_turns (p : parameter) : nat :=
  match p with
  | Empty => 1
  | Positional _ => 2
  | Keyword _ _ => 4
  end.

Fixpoint turns (ws : list parameter) : nat :=
  match ws with
  | [] => 0
  | p :: ws' => parameter_turns p + turns ws'
  end.

(** ** Keyword parameters keyed by a template *)

(** A parameter of a template whose keyword keys may be templates: a
    written parameter, or a keyword parameter [|{{knm|...}}=v] whose key is
    a written template. *)
Inductive keyed : Type :=
| Plain (p : parameter)
| Keyed (knm : string) (kws : list parameter) (v : written).

Definition keyed_tokens (q : keyed) : list Token :=
  match q with
  | Plain p => parameter_tokens p
  | Keyed knm kws v =>
      parameter_token :: value_tokens (Nested knm kws)
      ++ equal_token :: value_tokens v
  end.

Definition keyed_pairs (q : keyed) : list (obj * obj) :=
  match q with
  | Plain p => parameter_pairs p
  | Keyed knm kws v => [(PyDict (written_node knm kws), value_obj v)]
  end.

Definition keyed_entries (q : keyed) : list param :=
  match q with
  | Plain p => parameter_entries p
  | Keyed knm kws v => [Kwarg (PyDict (written_node knm kws)) (value_obj v)]
  end.

Definition is_Keyed (q : keyed) : bool :=
  match q with Keyed _ _ _ => true | Plain _ => false end.

(** ** The exceptions of the parser *)

(** A parser function that raises nothing but [AssertionError] and
    [UnboundLocalError]. *)
Definition raises_only {A} (c : M A) : Prop :=
  forall ts, parser_exn (fst (c ts)).

(** * wapiti: the models ([operations/models.py]) *)

Module Models.

Local Open Scope N_scope.

(** ** Text *)

(** The module has [unicode_literals]: its literals are [unicode] strings,
    and so is every text made with them.  A text is the list of its code
    points. *)
Definition text : Type := list N.

(** A literal of the source, written with its ASCII characters. *)
Definition lit (s : string) : text :=
  map N_of_ascii (list_ascii_of_string s).

(** [s] with [p] removed from its start, when [s] starts with [p]. *)
Fixpoint without_prefix (p s : text) : option text :=
  match p, s with
  | [], _ => Some s
  | a :: p', b :: s' => if a =? b then without_prefix p' s' else None
  | _ :: _, [] => None
  end.

(** The split of [s] at the first occurrence of [sep]. *)
Fixpoint find (sep s : text) : option (text * text) :=
  match without_prefix sep s with
  | Some tail => Some ([], tail)
  | None =>
      match s with
      | [] => None
      | c :: s' =>
          match find sep s' with
          | Some (head, tail) => Some (c :: head, tail)
          | None => None
          end
      end
  end.

(** The split of [s] at the last occurrence of [sep]. *)
Fixpoint rfind (sep s : text) : option (text * text) :=
  match s with
  | [] =>
      match without_prefix sep [] with
      | Some tail => Some ([], tail)
      | None => None
      end
  | c :: s' =>
      match rfind sep s' with
      | Some (head, tail) => Some (c :: head, tail)
      | None =>
          match without_prefix sep s with
          | Some tail => Some ([], tail)
          | None => None
          end
      end
  end.

(** [s.partition(sep)] and [s.rpartition(sep)], for a separator that is
    not empty. *)
Definition partition (s sep : text) : text * text * text :=
  match find sep s with
  | Some (head, tail) => (head, sep, tail)
  | None => (s, [], [])
  end.

Definition rpartition (s sep : text) : text * text * text :=
  match rfind sep s with
  | Some (head, tail) => (head, sep, tail)
  | None => ([], [], s)
  end.

(** [s.endswith(suffix)]. *)
Fixpoint endswith (s suffix : text) : bool :=
  match without_prefix suffix s with
  | Some [] => true
  | _ =>
      match s with
      | [] => false
      | _ :: s' => endswith s' suffix
      end
  end.

(** [s.lstrip(...)] and [s.rstrip(...)], by the test of the characters to
    remove. *)
Fixpoint lstrip (p : N -> bool) (s : text) : text :=
  match s with
  | c :: s' => if p c then lstrip p s' else s
  | [] => []
  end.

Fixpoint rstrip (p : N -> bool) (s : text) : text :=
  match s with
  | [] => []
  | c :: s' =>
      match rstrip p s' with
      | [] => if p c then [] else [c]
      | r => c :: r
      end
  end.

(** The characters of [chars], as [s.lstrip(chars)] takes them. *)
Definition one_of (chars : text) (c : N) : bool := existsb (N.eqb c) chars.

(** The white space of [unicode.strip()] in Python 2.7: the characters
    whose bidirectional type is WS, B or S or whose category is Zs. *)
Definition unicode_isspace (c : N) : bool :=
  ((9 <=? c) && (c <=? 13)) || ((28 <=? c) && (c <=? 32)) ||
  (c =? 133) || (c =? 160) || (c =? 5760) || (c =? 6158) ||
  ((8192 <=? c) && (c <=? 8202)) || (c =? 8232) || (c =? 8233) ||
  (c =? 8239) || (c =? 8287) || (c =? 12288).

Section Titles.

(** The white space test of [strip()]. *)
Variable isspace : N -> bool.

(** [s.strip()]. *)
Definition strip (s : text) : text := rstrip isspace (lstrip isspace s).

Definition title_talk2subject (title : text) : text :=
  let '(talk_pref, _, title_suf) := partition title (lit ":") in
  let '(subj_pref, _, _) := rpartition talk_pref (lit "talk") in
  let subj_pref := strip subj_pref in
  let new_title := subj_pref ++ lit ":" ++ title_suf in
  let new_title := lstrip (one_of (lit ":")) new_title in
  new_title.

Definition title_subject2talk (title : text) : text :=
  let '(subj_pref, _, title_suf) := partition title (lit ":") in
  let subj_pref := strip subj_pref in
  let talk_pref :=
    match subj_pref with
    | [] => lit "Talk"
    | _ =>
        if endswith subj_pref (lit "talk") then subj_pref
        else subj_pref ++ lit " talk"
    end in
  let new_title := talk_pref ++ lit ":" ++ title_suf in
  new_title.

End Titles.

(** ** Namespaces *)

(** [PageIdentifier.is_subject_page] and [PageIdentifier.is_talk_page], by
    the namespace number [self.ns]; [%] is the floor modulo. *)
Definition is_subject_page (ns : Z) : bool :=
  ((ns >=? 0) && (ns mod 2 =? 0))%Z.

Definition is_talk_page (ns : Z) : bool :=
  ((ns >=? 0) && (ns mod 2 =? 1))%Z.

(** ** Page records *)

Section Pages.

Variable isspace : N -> bool.

(** The values of [page_id], [source], [subject_id] and [talk_id] other
    than [None]. *)
Variable V : Type.

(** A [PageInfo] object, by its attributes; [None] of [subject_id] and of
    [talk_id] is [None] here.  Objects of the subclasses have more
    attributes, which the functions below do not read. *)
Record PageInfo : Type := mkPageInfo {
  title : text;
  page_id : V;
  ns : Z;
  source : V;
  subject_id : option V;
  talk_id : option V;
  req_title : text
}.

(** The keyword arguments of [PageInfo(...)]: for each key the value, when
    the key is given.  An absent [subject_id] or [talk_id] is the same as
    one given as [None], their default. *)
Record page_kw : Type := mkKw {
  kw_title : option text;
  kw_page_id : option V;
  kw_ns : option Z;
  kw_source : option V;
  kw_subject_id : option V;
  kw_talk_id : option V;
  kw_req_title : option text
}.

(** The [ValueError]s of [PageInfo]: missing keyword arguments (raised by
    [WapitiModelBase.__init__] after its call of the debugger), a special
    namespace, an id that is not set. *)
Inductive page_error : Type :=
| MissingArguments (names : list string)
| SpecialNamespace (ns : Z)
| NotSet (attribute : string).

Definition absent {A} (key : string) (given : option A) : list string :=
  match given with
  | Some _ => []
  | None => [key]
  end.

(** [PageInfo.__init__]. *)
Definition PageInfo_init (kw : page_kw) : page_error + PageInfo :=
  let req_title := kw_req_title kw in
  match kw_title kw, kw_page_id kw, kw_ns kw, kw_source kw with
  | Some title, Some page_id, Some ns, Some source =>
      let req_title :=
        match req_title with
        | Some (c :: r) => c :: r
        | _ => title
        end in
      if is_subject_page ns then
        inr (mkPageInfo title page_id ns source
               (Some page_id) (kw_talk_id kw) req_title)
      else if is_talk_page ns then
        inr (mkPageInfo title page_id ns source
               (kw_subject_id kw) (Some page_id) req_title)
      else inl (SpecialNamespace ns)
  | _, _, _, _ =>
      inl (MissingArguments
             (absent "title" (kw_title kw) ++ absent "page_id" (kw_page_id kw)
              ++ absent "ns" (kw_ns kw) ++ absent "source" (kw_source kw)))
  end.

(** [dict(self.__dict__)] with [title] and [ns] replaced. *)
Definition kwargs_with (self : PageInfo) (new_title : text) (new_ns : Z)
  : page_kw :=
  mkKw (Some new_title) (Some (page_id self)) (Some new_ns)
    (Some (source self)) (subject_id self) (talk_id self)
    (Some (req_title self)).

Definition get_subject_info (self : PageInfo) : page_error + PageInfo :=
  if is_subject_page (ns self) then inr self
  else
    match subject_id self with
    | None => inl (NotSet "subject_id")
    | Some _ =>
        let subj_title := title_talk2subject isspace (title self) in
        let subj_ns := (ns self - 1)%Z in
        PageInfo_init (kwargs_with self subj_title subj_ns)
    end.

Definition get_talk_info (self : PageInfo) : page_error + PageInfo :=
  if is_talk_page (ns self) then inr self
  else
    match talk_id self with
    | None => inl (NotSet "talk_id")
    | Some _ =>
        let talk_title := title_subject2talk isspace (title self) in
        let talk_ns := (ns self + 1)%Z in
        PageInfo_init (kwargs_with self talk_title talk_ns)
    end.

End Pages.

Arguments mkPageInfo {V}.
Arguments title {V}.
Arguments page_id {V}.
Arguments ns {V}.
Arguments source {V}.
Arguments subject_id {V}.
Arguments talk_id {V}.
Arguments req_title {V}.
Arguments mkKw {V}.
Arguments PageInfo_init {V}.
Arguments kwargs_with {V}.
Arguments get_subject_info isspace {V}.
Arguments get_talk_info isspace {V}.

(** ** Dicts keyed by strings *)

Section Dict.

Variable V : Type.

(** The items of a dict, at most one per key, in the order in which the
    keys were first stored (the order an [OrderedDict] keeps; of a plain
    [dict] only the items matter). *)
Definition sdict : Type := list (string * V).

(** [d.get(k)]; [None] where [d[k]] raises [KeyError]. *)
Fixpoint get (d : sdict) (k : string) : option V :=
  match d with
  | [] => None
  | (k', v) :: d' => if (k' =? k)%string then Some v else get d' k
  end.

(** [d[k] = v]. *)
Fixpoint put (d : sdict) (k : string) (v : V) : sdict :=
  match d with
  | [] => [(k, v)]
  | (k', v') :: d' =>
      if (k' =? k)%string then (k', v) :: d' else (k', v') :: put d' k v
  end.

(** [d] after [d.pop(k)]. *)
Fixpoint pop (d : sdict) (k : string) : sdict :=
  match d with
  | [] => []
  | (k', v) :: d' => if (k' =? k)%string then d' else (k', v) :: pop d' k
  end.

(** [d.update(items)], and [OrderedDict(items)] or [dict(items)]. *)
Definition update (d : sdict) (items : list (string * V)) : sdict :=
  fold_left (fun d kv => put d (fst kv) (snd kv)) items d.

Definition of_items (items : list (string * V)) : sdict := update [] items.

(** [d.values()]. *)
Definition values (d : sdict) : list V := map snd d.

End Dict.

Arguments get {V}.
Arguments put {V}.
Arguments pop {V}.
Arguments update {V}.
Arguments of_items {V}.
Arguments values {V}.

(** ** Model attributes and model classes *)

Section Attributes.

(** The values of attributes: what the API response holds. *)
Variable V : Type.

(** [WapitiModelAttr]: [mw_name] may be [None]; [default] is [None] here
    where the source has [_MISSING]. *)
Record WapitiModelAttr : Type := WMA {
  name : string;
  mw_name : option string;
  default : option V;
  display : bool
}.

(** [[(a.name, a) for a in attr_list]]. *)
Definition by_name (attr_list : list WapitiModelAttr)
  : list (string * WapitiModelAttr) :=
  map (fun a => (name a, a)) attr_list.

(** [WapitiModelMeta.__new__]: the [attributes] of a class, from the
    [attributes] of its bases, in order, and the list in its body. *)
Definition class_attributes (bases : list (list WapitiModelAttr))
  (attrs : list WapitiModelAttr) : list WapitiModelAttr :=
  let all_attributes :=
    fold_left (fun all_attributes base_attr_list =>
                 let base_attr_dict := of_items (by_name base_attr_list) in
                 update all_attributes base_attr_dict)
      bases [] in
  let attr_dict := of_items (by_name attrs) in
  let all_attributes := update all_attributes attr_dict in
  values all_attributes.

(** How [WapitiModelBase.__init__] ends: with the attributes set on the
    object, or, after [pdb.set_trace()], with the [ValueError] for the
    missing names. *)
Inductive built : Type :=
| Built (self : sdict V)
| Missing (missing : list string).

(** The loop of [WapitiModelBase.__init__] over [self.attributes]. *)
Fixpoint init_loop (attributes : list WapitiModelAttr) (kw self : sdict V)
  (missing : list string) : sdict V * list string :=
  match attributes with
  | [] => (self, missing)
  | attr :: rest =>
      match get kw (name attr) with
      | Some val =>
          init_loop rest (pop kw (name attr)) (put self (name attr) val)
            missing
      | None =>
          match default attr with
          | None => init_loop rest kw self (missing ++ [name attr])
          | Some val => init_loop rest kw (put self (name attr) val) missing
          end
      end
  end.

Definition init (attributes : list WapitiModelAttr) (kw : sdict V) : built :=
  let '(self, missing) := init_loop attributes kw [] [] in
  match missing with
  | [] => Built self
  | _ => Missing missing
  end.

(** The loop of [from_query] over [cls.attributes]. *)
Fixpoint query_kwargs (attributes : list WapitiModelAttr)
  (all_q_dict kwargs : sdict V) : sdict V :=
  match attributes with
  | [] => kwargs
  | attr :: rest =>
      match mw_name attr with
      | None => query_kwargs rest all_q_dict kwargs
      | Some mw =>
          match get all_q_dict mw with
          | Some val => query_kwargs rest all_q_dict (put kwargs (name attr) val)
          | None => query_kwargs rest all_q_dict kwargs
          end
      end
  end.

(** [WapitiModelBase.from_query], for a class that keeps the [__init__] of
    [WapitiModelBase]. *)
Definition from_query (attributes : list WapitiModelAttr)
  (q_dict kw : sdict V) : built :=
  let kwargs := [] in
  let all_q_dict := kw in
  let all_q_dict := update all_q_dict q_dict in
  init attributes (query_kwargs attributes all_q_dict kwargs).

End Attributes.

Arguments WMA {V}.
Arguments name {V}.
Arguments mw_name {V}.
Arguments default {V}.
Arguments display {V}.
Arguments by_name {V}.
Arguments class_attributes {V}.
Arguments Built {V}.
Arguments Missing {V}.
Arguments init_loop {V}.
Arguments init {V}.
Arguments query_kwargs {V}.
Arguments from_query {V}.

(** ** Protections *)

Definition NEW : string := "NEW".
Definition AUTOCONFIRMED : string := "AUTOCONFIRMED".
Definition SYSOP : string := "SYSOP".

(** [ProtectionInfo.levels[k]]. *)
Definition levels (k : string) : option string :=
  if (k =? "new")%string then Some NEW
  else if (k =? "autoconfirmed")%string then Some AUTOCONFIRMED
  else if (k =? "sysop")%string then Some SYSOP
  else None.

(** The exceptions of [ProtectionInfo.__init__]. *)
Inductive error : Type := KeyError | ValueError.

Section Protections.

(** [datetime] values, and [parse_timestamp], which is [strptime] with the
    format of the API; [None] where it raises [ValueError]. *)
Variable datetime : Type.

Variable parse_timestamp : string -> option datetime.

Inductive expiry_value : Type :=
| infinity
| at_time (d : datetime).

(** [Protection = namedtuple('Protection', 'level, expiry')]. *)
Record Protection : Type := mkProtection {
  level : string;
  expiry : expiry_value
}.

(** An element of [protections]: a dict with the keys ['type'], ['level']
    and ['expiry']. *)
Record protection_entry : Type := mkEntry {
  entry_type : string;
  entry_level : string;
  entry_expiry : string
}.

(** The loop of [ProtectionInfo.__init__], updating [self.protections]. *)
Fixpoint init_protections (protections : list protection_entry)
  (self : sdict Protection) : error + sdict Protection :=
  match protections with
  | [] => inr self
  | p :: rest =>
      match (if negb (entry_expiry p =? "infinity")%string
             then option_map at_time (parse_timestamp (entry_expiry p))
             else Some infinity) with
      | None => inl ValueError
      | Some expiry =>
          match levels (entry_level p) with
          | None => inl KeyError
          | Some level =>
              init_protections rest
                (put self (entry_type p) (mkProtection level expiry))
          end
      end
  end.

Definition has_protection (self : sdict Protection) : bool :=
  existsb (fun x => negb (level x =? NEW)%string) (values self).

Definition has_indef (self : sdict Protection) : bool :=
  existsb (fun x => match expiry x with infinity => true | _ => false end)
    (values self).

(** The [try] of [is_full_prot] and of [is_semi_prot] turns the
    [KeyError] of a missing action into [False]. *)
Definition is_full_prot (self : sdict Protection) : bool :=
  match get self "edit" with
  | None => false
  | Some edit =>
      if (level edit =? SYSOP)%string then
        match get self "move" with
        | None => false
        | Some move => (level move =? SYSOP)%string
        end
      else false
  end.

Definition is_semi_prot (self : sdict Protection) : bool :=
  match get self "edit" with
  | None => false
  | Some edit => (level edit =? AUTOCONFIRMED)%string
  end.

End Protections.

Arguments infinity {datetime}.
Arguments at_time {datetime}.
Arguments mkProtection {datetime}.
Arguments level {datetime}.
Arguments expiry {datetime}.
Arguments init_protections {datetime}.
Arguments has_protection {datetime}.
Arguments has_indef {datetime}.
Arguments is_full_prot {datetime}.
Arguments is_semi_prot {datetime}.

End Models.

(** * Unicode tokens *)

(** [atomize] on a [unicode] token, the type of wiki text decoded from a
    response.  A text is the list of its code points, as in [Models]. *)

Section UnicodeTokens.

Local Open Scope N_scope.

(** The Unicode database of the interpreter: the white space test of
    [unicode.strip()], and the value of a character that is a decimal
    digit. *)
Variable isspace : N -> bool.

Variable decimal : N -> option N.










End UnicodeTokens.



(** ** Titles *)

(** The text has no [:]. *)
Definition no_colon (s : Models.text) : bool :=
  forallb (fun c => negb (c =? 58)%N) s.

(** The text is empty or starts with a character that fails [p]. *)
Definition starts_without (p : N -> bool) (s : Models.text) : Prop :=
  match s with
  | c :: _ => p c = false
  | [] => True
  end.

(** ** Model classes *)

(** Every item of the dict is stored under the name of its attribute. *)
Definition keyed_by_name {V} (d : Models.sdict (Models.WapitiModelAttr V))
  : Prop :=
  forall k a, In (k, a) d -> k = Models.name a.

(** The attribute of the name [n] in a list of attributes. *)
Definition named {V} (n : string) (attributes : list (Models.WapitiModelAttr V))
  : option (Models.WapitiModelAttr V) :=
  find (fun a => (Models.name a =? n)%string) attributes.

(** The strings of the list are pairwise distinct. *)
Fixpoint distinct (l : list string) : bool :=
  match l with
  | [] => true
  | x :: rest => negb (existsb (String.eqb x) rest) && distinct rest
  end.

(** ** Objects made from a query *)

(** What [from_query] finds for an attribute in the query: the value under
    the Mediawiki name of the attribute, in [q_dict] or else in [kw]. *)
Definition queried {V} (q_dict kw : Models.sdict V)
  (a : Models.WapitiModelAttr V) : option V :=
  match Models.mw_name a with
  | None => None
  | Some mw =>
      match Models.get q_dict mw with
      | Some v => Some v
      | None => Models.get kw mw
      end
  end.

(** The value an attribute gets: the queried one, else the default. *)
Definition found {V} (q_dict kw : Models.sdict V)
  (a : Models.WapitiModelAttr V) : option V :=
  match queried q_dict kw a with
  | Some v => Some v
  | None => Models.default a
  end.

(** The attributes with a value, as the items of the object, and the names
    of those without. *)
Definition found_items {V} (q_dict kw : Models.sdict V)
  (attributes : list (Models.WapitiModelAttr V)) : Models.sdict V :=
  flat_map (fun a => match found q_dict kw a with
                     | Some v => [(Models.name a, v)]
                     | None => []
                     end) attributes.

Definition not_found {V} (q_dict kw : Models.sdict V)
  (attributes : list (Models.WapitiModelAttr V)) : list string :=
  flat_map (fun a => match found q_dict kw a with
                     | Some _ => []
                     | None => [Models.name a]
                     end) attributes.

(** ** Protections *)

(** The protection an element of [protections] stands for, or the
    exception it makes [ProtectionInfo.__init__] raise. *)
Definition entry_protection {datetime} (parse_timestamp : string -> option datetime)
  (p : Models.protection_entry)
  : Models.error + Models.Protection datetime :=
  match (if (Models.entry_expiry p =? "infinity")%string then Some Models.infinity
         else option_map Models.at_time (parse_timestamp (Models.entry_expiry p)))
  with
  | None => inl Models.ValueError
  | Some expiry =>
      match Models.levels (Models.entry_level p) with
      | None => inl Models.KeyError
      | Some level => inr (Models.mkProtection level expiry)
      end
  end.

(** The last element of [protections] for the action [t]. *)
Definition last_entry (t : string) (protections : list Models.protection_entry)
  : option Models.protection_entry :=
  find (fun p => (Models.entry_type p =? t)%string) (rev protections).

(** * Properties *)

Local Open Scope string_scope.
Local Open Scope Z_scope.

(** ** The lexicon *)

Lemma literal_app lit s m rest :
  literal lit s = Some (m, rest) -> s = m ++ rest.
Proof.
  revert s m rest. induction lit as [|c lit IH]; intros s m rest; simpl.
  - intros [= <- <-]. reflexivity.
  - destruct s as [|c' s']; [discriminate|].
    destruct (Ascii.eqb_spec c c') as [->|]; [|discriminate].
    destruct (literal lit s') as [[m' r']|] eqn:E; [|discriminate].
    intros [= <- <-]. simpl. f_equal. apply IH. assumption.
Qed.

Lemma span_app p s : s = fst (span p s) ++ snd (span p s).
Proof.
  induction s as [|c s IH]; simpl; [reflexivity|].
  destruct (p c); [|reflexivity].
  destruct (span p s) as [run rest]. simpl in *. congruence.
Qed.

Lemma atom_run_app s m rest : atom_run s = Some (m, rest) -> s = m ++ rest.
Proof.
  unfold atom_run. pose proof (span_app atom_char s) as H.
  destruct (span atom_char s) as [run r]. simpl in H.
  destruct run; [discriminate|]. intros [= <- <-]. assumption.
Qed.

Lemma first_match_app s k m rest :
  first_match lexicon s = Some (k, m, rest) -> s = m ++ rest.
Proof.
  unfold lexicon, first_match.
  repeat match goal with
  | |- context [literal ?l s] =>
      let E := fresh in
      destruct (literal l s) as [[? ?]|] eqn:E;
      [intros [= <- <- <-]; apply (literal_app _ _ _ _ E)|]
  | |- context [atom_run s] =>
      let E := fresh in
      destruct (atom_run s) as [[? ?]|] eqn:E;
      [intros [= <- <- <-]; apply (atom_run_app _ _ _ E)|]
  end.
  discriminate.
Qed.

Lemma next_lexeme_app s k m rest :
  next_lexeme s = Some (k, m, rest) -> s = m ++ rest /\ m <> EmptyString.
Proof.
  unfold next_lexeme.
  destruct (first_match lexicon s) as [[[k' m'] r']|] eqn:E; [|discriminate].
  apply first_match_app in E.
  destruct m'; [discriminate|]. intros [= <- <- <-]. split; [assumption|discriminate].
Qed.

Lemma length_append (a b : string) :
  String.length (a ++ b) = (String.length a + String.length b)%nat.
Proof. induction a; simpl; congruence. Qed.

(** ** [atomize] *)

Lemma atomize_coerced (token : string) : atomize token = Ok (coerced token).
Proof.
  unfold atomize, coerced, converters, try_converters,
    convert_int, convert_float, convert_str.
  cbn [strip to_int to_float to_str byte_string].
  destruct (Py.int (Py.strip token)); simpl; [reflexivity|].
  destruct (Py.float (Py.strip token)); reflexivity.
Qed.





(** *** Re-coercing the string form of a coerced value *)

Lemma rstrip_no_space s : no_space s = true -> Py.rstrip s = s.
Proof.
  induction s as [|c s IH]; simpl; [reflexivity|].
  intros H. apply andb_prop in H. destruct H as [Hc Hs].
  rewrite (IH Hs). destruct s; [|reflexivity].
  apply negb_true_iff in Hc. rewrite Hc. reflexivity.
Qed.

Lemma lstrip_no_space s : no_space s = true -> Py.lstrip s = s.
Proof.
  destruct s as [|c s]; simpl; [reflexivity|].
  intros H. apply andb_prop in H. destruct H as [Hc _].
  apply negb_true_iff in Hc. rewrite Hc. reflexivity.
Qed.

Lemma strip_no_space s : no_space s = true -> Py.strip s = s.
Proof.
  intros H. unfold Py.strip. rewrite (lstrip_no_space s H).
  apply rstrip_no_space. assumption.
Qed.

Lemma rstrip_idempotent s : Py.rstrip (Py.rstrip s) = Py.rstrip s.
Proof.
  induction s as [|c s IH]; simpl; [reflexivity|].
  destruct (Py.rstrip s) as [|a r] eqn:E.
  - destruct (Py.is_space c) eqn:Hc; simpl; [reflexivity|].
    rewrite Hc. reflexivity.
  - change (Py.rstrip (String c (String a r)))
      with (match Py.rstrip (String a r) with
            | EmptyString =>
                if Py.is_space c then EmptyString else String c EmptyString
            | r' => String c r'
            end).
    rewrite IH. reflexivity.
Qed.

Lemma lstrip_starts_clean s : starts_clean (Py.lstrip s) = true.
Proof.
  induction s as [|c s IH]; simpl; [reflexivity|].
  destruct (Py.is_space c) eqn:Hc; [assumption|].
  simpl. rewrite Hc. reflexivity.
Qed.

Lemma lstrip_rstrip_clean s :
  starts_clean s = true -> Py.lstrip (Py.rstrip s) = Py.rstrip s.
Proof.
  destruct s as [|c s]; simpl; [reflexivity|].
  intros Hc. apply negb_true_iff in Hc.
  destruct (Py.rstrip s); [rewrite Hc|]; simpl; rewrite Hc; reflexivity.
Qed.

Lemma strip_idempotent s : Py.strip (Py.strip s) = Py.strip s.
Proof.
  unfold Py.strip.
  rewrite (lstrip_rstrip_clean _ (lstrip_starts_clean s)).
  apply rstrip_idempotent.
Qed.

Lemma no_space_digits d : no_space (NilEmpty.string_of_uint d) = true.
Proof. induction d; simpl; auto. Qed.

Lemma no_space_str_int n : no_space (Py.str_int n) = true.
Proof.
  unfold Py.str_int, NilZero.string_of_int, NilZero.string_of_uint.
  destruct (Z.to_int n) as [d|d]; destruct d; simpl;
    auto using no_space_digits.
Qed.

Lemma int_unsigned c s :
  no_space (String c s) = true ->
  (c =? "+")%char = false -> (c =? "-")%char = false ->
  Py.int (String c s) = Py.digits (String c s).
Proof.
  intros Hs Hp Hm. unfold Py.int. rewrite (strip_no_space _ Hs).
  destruct c as [[] [] [] [] [] [] [] []]; try discriminate; reflexivity.
Qed.

Lemma int_negative s :
  no_space s = true ->
  Py.int (String "-" s) = option_map Z.opp (Py.digits s).
Proof.
  intros Hs. unfold Py.int.
  rewrite strip_no_space by (simpl; exact Hs).
  rewrite (lstrip_no_space _ Hs). reflexivity.
Qed.

Lemma no_space_string_of_uint d : no_space (NilZero.string_of_uint d) = true.
Proof. destruct d; simpl; auto using no_space_digits. Qed.

Lemma int_string_of_uint d :
  d <> Decimal.Nil ->
  Py.int (NilZero.string_of_uint d) = Some (Z.of_uint d).
Proof.
  intros Hd. pose proof (NilZero.usu d Hd) as H.
  pose proof (no_space_string_of_uint d) as Hs.
  destruct d; [congruence|..];
    cbn [NilZero.string_of_uint NilEmpty.string_of_uint] in *;
    rewrite (int_unsigned _ _ Hs eq_refl eq_refl);
    unfold Py.digits; rewrite H; reflexivity.
Qed.

Lemma to_uint_not_nil p : Pos.to_uint p <> Decimal.Nil.
Proof.
  intros H. pose proof (DecimalPos.Unsigned.to_uint_nonnil p). congruence.
Qed.

Lemma int_str_int n : Py.int (Py.str_int n) = Some n.
Proof.
  unfold Py.str_int. pose proof (DecimalZ.of_to n) as H.
  destruct n as [|p|p]; [reflexivity| |]; simpl in *.
  - rewrite int_string_of_uint by apply to_uint_not_nil.
    f_equal. exact H.
  - rewrite int_negative by apply no_space_string_of_uint.
    unfold Py.digits. rewrite NilZero.usu by apply to_uint_not_nil.
    simpl. f_equal. exact H.
Qed.

Lemma coerced_str_int n : coerced (Py.str_int n) = PyInt n.
Proof.
  unfold coerced. rewrite (strip_no_space _ (no_space_str_int n)).
  rewrite int_str_int. reflexivity.
Qed.

Lemma coerced_PyStr x s : coerced x = PyStr s -> coerced s = PyStr s.
Proof.
  unfold coerced.
  destruct (Py.int (Py.strip x)) eqn:Hi; [discriminate|].
  destruct (Py.float (Py.strip x)) eqn:Hf; [discriminate|].
  intros [= <-]. rewrite strip_idempotent, Hi, Hf. reflexivity.
Qed.

Lemma number_eqb_of_Z n : number_eqb (number_of_Z n) (number_of_Z n) = true.
Proof.
  destruct n as [|p|p]; [reflexivity| |]; simpl; unfold fin;
    destruct (odd_part p 0) as [m e]; simpl;
    rewrite Pos.eqb_refl, Z.eqb_refl; reflexivity.
Qed.

Lemma no_space_app a b : no_space (a ++ b) = no_space a && no_space b.
Proof.
  induction a as [|c a IH]; simpl; [reflexivity|].
  rewrite IH. apply andb_assoc.
Qed.

Lemma no_space_strip_zeros s :
  no_space s = true -> no_space (Py.strip_zeros s) = true.
Proof.
  induction s as [|c s IH]; simpl; [reflexivity|].
  intros H. apply andb_prop in H. destruct H as [Hc Hs].
  specialize (IH Hs).
  destruct (Py.strip_zeros s) as [|a r].
  - destruct (c =? "0")%char; simpl; [reflexivity|]. rewrite Hc. reflexivity.
  - change (no_space (String c (String a r)))
      with (negb (Py.is_space c) && no_space (String a r)).
    rewrite Hc, IH. reflexivity.
Qed.

Lemma no_space_zeros n : no_space (Py.zeros n) = true.
Proof. induction n; simpl; auto. Qed.

Lemma no_space_substring n m s :
  no_space s = true -> no_space (substring n m s) = true.
Proof.
  revert n m. induction s as [|c s IH]; intros n m H.
  - destruct n, m; reflexivity.
  - simpl in H. apply andb_prop in H. destruct H as [Hc Hs].
    destruct n as [|n]; [destruct m as [|m]|]; simpl; auto.
    rewrite Hc. simpl. auto.
Qed.

Lemma no_space_two_digits n : no_space (Py.two_digits n) = true.
Proof.
  unfold Py.two_digits. destruct (n <? 10); simpl; apply no_space_str_int.
Qed.

Lemma no_space_format_g12 digits decpt :
  no_space (Py.format_g12 digits decpt) = true.
Proof.
  unfold Py.format_g12.
  match goal with |- context [String.length ?d] => set (ds := d) end.
  assert (Hds : no_space ds = true).
  { subst ds.
    pose proof (no_space_strip_zeros _ (no_space_str_int digits)) as H.
    destruct (Py.strip_zeros (Py.str_int digits)); [reflexivity|exact H]. }
  clearbody ds.
  destruct ((decpt <=? -4) || (11 <? decpt)).
  - rewrite !no_space_app, no_space_two_digits.
    replace (no_space (if decpt - 1 <? 0 then "-" else "+")) with true
      by (destruct (decpt - 1 <? 0); reflexivity).
    destruct ds as [|c [|a r]]; cbn [no_space] in *; [reflexivity| |].
    + rewrite Hds. reflexivity.
    + apply andb_prop in Hds. destruct Hds as [Hc Hr].
      rewrite Hc, Hr. reflexivity.
  - destruct (decpt <=? 0).
    + change ("0." ++ Py.zeros (Z.to_nat (- decpt)) ++ ds)
        with (String "0" (String "." (Py.zeros (Z.to_nat (- decpt)) ++ ds))).
      cbn [no_space]. rewrite no_space_app, no_space_zeros, Hds. reflexivity.
    + destruct (Z.of_nat (String.length ds) <=? decpt).
      * rewrite !no_space_app, no_space_zeros, Hds. reflexivity.
      * rewrite !no_space_app, !no_space_substring by exact Hds. reflexivity.
Qed.

Lemma no_space_str_float f : no_space (Py.str_float f) = true.
Proof.
  destruct f as [neg|neg| |neg m e];
    [destruct neg; reflexivity|destruct neg; reflexivity|reflexivity|].
  unfold Py.str_float.
  destruct (if 0 <=? e then (Z.pos m * 2 ^ e, 1) else (Z.pos m, 2 ^ (- e)))
    as [num den].
  destruct (Py.significant_digits 12 num den) as [digits decpt].
  rewrite no_space_app, no_space_format_g12. destruct neg; reflexivity.
Qed.

Lemma has_mark_app a b : has_mark (a ++ b) = has_mark a || has_mark b.
Proof.
  induction a as [|c a IH]; simpl; [reflexivity|].
  rewrite IH, !orb_assoc. reflexivity.
Qed.

Lemma has_mark_format_g12 digits decpt :
  has_mark (Py.format_g12 digits decpt) = true.
Proof.
  unfold Py.format_g12.
  destruct ((decpt <=? -4) || (11 <? decpt)).
  - rewrite has_mark_app.
    change (has_mark ("e" ++ ?s)) with true. apply orb_true_r.
  - destruct (decpt <=? 0); [reflexivity|].
    destruct (_ <=? decpt); rewrite !has_mark_app.
    + change (has_mark ".0") with true. rewrite !orb_true_r. reflexivity.
    + change (has_mark ("." ++ ?s)) with true.
      rewrite orb_true_l, orb_true_r. reflexivity.
Qed.

Lemma digits_has_mark s : has_mark s = true -> Py.digits s = None.
Proof.
  intros H. unfold Py.digits, NilZero.uint_of_string.
  assert (E : NilEmpty.uint_of_string s = None).
  { induction s as [|c s IH]; [discriminate|].
    cbn [has_mark] in H. cbn [NilEmpty.uint_of_string].
    destruct (NilEmpty.uint_of_string s) as [d|]; [|reflexivity].
    destruct (Py.is_dot c || Py.is_e c) eqn:Hc.
    - unfold Py.is_dot, Py.is_e in Hc.
      destruct (Ascii.eqb_spec c ".") as [->|_]; [reflexivity|].
      destruct (Ascii.eqb_spec c "e") as [->|_]; [reflexivity|].
      destruct (Ascii.eqb_spec c "E") as [->|_]; [reflexivity|discriminate].
    - discriminate (IH H). }
  rewrite E. destruct s; reflexivity.
Qed.

Lemma int_positive s :
  no_space s = true -> Py.int (String "+" s) = Py.digits s.
Proof.
  intros Hs. unfold Py.int.
  rewrite strip_no_space by (simpl; exact Hs).
  rewrite (lstrip_no_space _ Hs). reflexivity.
Qed.

(** A text with a decimal point or an exponent letter is no integer. *)
Lemma int_has_mark s :
  no_space s = true -> has_mark s = true -> Py.int s = None.
Proof.
  destruct s as [|c s]; [discriminate|]. intros Hs Hm.
  destruct (Ascii.eqb_spec c "+") as [->|Hp].
  - simpl in Hs. rewrite (int_positive _ Hs). apply digits_has_mark, Hm.
  - destruct (Ascii.eqb_spec c "-") as [->|Hn].
    + simpl in Hs. rewrite (int_negative _ Hs).
      rewrite (digits_has_mark s Hm). reflexivity.
    + rewrite (int_unsigned _ _ Hs); [apply digits_has_mark, Hm| |];
        apply Ascii.eqb_neq; assumption.
Qed.

Lemma has_mark_str_float f :
  has_mark (Py.str_float f) = true \/ Py.int (Py.str_float f) = None.
Proof.
  destruct f as [neg|neg| |neg m e];
    [destruct neg; auto|destruct neg; auto|auto|].
  unfold Py.str_float.
  destruct (if 0 <=? e then (Z.pos m * 2 ^ e, 1) else (Z.pos m, 2 ^ (- e)))
    as [num den].
  destruct (Py.significant_digits 12 num den) as [digits decpt].
  left. rewrite has_mark_app, has_mark_format_g12. apply orb_true_r.
Qed.

(** The string form of a float is coerced by [float], never by [int]. *)
Lemma coerced_str_float f :
  coerced (Py.str_float f)
  = match Py.float (Py.str_float f) with
    | Some g => PyFloat g
    | None => PyStr (Py.str_float f)
    end.
Proof.
  unfold coerced. rewrite (strip_no_space _ (no_space_str_float f)).
  assert (E : Py.int (Py.str_float f) = None).
  { destruct (has_mark_str_float f) as [H|H]; [|exact H].
    apply int_has_mark; [apply no_space_str_float|exact H]. }
  rewrite E. reflexivity.
Qed.

(** C8, amended: re-coercing the string form of the coerced value yields
    an equal value, [atomize(str(atomize(x))) == atomize(x)], exactly when
    the coerced value is an integer, a string, or a float [f] that the
    twelve significant digits of its string form give back,
    [float(str(f)) == f].  The numbers of the climate chart in the source
    are such floats and integers. *)
Theorem recoerce_exactly (x : string) :
  (recoerced_equal x = true <->
   is_int_or_str (coerced x) = true \/
   exists f, coerced x = PyFloat f /\ str_reads_back f = true) /\
  forallb recoerced_equal
    ["46.2"; "56.9"; "4.5"; "48.1"; "60.2"; "4.61"; "49.1"; "62.9"; "3.26";
     "49.9"; "64.3"; "1.46"; "51.6"; "65.6"; "0.7"; "53.3"; "67.9"; "0.16";
     "54.6"; "68.2"; "0"; "55.6"; "69.4"; "0.06"; "55.7"; "71.3"; "0.21";
     "54.3"; "70.4"; "1.13"; "50.7"; "63.2"; "3.16"; "46.7"; "57.3"; "4.56"]
  = true.
Proof.
  split; [|vm_compute; reflexivity].
  unfold recoerced_equal.
  rewrite (atomize_coerced x).
  destruct (coerced x) as [|n|f|s|d] eqn:E; cbn [str is_int_or_str].
  - split; [discriminate|]. intros [H|[f [H _]]]; discriminate.
  - rewrite (atomize_coerced (Py.str_int n)), coerced_str_int.
    split; [auto|]. intros _. unfold py_eq. simpl. apply number_eqb_of_Z.
  - rewrite (atomize_coerced (Py.str_float f)), coerced_str_float.
    unfold str_reads_back. split.
    + intros H. right. exists f. split; [reflexivity|].
      destruct (Py.float (Py.str_float f)); [exact H|discriminate].
    + intros [H|[g [[= <-] H]]]; [discriminate|].
      destruct (Py.float (Py.str_float f)); [exact H|discriminate].
  - rewrite (atomize_coerced s), (coerced_PyStr x s E).
    split; [auto|]. intros _. unfold py_eq. simpl. apply String.eqb_refl.
  - rewrite atomize_coerced.
    split; [|intros [H|[f [H _]]]; discriminate].
    unfold py_eq. destruct (comparand (coerced EmptyString)) as [[?|?]|];
      discriminate.
Qed.

(** C8 as stated fails on floats: the text [0.1234567890123] coerces to a
    float whose string form is [0.123456789012], which coerces to another
    float; and [nan] coerces to the float nan, which is not equal to
    itself. *)
Lemma recoerce_float_differs :
  atomize "0.1234567890123"
    = Ok (PyFloat (S754_finite false 8895999183874436 (-56))) /\
  str (PyFloat (S754_finite false 8895999183874436 (-56))) = "0.123456789012" /\
  atomize "0.123456789012"
    = Ok (PyFloat (S754_finite false 8895999183852818 (-56))) /\
  recoerced_equal "0.1234567890123" = false /\
  recoerced_equal "nan" = false.
Proof. vm_compute. repeat split. Qed.

(** ** The lexer *)

Lemma scan_step s :
  scan s = match next_lexeme s with
           | Some (k, m, rest) => cons_fst (k, m) (scan rest)
           | None => ([], s)
           end.
Proof.
  funelim (scan s).
  - rewrite e. reflexivity.
  - rewrite e. reflexivity.
Qed.

Lemma append_assoc (a b c : string) : (a ++ b) ++ c = a ++ (b ++ c).
Proof. induction a; simpl; congruence. Qed.

Lemma scan_covers s : texts (fst (scan s)) ++ snd (scan s) = s.
Proof.
  funelim (scan s).
  - simpl. rewrite append_assoc.
    match goal with IH : texts _ ++ _ = _ |- _ => rewrite IH end.
    symmetry. apply (next_lexeme_app _ _ _ _ e).
  - reflexivity.
Qed.

Lemma atom_char_other c :
  c <> "{"%char -> c <> "}"%char -> c <> "="%char -> c <> "|"%char ->
  atom_char c = true.
Proof.
  intros H1 H2 H3 H4. unfold atom_char.
  apply Ascii.eqb_neq in H1, H2, H3, H4.
  rewrite H1, H2, H3, H4. reflexivity.
Qed.

(** Scanning stops only at the end of the text or at a lone brace. *)
Lemma next_lexeme_None s :
  next_lexeme s = None -> s = EmptyString \/ lone_brace s = true.
Proof.
  destruct s as [|c s]; [left; reflexivity|]. intros H. right.
  unfold next_lexeme, lexicon, first_match in H.
  destruct (ascii_dec c "{") as [->|H1].
  { destruct s as [|c' s]; [reflexivity|].
    unfold lone_brace.
    destruct (Ascii.eqb_spec "{" c') as [E|E]; [|reflexivity].
    subst c'. simpl in H. discriminate. }
  destruct (ascii_dec c "}") as [->|H2].
  { destruct s as [|c' s]; [reflexivity|].
    unfold lone_brace.
    destruct (Ascii.eqb_spec "}" c') as [E|E]; [|reflexivity].
    subst c'. simpl in H. discriminate. }
  exfalso.
  assert (L1 : literal "{{" (String c s) = None).
  { cbn [literal]. destruct (Ascii.eqb_spec "{" c); [congruence|reflexivity]. }
  assert (L2 : literal "}}" (String c s) = None).
  { cbn [literal]. destruct (Ascii.eqb_spec "}" c); [congruence|reflexivity]. }
  rewrite L1, L2 in H.
  destruct (ascii_dec c "=") as [->|H3]; [vm_compute in H; discriminate|].
  destruct (ascii_dec c "|") as [->|H4]; [vm_compute in H; discriminate|].
  pose proof (atom_char_other c H1 H2 H3 H4) as Ha.
  unfold atom_run in H. cbn [span] in H. rewrite Ha in H.
  destruct (span atom_char s); discriminate.
Qed.

Lemma scan_stops s :
  snd (scan s) = EmptyString \/ lone_brace (snd (scan s)) = true.
Proof.
  funelim (scan s).
  - simpl. assumption.
  - simpl. apply next_lexeme_None. assumption.
Qed.

Lemma actions_total lexemes :
  exists tokens,
    actions lexemes = Ok tokens /\
    map name tokens = map (fun l => Some (fst l)) lexemes.
Proof.
  induction lexemes as [|[k t] rest [ts [E1 E2]]]; [exists []; split; reflexivity|].
  simpl. rewrite E1.
  destruct k; simpl;
    try (eexists; split; [reflexivity|simpl; rewrite E2; reflexivity]).
  rewrite (atomize_coerced t).
  eexists; split; [reflexivity|simpl; rewrite E2; reflexivity].
Qed.

Lemma lex_scan_total s : exists tokens, lex_scan s = Ok (tokens, snd (scan s)).
Proof.
  destruct (actions_total (fst (scan s))) as [tokens [E _]].
  exists tokens. unfold lex_scan. destruct (scan s) as [lexemes remainder].
  simpl in *. rewrite E. reflexivity.
Qed.

(** C2, amended: for every input the lexer produces a finite, in-order
    token sequence, one token per matched span, that covers the prefix of
    the input up to the point where scanning stops: the spans followed by
    the unscanned remainder make up the input, and the remainder is empty
    unless it starts with a lone brace (a brace not followed by a second one
    of its kind).  There scanning stops without an error and [parse], which
    takes only the tokens, does not see the rest of the input. *)
Theorem lex_covers_scanned_prefix (s : string) :
  exists tokens,
    lex_scan s = Ok (tokens, snd (scan s)) /\
    map name tokens = map (fun l => Some (fst l)) (fst (scan s)) /\
    texts (fst (scan s)) ++ snd (scan s) = s /\
    (snd (scan s) = EmptyString \/ lone_brace (snd (scan s)) = true).
Proof.
  destruct (actions_total (fst (scan s))) as [tokens [E1 E2]].
  exists tokens. unfold lex_scan.
  destruct (scan s) as [lexemes remainder] eqn:E. simpl in *.
  rewrite E1. repeat split; try assumption.
  - pose proof (scan_covers s) as H. rewrite E in H. exact H.
  - pose proof (scan_stops s) as H. rewrite E in H. exact H.
Qed.

(** C2 as stated fails: on [a{b] the lexer yields the single token for
    [a] and leaves [{b] unscanned, and [parse] returns on the tokens
    alone. *)
Lemma lex_drops_after_lone_brace :
  lex_scan "a{b" = Ok ([mkToken (Some ATOM) (PyStr "a")], "{b") /\
  parse "a{b" = parse "a" /\
  lex_scan "{{t|a}b}}"
    = Ok ([mkToken (Some BEGIN) (PyStr "{{"); mkToken (Some ATOM) (PyStr "t");
           mkToken (Some PARAMETER) (PyStr "|");
           mkToken (Some ATOM) (PyStr "a")], "}b}}").
Proof. vm_compute. repeat split. Qed.

(** ** Rules for parser functions *)

Lemma triple_bind {A B} (P : TokenStream -> Prop) (c : M A) (k : A -> M B)
  (Q : result A -> TokenStream -> Prop) (R : result B -> TokenStream -> Prop) :
  triple P c Q ->
  (forall a, triple (Q (Ok a)) (k a) R) ->
  (forall e ts, Q (Raise e) ts -> R (Raise e) ts) ->
  (forall ts, Q OutOfFuel ts -> R OutOfFuel ts) ->
  triple P (bind c k) R.
Proof.
  intros Hc Hk He Ho ts HP. unfold bind. specialize (Hc ts HP).
  destruct (c ts) as [[a|e|] ts']; simpl in *.
  - apply Hk. assumption.
  - apply He. assumption.
  - apply Ho. assumption.
Qed.

Lemma triple_weaken {A} (P P' : TokenStream -> Prop) (c : M A)
  (Q Q' : result A -> TokenStream -> Prop) :
  triple P' c Q' ->
  (forall ts, P ts -> P' ts) ->
  (forall r ts, Q' r ts -> Q r ts) ->
  triple P c Q.
Proof. intros H HP HQ ts Hts. apply HQ, H, HP, Hts. Qed.

Lemma triple_ret {A} (P : TokenStream -> Prop) (a : A)
  (Q : result A -> TokenStream -> Prop) :
  (forall ts, P ts -> Q (Ok a) ts) -> triple P (ret a) Q.
Proof. intros H ts Hts. apply H, Hts. Qed.

Lemma triple_lift {A} (P : TokenStream -> Prop) (r : result A)
  (Q : result A -> TokenStream -> Prop) :
  (forall ts, P ts -> Q r ts) -> triple P (lift r) Q.
Proof. intros H ts Hts. apply H, Hts. Qed.

Lemma triple_raise {A} (P : TokenStream -> Prop) (e : exn)
  (Q : result A -> TokenStream -> Prop) :
  (forall ts, P ts -> Q (Raise e) ts) -> triple P (raise e) Q.
Proof. intros H ts Hts. apply H, Hts. Qed.

Lemma keeps_bind {A B} (I : TokenStream -> Prop) (c : M A) (k : A -> M B) :
  keeps I c -> (forall a, keeps I (k a)) -> keeps I (bind c k).
Proof.
  intros Hc Hk. unfold keeps.
  apply triple_bind with (Q := fun _ => I); auto.
Qed.

Lemma keeps_pure {A} (I : TokenStream -> Prop) (r : result A) :
  keeps I (lift r).
Proof. intros ts H. exact H. Qed.

(** [advance] empties the pushback slot and overwrites nothing. *)
Lemma advance_spec ts :
  exists t ts',
    advance ts = (Ok t, ts') /\ pushed ts' = None /\ lost ts' = lost ts.
Proof.
  unfold advance, next. destruct ts as [it [p|] l]; simpl.
  - eauto.
  - destruct it as [|t rest]; simpl; eauto.
Qed.

(** ** The pushback slot *)

Section Pushback.

Variable L : list Token.

(** After [advance] the slot is empty, so the assignment to
    [tokens.pushed] that follows it overwrites nothing. *)
Lemma advance_then_keeps {A} (k : Token -> M A) :
  (forall t, triple (fun ts => lost ts = L /\ pushed ts = None) (k t)
               (fun _ => (lost_is L))) ->
  keeps (lost_is L) (bind advance k).
Proof.
  intros Hk ts Hts. unfold bind.
  destruct (advance_spec ts) as [t [ts' [E [Hp Hl]]]]. rewrite E.
  apply Hk. split; [rewrite Hl; exact Hts | exact Hp].
Qed.

Lemma push_then_keeps {A} (t : Token) (k : M A) :
  keeps (lost_is L) k ->
  triple (fun ts => lost ts = L /\ pushed ts = None) (bind (push t) (fun _ => k))
    (fun _ => (lost_is L)).
Proof.
  intros Hk ts [Hl Hp]. unfold bind, push. simpl.
  apply Hk. unfold lost_is, set_pushed. simpl. rewrite Hp. exact Hl.
Qed.

Lemma keeps_clean {A} (k : M A) :
  keeps (lost_is L) k ->
  triple (fun ts => lost ts = L /\ pushed ts = None) k (fun _ => (lost_is L)).
Proof. intros Hk ts [Hl _]. apply Hk. exact Hl. Qed.

Lemma keeps_ret {A} (a : A) : keeps (lost_is L) (ret a).
Proof. intros ts H. exact H. Qed.

Lemma keeps_raise {A} (e : exn) : keeps (lost_is L) (@raise A e).
Proof. intros ts H. exact H. Qed.

Lemma keeps_out_of_fuel {A} : keeps (lost_is L) (@out_of_fuel A).
Proof. intros ts H. exact H. Qed.

Lemma match_atom_keeps : keeps (lost_is L) match_atom.
Proof.
  unfold match_atom. apply advance_then_keeps. intros t.
  destruct (negb (is_kind ATOM t)).
  - apply push_then_keeps, keeps_ret.
  - apply keeps_clean, keeps_ret.
Qed.

Lemma match_end_keeps : keeps (lost_is L) match_end.
Proof.
  unfold match_end. apply advance_then_keeps. intros t.
  apply keeps_clean. destruct (is_kind END t); [apply keeps_ret|apply keeps_raise].
Qed.

Lemma next_idx_keeps ic : keeps (lost_is L) (next_idx ic).
Proof. destruct ic; [apply keeps_ret|apply keeps_raise]. Qed.

Lemma parser_keeps fuel :
  keeps (lost_is L) (match_template fuel) /\
  forall pairs ic, keeps (lost_is L) (match_parameters fuel pairs ic).
Proof.
  induction fuel as [|fuel [IHt IHp]].
  - split; [|intros pairs ic]; apply keeps_out_of_fuel.
  - split.
    + cbn [match_template]. apply advance_then_keeps. intros t.
      destruct (negb (is_kind BEGIN t)).
      * apply push_then_keeps, keeps_ret.
      * apply keeps_clean.
        apply keeps_bind; [apply match_atom_keeps|]. intros nm.
        apply keeps_bind.
        { destruct (is_None nm); [|apply keeps_ret].
          apply keeps_bind; [apply IHt|]. intros d. apply keeps_ret. }
        intros nm'. apply keeps_bind; [apply IHp|]. intros ps.
        apply keeps_bind; [apply match_end_keeps|]. intros _. apply keeps_ret.
    + intros pairs ic. cbn [match_parameters].
      apply advance_then_keeps. intros t.
      destruct (name t) as [[| | | |]|].
      * apply push_then_keeps.
        apply keeps_bind; [apply next_idx_keeps|]. intros i.
        apply keeps_bind; [apply IHt|]. intros d.
        apply keeps_bind; [apply keeps_pure|]. intros ps. apply IHp.
      * apply push_then_keeps, keeps_ret.
      * apply keeps_clean.
        apply keeps_bind; [apply next_idx_keeps|]. intros i.
        apply keeps_bind; [apply keeps_pure|]. intros ps. apply IHp.
      * apply keeps_clean, IHp.
      * apply keeps_clean.
        apply keeps_bind; [apply keeps_pure|]. intros ps. apply IHp.
      * apply push_then_keeps, keeps_ret.
Qed.

End Pushback.

(** C9: for every input, throughout a run of [parse] every assignment to
    the pushback slot finds the slot empty: no pending token is ever
    overwritten, so the stream ends with no lost token. *)
Theorem pushback_never_overwrites (s : string) :
  lost (snd (parse_stream s)) = [].
Proof.
  unfold parse_stream. destruct (lex_scan s) as [[tokens remainder]|e|];
    try reflexivity.
  apply (proj1 (parser_keeps [] (call_bound tokens))). reflexivity.
Qed.

(** ** Inputs that do not start with a template *)

Lemma call_bound_S tokens : call_bound tokens = S (4 * List.length tokens).
Proof. unfold call_bound. lia. Qed.

(** C4: for every input whose first token is not [BEGIN] (the empty token
    sequence included), [parse] yields the empty node and
    [TemplateReference.from_string] fails: subscripting the empty node
    raises [KeyError], the error by which the code reports that no template
    was found; no reference is returned. *)
Theorem no_leading_template (s : string) :
  starts_with_BEGIN s = false ->
  parse s = Ok EmptyDict /\ from_string s = Raise KeyError.
Proof.
  intros H.
  assert (Hp : parse s = Ok EmptyDict).
  { unfold starts_with_BEGIN in H. unfold parse, parse_stream.
    destruct (lex_scan_total s) as [tokens E]. rewrite E in *.
    rewrite call_bound_S. destruct tokens as [|t rest].
    - reflexivity.
    - cbn [match_template]. unfold bind, advance, next, new_TokenStream.
      simpl. rewrite H. reflexivity. }
  split; [exact Hp|]. unfold from_string. rewrite Hp. reflexivity.
Qed.

Lemma no_leading_template_witness :
  parse "plain text" = Ok EmptyDict /\ from_string "plain text" = Raise KeyError.
Proof. apply no_leading_template. reflexivity. Defined.

(** ** Worked inputs *)

(** C5: [{{box|first|x=1|second}}] yields the name [box], the args
    [first] and [second] in order and the kwargs mapping [x] to the
    integer 1; [first] and [second] remain strings. *)
Theorem mixed_parameters :
  from_string "{{box|first|x=1|second}}"
  = Ok (TemplateReference (PyStr "box") [PyStr "first"; PyStr "second"]
          [(PyStr "x", PyInt 1)]).
Proof. vm_compute. reflexivity. Qed.

(** C10: the input [{{{{a}}b}}] is lexically valid (nothing is left
    unscanned), and on it the parameter loop meets the value token [b]
    before any PARAMETER token has bound [idx_cycle]: [parse] raises
    [UnboundLocalError], neither returning a tree nor failing in
    [match_end]. *)
Theorem value_before_first_parameter :
  (exists tokens, lex_scan "{{{{a}}b}}" = Ok (tokens, EmptyString)) /\
  parse "{{{{a}}b}}" = Raise UnboundLocalError.
Proof.
  split; [eexists|]; vm_compute; reflexivity.
Qed.

(** The parameter loop entered with [idx_cycle] unbound raises
    [UnboundLocalError] on a first token that is [ATOM] or [BEGIN]. *)
Lemma unbound_idx_cycle fuel pairs t rest l :
  is_kind ATOM t || is_kind BEGIN t = true ->
  fst (match_parameters (S fuel) pairs None (mkStream (t :: rest) None l))
  = Raise UnboundLocalError.
Proof.
  unfold is_kind. cbn [match_parameters]. unfold bind, advance, next. simpl.
  destruct (name t) as [[| | | |]|]; simpl; try discriminate; reflexivity.
Qed.

(** C3 at the unterminated input [{{a=b]: the value [b] reaches the
    parameter loop before any PARAMETER token, and [parse] raises
    [UnboundLocalError] instead of the [AssertionError] of [match_end];
    on [{{cite|a] it is [match_end] that fails. *)
Theorem unterminated_inputs :
  parse "{{a=b" = Raise UnboundLocalError /\
  parse "{{cite|a" = Raise AssertionError.
Proof. split; vm_compute; reflexivity. Qed.

(** C1 as stated fails: in [{{t||a}}] a PARAMETER token is followed by a
    PARAMETER token, and the node has the single entry for [a]. *)
Lemma empty_parameter_makes_no_entry :
  lex_scan "{{t||a}}"
    = Ok ([mkToken (Some BEGIN) (PyStr "{{"); mkToken (Some ATOM) (PyStr "t");
           mkToken (Some PARAMETER) (PyStr "|");
           mkToken (Some PARAMETER) (PyStr "|");
           mkToken (Some ATOM) (PyStr "a"); mkToken (Some END) (PyStr "}}")],
          EmptyString) /\
  parse "{{t||a}}" = Ok (Template (PyStr "t") [Arg (PyStr "a")]) /\
  parse "{{t||a}}" = parse "{{t|a}}".
Proof. repeat split; vm_compute; reflexivity. Qed.

(** ** Entries of the parameter list *)

Lemma filled_template_Template nm parameters :
  filled_template (Template nm parameters)
  = filled_obj nm && forallb filled_param parameters.
Proof.
  reflexivity.
Qed.

Lemma classify_filled pair :
  filled_pair pair = true -> filled_param (classify pair) = true.
Proof.
  destruct pair as [a b]. unfold filled_pair, classify. simpl.
  intros H. apply andb_prop in H. destruct H as [H Hb].
  apply andb_prop in H. destruct H as [Ha Hfa].
  destruct (is_None b) eqn:Eb; simpl; rewrite ?Eb, Ha, Hfa, ?Hb; reflexivity.
Qed.

Lemma set_last_slot1_filled v pairs pairs' :
  forallb filled_pair pairs = true -> filled_obj v = true ->
  set_last_slot1 v pairs = Some pairs' ->
  forallb filled_pair pairs' = true.
Proof.
  revert pairs'. induction pairs as [|p rest IH]; intros pairs' Hp Hv; simpl.
  - discriminate.
  - simpl in Hp. apply andb_prop in Hp. destruct Hp as [Hp Hrest].
    destruct rest as [|q rest'].
    + intros [= <-]. simpl. unfold filled_pair in *. simpl.
      apply andb_prop in Hp. destruct Hp as [Hp _]. rewrite Hp, Hv. reflexivity.
    + destruct (set_last_slot1 v (q :: rest')) as [r|] eqn:E; [|discriminate].
      intros [= <-]. simpl. rewrite Hp. simpl. apply (IH r Hrest Hv eq_refl).
Qed.

(** One [send] keeps the pairs filled: a [None] value is dropped, and a
    value opens a pair only by being written to slot 0. *)
Lemma send_filled idx v pairs pairs' :
  forallb filled_pair pairs = true -> filled_obj v = true ->
  send idx v pairs = Ok pairs' ->
  forallb filled_pair pairs' = true.
Proof.
  intros Hp Hv. unfold send. destruct (is_None v) eqn:Ev.
  - intros [= <-]. exact Hp.
  - destruct idx as [|i].
    + intros [= <-]. rewrite forallb_app, Hp. simpl.
      unfold filled_pair. simpl. rewrite Ev, Hv. reflexivity.
    + destruct (set_last_slot1 v pairs) as [r|] eqn:E; [|discriminate].
      intros [= <-]. exact (set_last_slot1_filled v pairs r Hp Hv E).
Qed.

Lemma atomic_filled t : atomic t = true -> filled_obj (value t) = true.
Proof. unfold atomic. destruct (value t); simpl; congruence. Qed.

Lemma advance_atomic {A} (k : Token -> M A) (Q : result A -> TokenStream -> Prop) :
  (forall t, atomic t = true -> triple atomic_stream (k t) Q) ->
  triple atomic_stream (bind advance k) Q.
Proof.
  intros Hk ts [Hi Hp]. unfold bind, advance, next.
  destruct ts as [it [p|] l]; simpl in *.
  - apply (Hk p Hp). split; simpl; auto.
  - destruct it as [|t rest]; simpl in *.
    + apply (Hk end_of_stream eq_refl). split; simpl; auto.
    + apply andb_prop in Hi. destruct Hi as [Ht Hrest].
      apply (Hk t Ht). split; simpl; auto.
Qed.

Lemma push_atomic {A} (t : Token) (k : M A) (Q : result A -> TokenStream -> Prop) :
  atomic t = true ->
  triple atomic_stream k Q ->
  triple atomic_stream (bind (push t) (fun _ => k)) Q.
Proof.
  intros Ht Hk ts [Hi Hp]. unfold bind, push. simpl.
  apply Hk. split; simpl; auto.
Qed.

Lemma returns_bind {A B} (c : M A) (k : A -> M B) (good : A -> Prop)
  (good' : B -> Prop) :
  triple atomic_stream c (returns good) ->
  (forall a, good a -> triple atomic_stream (k a) (returns good')) ->
  triple atomic_stream (bind c k) (returns good').
Proof.
  intros Hc Hk.
  apply triple_bind with (Q := returns good); [exact Hc|..].
  - intros a ts [Hts Ha]. apply Hk; [apply Ha; reflexivity|exact Hts].
  - intros e ts [Hts _]. split; [exact Hts|discriminate].
  - intros ts [Hts _]. split; [exact Hts|discriminate].
Qed.

Lemma returns_ret {A} (a : A) (good : A -> Prop) :
  good a -> triple atomic_stream (ret a) (returns good).
Proof. intros H ts Hts. split; [exact Hts|]. intros a' [= <-]. exact H. Qed.

Lemma returns_fail {A} (r : result A) (good : A -> Prop) :
  (forall a, r <> Ok a) -> triple atomic_stream (lift r) (returns good).
Proof.
  intros H ts Hts. split; [exact Hts|]. intros a E. destruct (H a E).
Qed.

Lemma returns_lift {A} (r : result A) (good : A -> Prop) :
  (forall a, r = Ok a -> good a) -> triple atomic_stream (lift r) (returns good).
Proof. intros H ts Hts. split; [exact Hts|exact H]. Qed.

Lemma match_atom_returns :
  triple atomic_stream match_atom (returns (fun v => filled_obj v = true)).
Proof.
  unfold match_atom. apply advance_atomic. intros t Ht.
  destruct (negb (is_kind ATOM t)).
  - apply push_atomic; [exact Ht|]. apply returns_ret. reflexivity.
  - apply returns_ret. apply atomic_filled, Ht.
Qed.

Lemma match_end_returns :
  triple atomic_stream match_end (returns (fun _ => True)).
Proof.
  unfold match_end. apply advance_atomic. intros t Ht.
  destruct (is_kind END t); [apply returns_ret; exact I|].
  apply (returns_fail (Raise AssertionError)). discriminate.
Qed.

Lemma next_idx_returns ic :
  triple atomic_stream (next_idx ic) (returns (fun _ => True)).
Proof.
  destruct ic; [apply returns_ret; exact I|].
  apply (returns_fail (Raise UnboundLocalError)). discriminate.
Qed.

Lemma parser_returns_filled fuel :
  triple atomic_stream (match_template fuel)
    (returns (fun d => filled_template d = true)) /\
  forall pairs ic,
    forallb filled_pair pairs = true ->
    triple atomic_stream (match_parameters fuel pairs ic)
      (returns (fun ps => forallb filled_param ps = true)).
Proof.
  induction fuel as [|fuel [IHt IHp]].
  - split; [|intros pairs ic _]; apply (returns_fail OutOfFuel); discriminate.
  - split.
    + cbn [match_template]. apply advance_atomic. intros t Ht.
      destruct (negb (is_kind BEGIN t)).
      * apply push_atomic; [exact Ht|]. apply returns_ret. reflexivity.
      * eapply returns_bind; [apply match_atom_returns|]. intros nm Hnm.
        eapply returns_bind with (good := fun v => filled_obj v = true).
        { destruct (is_None nm); [|apply returns_ret; exact Hnm].
          eapply returns_bind; [apply IHt|]. intros d Hd.
          apply returns_ret. exact Hd. }
        intros nm' Hnm'. eapply returns_bind; [apply IHp; reflexivity|].
        intros ps Hps. eapply returns_bind; [apply match_end_returns|].
        intros _ _. apply returns_ret.
        rewrite filled_template_Template, Hnm', Hps. reflexivity.
    + intros pairs ic Hpairs. cbn [match_parameters].
      apply advance_atomic. intros t Ht.
      assert (Hsend : forall idx v, filled_obj v = true ->
                triple atomic_stream (lift (send idx v pairs))
                  (returns (fun ps => forallb filled_pair ps = true))).
      { intros idx v Hv. apply returns_lift. intros ps.
        apply send_filled; assumption. }
      destruct (name t) as [[| | | |]|].
      * apply push_atomic; [exact Ht|].
        eapply returns_bind; [apply next_idx_returns|]. intros i _.
        eapply returns_bind; [apply IHt|]. intros d Hd.
        eapply returns_bind; [apply Hsend; exact Hd|]. intros ps Hps.
        apply IHp, Hps.
      * apply push_atomic; [exact Ht|]. apply returns_ret.
        rewrite forallb_forall in *. intros p Hin.
        apply in_map_iff in Hin. destruct Hin as [pair [<- Hin]].
        apply classify_filled, Hpairs, Hin.
      * eapply returns_bind; [apply next_idx_returns|]. intros i _.
        eapply returns_bind; [apply Hsend, atomic_filled, Ht|].
        intros ps Hps. apply IHp, Hps.
      * apply IHp, Hpairs.
      * eapply returns_bind; [apply Hsend; reflexivity|].
        intros ps Hps. apply IHp, Hps.
      * apply push_atomic; [exact Ht|]. apply returns_ret.
        rewrite forallb_forall in *. intros p Hin.
        apply in_map_iff in Hin. destruct Hin as [pair [<- Hin]].
        apply classify_filled, Hpairs, Hin.
Qed.

Lemma coerced_atomic k x : atomic (mkToken k (coerced x)) = true.
Proof.
  unfold atomic, coerced. simpl.
  destruct (Py.int (Py.strip x)); [reflexivity|].
  destruct (Py.float (Py.strip x)); reflexivity.
Qed.

Lemma actions_atomic lexemes tokens :
  actions lexemes = Ok tokens -> forallb atomic tokens = true.
Proof.
  revert tokens. induction lexemes as [|[k x] rest IH]; intros tokens; simpl.
  - intros [= <-]. reflexivity.
  - destruct (actions rest) as [ts| |]; destruct k; simpl;
      try rewrite (atomize_coerced x);
      try discriminate; intros [= <-]; simpl;
      rewrite ?coerced_atomic; apply (IH ts eq_refl).
Qed.

Lemma lex_scan_atomic s tokens remainder :
  lex_scan s = Ok (tokens, remainder) -> atomic_stream (new_TokenStream tokens).
Proof.
  unfold lex_scan. destruct (scan s) as [lexemes rem].
  destruct (actions lexemes) as [ts| |] eqn:E; try discriminate.
  intros [= <- _]. split; [|exact I]. apply (actions_atomic lexemes ts E).
Qed.


(** ** Keyword entries and the kwargs mapping *)

Lemma number_eqb_eq x y : number_eqb x y = true -> x = y.
Proof.
  destruct x as [|s| |s m e], y as [|s'| |s' m' e']; simpl; try discriminate.
  - intros H. apply eqb_prop in H. congruence.
  - reflexivity.
  - intros H. apply andb_prop in H. destruct H as [H He].
    apply andb_prop in H. destruct H as [Hs Hm].
    apply eqb_prop in Hs. apply Pos.eqb_eq in Hm. apply Z.eqb_eq in He.
    congruence.
Qed.

Lemma py_eq_sym a b : py_eq a b = true -> py_eq b a = true.
Proof.
  unfold py_eq.
  destruct (comparand a) as [[x|s]|], (comparand b) as [[y|t]|];
    try discriminate.
  - intros H. pose proof (number_eqb_eq x y H). subst y. exact H.
  - rewrite String.eqb_sym. auto.
Qed.

Lemma py_eq_trans a b c :
  py_eq a b = true -> py_eq b c = true -> py_eq a c = true.
Proof.
  unfold py_eq.
  destruct (comparand a) as [[x|s]|], (comparand b) as [[y|t]|],
    (comparand c) as [[z|u]|]; try discriminate.
  - intros H1 H2. pose proof (number_eqb_eq x y H1). subst y. exact H2.
  - intros H1 H2. apply String.eqb_eq in H1. subst t. exact H2.
Qed.

Lemma py_eq_not_None a b : py_eq a b = true -> is_None a = false /\ is_None b = false.
Proof.
  unfold py_eq. destruct a, b; simpl; try discriminate; auto.
Qed.

Lemma key_eq_sym a b : key_eq a b = true -> key_eq b a = true.
Proof.
  unfold key_eq. intros H. apply orb_prop in H. destruct H as [H|H].
  - rewrite (py_eq_sym a b H). reflexivity.
  - apply andb_prop in H. destruct H as [-> ->]. apply orb_true_r.
Qed.

Lemma key_eq_trans a b c :
  key_eq a b = true -> key_eq b c = true -> key_eq a c = true.
Proof.
  unfold key_eq. intros H1 H2.
  apply orb_prop in H1. apply orb_prop in H2.
  destruct H1 as [H1|H1], H2 as [H2|H2].
  - rewrite (py_eq_trans a b c H1 H2). reflexivity.
  - apply py_eq_not_None in H1. apply andb_prop in H2.
    destruct H1 as [_ H1], H2 as [H2 _]. congruence.
  - apply py_eq_not_None in H2. apply andb_prop in H1.
    destruct H1 as [_ H1], H2 as [H2 _]. congruence.
  - apply andb_prop in H1. apply andb_prop in H2.
    destruct H1 as [-> _], H2 as [_ ->]. apply orb_true_r.
Qed.

(** Equal keys find the same items. *)
Lemma key_eq_same k' k0 k :
  key_eq k' k0 = true -> key_eq k' k = key_eq k0 k.
Proof.
  intros H. destruct (key_eq k0 k) eqn:E.
  - exact (key_eq_trans k' k0 k H E).
  - destruct (key_eq k' k) eqn:E'; [|reflexivity].
    rewrite (key_eq_trans k0 k' k (key_eq_sym k' k0 H) E') in E. discriminate.
Qed.

Lemma getitem_setitem d k0 v0 k :
  getitem (setitem d k0 v0) k
  = if key_eq k0 k then Some v0 else getitem d k.
Proof.
  induction d as [|[k' v'] d IH]; simpl; [reflexivity|].
  destruct (key_eq k' k0) eqn:E; simpl.
  - rewrite (key_eq_same k' k0 k E). destruct (key_eq k0 k); reflexivity.
  - rewrite IH. destruct (key_eq k' k) eqn:E1; [|reflexivity].
    destruct (key_eq k0 k) eqn:E2; [|reflexivity].
    rewrite (key_eq_trans k' k k0 E1 (key_eq_sym k0 k E2)) in E. discriminate.
Qed.

(** [dict(items)] never fails on hashable keys, and each key maps to the
    value stored last under it. *)
Lemma dict_update_last_wins items :
  forallb (fun kv => hashable (fst kv)) items = true ->
  forall d, exists d',
    dict_update d items = Ok d' /\
    forall k, getitem d' k = match last_value k items with
                             | Some w => Some w
                             | None => getitem d k
                             end.
Proof.
  induction items as [|[k0 v0] rest IH]; intros H d; simpl.
  - exists d. split; reflexivity.
  - simpl in H. apply andb_prop in H. destruct H as [Hk Hrest]. rewrite Hk.
    destruct (IH Hrest (setitem d k0 v0)) as [d' [E Hget]].
    exists d'. split; [exact E|]. intros k. rewrite Hget.
    destruct (last_value k rest); [reflexivity|].
    rewrite getitem_setitem. destruct (key_eq k0 k); reflexivity.
Qed.

(** ** Written templates *)

Local Open Scope list_scope.

Lemma coerced_not_None x : is_None (coerced x) = false.
Proof.
  unfold coerced. destruct (Py.int (Py.strip x)); [reflexivity|].
  destruct (Py.float (Py.strip x)); reflexivity.
Qed.

Lemma coerced_hashable x : hashable (coerced x) = true.
Proof.
  unfold coerced. destruct (Py.int (Py.strip x)); [reflexivity|].
  destruct (Py.float (Py.strip x)); reflexivity.
Qed.

Lemma set_last_slot1_snoc v pairs a b :
  set_last_slot1 v (pairs ++ [(a, b)]) = Some (pairs ++ [(a, v)]).
Proof.
  induction pairs as [|p rest IH]; [reflexivity|].
  change ((p :: rest) ++ [(a, b)]) with (p :: (rest ++ [(a, b)])).
  cbn [set_last_slot1]. rewrite IH.
  destruct (rest ++ [(a, b)]) eqn:E; [|reflexivity].
  destruct rest; discriminate.
Qed.

(** Induction on written values, with the hypothesis for the value of every
    parameter of a template. *)
Lemma written_induction (P : written -> Prop) :
  (forall x, P (Atom x)) ->
  (forall nm ws, Forall (on_value P) ws -> P (Nested nm ws)) ->
  forall w, P w.
Proof.
  intros HA HN. fix IH 1. intros [x|nm ws].
  - apply HA.
  - apply HN. induction ws as [|p ws IHws]; constructor.
    + destruct p as [|v|k v]; simpl; [exact I|apply IH|apply IH].
    + exact IHws.
Qed.

Lemma value_obj_not_None w : is_None (value_obj w) = false.
Proof. destruct w; [apply coerced_not_None|reflexivity]. Qed.

Lemma value_tokens_not_nil w : (1 <= List.length (value_tokens w))%nat.
Proof. destruct w; simpl; lia. Qed.

(** The steps of the parameter loop on the tokens of a written template. *)
Lemma step_PARAMETER fuel pairs ic rest l :
  match_parameters (S fuel) pairs ic (mkStream (parameter_token :: rest) None l)
  = match_parameters fuel pairs (Some 0%nat) (mkStream rest None l).
Proof. reflexivity. Qed.

Lemma step_key fuel pairs k rest l :
  match_parameters (S (S fuel)) pairs (Some 0%nat)
    (mkStream (atom_token k :: equal_token :: rest) None l)
  = match_parameters fuel (pairs ++ [(coerced k, PyNone)]) (Some 1%nat)
      (mkStream rest None l).
Proof.
  cbn [match_parameters]. unfold bind, advance, next, lift, next_idx, ret.
  cbn [pushed iterator lost name atom_token equal_token value fst snd].
  unfold send at 1. rewrite coerced_not_None. reflexivity.
Qed.

Lemma step_END fuel pairs ic rest l :
  match_parameters (S fuel) pairs ic (mkStream (end_token :: rest) None l)
  = (Ok (map classify pairs), mkStream rest (Some end_token) l).
Proof. reflexivity. Qed.

Lemma send_slot0 v pairs :
  is_None v = false -> send 0 v pairs = Ok (pairs ++ [(v, PyNone)]).
Proof. intros H. unfold send. rewrite H. reflexivity. Qed.

Lemma send_slot1 v pairs k :
  is_None v = false ->
  send 1 v (pairs ++ [(k, PyNone)]) = Ok (pairs ++ [(k, v)]).
Proof.
  intros H. unfold send. rewrite H, set_last_slot1_snoc. reflexivity.
Qed.

(** The parameter loop on the parameters of a written template, up to the
    END token: the pairs of the parameters, in order; an empty parameter
    adds none. *)
Lemma parameters_loop ws :
  Forall (on_value parsed_in_loop) ws ->
  forall fuel pairs ic rest l,
    (List.length (flat_map parameter_tokens ws) < fuel)%nat ->
    match_parameters fuel pairs ic
      (mkStream (flat_map parameter_tokens ws ++ end_token :: rest) None l)
    = (Ok (map classify (pairs ++ flat_map parameter_pairs ws)),
       mkStream rest (Some end_token) l).
Proof.
  induction 1 as [|p ws Hv Hws IH]; intros fuel pairs ic rest l Hfuel.
  - destruct fuel as [|fuel]; [simpl in Hfuel; lia|].
    cbn [flat_map app]. rewrite step_END, List.app_nil_r. reflexivity.
  - cbn [flat_map] in *. rewrite List.length_app in Hfuel.
    rewrite <- List.app_assoc.
    destruct p as [|v|k v]; cbn [parameter_tokens parameter_pairs on_value
                                 List.length app] in *.
    + destruct fuel as [|fuel]; [lia|].
      rewrite step_PARAMETER. apply IH. lia.
    + pose proof (value_tokens_not_nil v) as Hlen.
      do 2 (destruct fuel as [|fuel]; [lia|]).
      rewrite step_PARAMETER.
      rewrite (Hv fuel 0%nat _ (pairs ++ [(value_obj v, PyNone)]))
        by (try lia; apply send_slot0, value_obj_not_None).
      rewrite IH by lia. rewrite <- List.app_assoc. reflexivity.
    + pose proof (value_tokens_not_nil v) as Hlen.
      do 4 (destruct fuel as [|fuel]; [lia|]).
      rewrite step_PARAMETER, step_key.
      rewrite (Hv fuel 1%nat _ (pairs ++ [(coerced k, value_obj v)]))
        by (try lia; apply send_slot1, value_obj_not_None).
      rewrite IH by lia. rewrite <- List.app_assoc. reflexivity.
Qed.

Lemma classify_parameter_pairs p :
  map classify (parameter_pairs p) = parameter_entries p.
Proof.
  destruct p as [|v|k v]; unfold classify; cbn; [reflexivity|reflexivity|].
  rewrite value_obj_not_None. reflexivity.
Qed.

Lemma classify_written_pairs ws :
  map classify (flat_map parameter_pairs ws) = flat_map parameter_entries ws.
Proof.
  induction ws as [|p ws IH]; [reflexivity|].
  cbn [flat_map]. rewrite List.map_app, classify_parameter_pairs, IH.
  reflexivity.
Qed.

(** [match_template] on a written template, from a stream whose next token
    is its BEGIN token (drawn from the tokens or pushed back). *)
Lemma template_parsed nm ws :
  Forall (on_value parsed_in_loop) ws ->
  forall fuel ts rest l,
    advance ts
    = (Ok begin_token,
       mkStream (atom_token nm :: flat_map parameter_tokens ws
                 ++ end_token :: rest) None l) ->
    (List.length (flat_map parameter_tokens ws) + 3 <= fuel)%nat ->
    match_template fuel ts = (Ok (written_node nm ws), mkStream rest None l).
Proof.
  intros Hws fuel ts rest l Hadv Hfuel.
  destruct fuel as [|fuel]; [lia|].
  cbn [match_template]. unfold bind at 1. rewrite Hadv.
  cbn [is_kind name begin_token kind_eqb negb].
  unfold bind at 1. unfold match_atom. unfold bind at 1. unfold advance at 1.
  cbn [next pushed iterator lost is_kind name atom_token kind_eqb negb ret value].
  unfold bind at 1. rewrite coerced_not_None. unfold ret at 1.
  unfold bind at 1.
  rewrite (parameters_loop ws Hws) by lia.
  unfold bind, match_end, advance, ret. simpl.
  unfold written_node. rewrite classify_written_pairs. reflexivity.
Qed.

(** Every written value is parsed in the parameter loop as the object it
    stands for. *)
Lemma written_parsed w : parsed_in_loop w.
Proof.
  induction w as [x|nm ws IH] using written_induction;
    intros fuel i pairs pairs' rest l Hfuel Hsend.
  - cbn [value_tokens app value_obj] in *.
    cbn [match_parameters]. unfold bind, advance, next, lift, next_idx, ret.
    cbn [pushed iterator lost name atom_token value fst snd].
    rewrite Hsend. reflexivity.
  - cbn [value_tokens value_obj] in *.
    cbn [List.length] in Hfuel. rewrite List.length_app in Hfuel.
    cbn [List.length] in Hfuel.
    cbn [app match_parameters]. unfold bind at 1. unfold advance at 1.
    cbn [next pushed iterator lost name begin_token].
    unfold bind at 1. unfold push at 1. unfold set_pushed.
    cbn [pushed iterator lost].
    unfold bind at 1. unfold next_idx at 1. unfold ret at 1.
    unfold bind at 1.
    rewrite (template_parsed nm ws IH fuel _ rest l).
    + cbn [fst snd]. unfold bind at 1. unfold lift at 1.
      fold (written_node nm ws) in Hsend. rewrite Hsend. reflexivity.
    + unfold advance, next. cbn [pushed iterator lost].
      rewrite <- List.app_assoc. reflexivity.
    + lia.
Qed.

Lemma all_written_parsed ws : Forall (on_value parsed_in_loop) ws.
Proof.
  apply Forall_forall. intros [|v|k v] _; simpl; auto using written_parsed.
Qed.

(** [parse] on the tokens of a written template returns its node, which
    has the entries of the parameters that are not empty. *)
Lemma parse_written_template nm ws :
  parse_tokens (value_tokens (Nested nm ws)) = Ok (written_node nm ws).
Proof.
  unfold parse_tokens.
  rewrite (template_parsed nm ws (all_written_parsed ws))
    with (rest := []) (l := []).
  - reflexivity.
  - reflexivity.
  - cbn [value_tokens]. unfold call_bound.
    cbn [List.length]. rewrite List.length_app. simpl. lia.
Qed.

Lemma written_node_Empty nm ws1 ws2 :
  written_node nm (ws1 ++ Empty :: ws2) = written_node nm (ws1 ++ ws2).
Proof.
  unfold written_node. rewrite !List.flat_map_app. reflexivity.
Qed.

(** C1, amended: an empty parameter makes no entry.  For every written
    template with an empty parameter anywhere among its parameters, [parse]
    returns the node of the template without that parameter, the entries of
    the other parameters in order; and in every node that [parse] returns,
    on any input, every entry at any depth has its slots filled: there is no
    positional entry carrying [None]. *)
Theorem empty_parameter_makes_nothing (s : string) (node : template) :
  parse s = Ok node ->
  filled_template node = true /\
  forall nm ws1 ws2,
    parse_tokens (value_tokens (Nested nm (ws1 ++ Empty :: ws2)))
      = Ok (written_node nm (ws1 ++ ws2)) /\
    parse_tokens (value_tokens (Nested nm (ws1 ++ ws2)))
      = Ok (written_node nm (ws1 ++ ws2)).
Proof.
  intros H. split.
  - unfold parse, parse_stream in H.
    destruct (lex_scan s) as [[tokens remainder]|e|] eqn:E; try discriminate.
    destruct (proj1 (parser_returns_filled (call_bound tokens))
                (new_TokenStream tokens) (lex_scan_atomic s tokens remainder E))
      as [_ Hgood].
    apply Hgood. exact H.
  - intros nm ws1 ws2.
    rewrite !parse_written_template, written_node_Empty. split; reflexivity.
Qed.

Lemma empty_parameter_makes_nothing_witness :
  filled_template (Template (PyStr "t") [Arg (PyStr "a")]) = true /\
  forall nm ws1 ws2,
    parse_tokens (value_tokens (Nested nm (ws1 ++ Empty :: ws2)))
      = Ok (written_node nm (ws1 ++ ws2)) /\
    parse_tokens (value_tokens (Nested nm (ws1 ++ ws2)))
      = Ok (written_node nm (ws1 ++ ws2)).
Proof.
  apply (empty_parameter_makes_nothing "{{t||a}}"). vm_compute. reflexivity.
Defined.

Lemma arg_values_written ws :
  arg_values (flat_map parameter_entries ws) = flat_map parameter_args ws.
Proof. induction ws as [|[|v|k v] ws IH]; simpl; congruence. Qed.

Lemma kwarg_items_written ws :
  kwarg_items (flat_map parameter_entries ws) = flat_map parameter_items ws.
Proof. induction ws as [|[|v|k v] ws IH]; simpl; congruence. Qed.

Lemma written_items_hashable ws :
  forallb (fun kv => hashable (fst kv)) (flat_map parameter_items ws) = true.
Proof.
  induction ws as [|[|v|k v] ws IH]; simpl; [reflexivity|exact IH|exact IH|].
  rewrite coerced_hashable. exact IH.
Qed.

(** ** Termination: the bound on calls is never reached *)

Lemma advance_peek ts :
  exists ts',
    advance ts = (Ok (peek ts), ts') /\ pushed ts' = None /\
    (measure ts' + weight (peek ts) <= measure ts)%nat.
Proof.
  unfold advance, next, peek, measure. destruct ts as [it [p|] l]; simpl.
  - eexists. split; [reflexivity|]. simpl. split; [reflexivity|lia].
  - destruct it as [|t rest]; simpl.
    + eexists. split; [reflexivity|]. simpl. split; [reflexivity|].
      unfold weight. simpl. lia.
    + eexists. split; [reflexivity|]. simpl. split; [reflexivity|].
      unfold weight. destruct (name t); lia.
Qed.

Lemma advance_within {A} n (k : Token -> M A) (Q : result A -> TokenStream -> Prop) :
  (forall t, triple (fun ts => (measure ts + weight t <= n)%nat /\ pushed ts = None)
               (k t) Q) ->
  triple (within n) (bind advance k) Q.
Proof.
  intros Hk ts Hts. unfold bind.
  destruct (advance_peek ts) as [ts' [E [Hp Hm]]]. rewrite E.
  apply Hk. unfold within in Hts. split; [lia|exact Hp].
Qed.

Lemma advance_within_peek {A} n t (k : Token -> M A)
  (Q : result A -> TokenStream -> Prop) :
  triple (fun ts => (measure ts + weight t <= n)%nat /\ pushed ts = None) (k t) Q ->
  triple (fun ts => within n ts /\ peek ts = t) (bind advance k) Q.
Proof.
  intros Hk ts [Hts <-]. unfold bind.
  destruct (advance_peek ts) as [ts' [E [Hp Hm]]]. rewrite E.
  apply Hk. unfold within in Hts. split; [lia|exact Hp].
Qed.

Lemma push_within {A} n t (k : M A) (Q : result A -> TokenStream -> Prop) :
  triple (within n) k Q ->
  triple (fun ts => (measure ts + weight t <= n)%nat /\ pushed ts = None)
    (bind (push t) (fun _ => k)) Q.
Proof.
  intros Hk ts [Hm Hp]. unfold bind, push. simpl. apply Hk.
  unfold within, measure, set_pushed in *. simpl. rewrite Hp in Hm. lia.
Qed.

Lemma finished_bind {A B} (P : TokenStream -> Prop) (c : M A) (k : A -> M B) n :
  triple P c (finished n) ->
  (forall a, triple (within n) (k a) (finished n)) ->
  triple P (bind c k) (finished n).
Proof.
  intros Hc Hk. apply triple_bind with (Q := finished n); [exact Hc|..].
  - intros a ts Hts. apply Hk. apply Hts.
  - intros e ts [_ Hm]. split; [discriminate|exact Hm].
  - intros ts [H _]. congruence.
Qed.

Lemma finished_ret {A} n (a : A) : triple (within n) (ret a) (finished n).
Proof. intros ts H. split; [discriminate|exact H]. Qed.

Lemma finished_raise {A} n e : triple (within n) (@raise A e) (finished n).
Proof. intros ts H. split; [discriminate|exact H]. Qed.

Lemma finished_lift {A} n (r : result A) :
  r <> OutOfFuel -> triple (within n) (lift r) (finished n).
Proof. intros Hr ts H. split; [exact Hr|exact H]. Qed.

(** Binding a result that does not touch the stream. *)
Lemma triple_bind_pure {A B} (P : TokenStream -> Prop) (r : result A)
  (k : A -> M B) (Q : result B -> TokenStream -> Prop) :
  (forall a, r = Ok a -> triple P (k a) Q) ->
  (forall e, r = Raise e -> forall ts, P ts -> Q (Raise e) ts) ->
  (r = OutOfFuel -> forall ts, P ts -> Q OutOfFuel ts) ->
  triple P (bind (lift r) k) Q.
Proof.
  intros Hk He Ho ts Hts. unfold bind, lift. destruct r as [a|e|]; simpl.
  - apply (Hk a eq_refl ts Hts).
  - apply (He e eq_refl ts Hts).
  - apply (Ho eq_refl ts Hts).
Qed.

Lemma below_within {A} n (k : M A) :
  (forall m, n = S m -> triple (within m) k (finished m)) ->
  triple (below n) k (fun r ts => r <> OutOfFuel /\ below n ts).
Proof.
  intros Hk ts Hm. unfold below in *.
  destruct n as [|m]; [lia|].
  destruct (Hk m eq_refl ts) as [Hr Hm']; [unfold within; lia|].
  split; [exact Hr|lia].
Qed.

Lemma below_step {A} n (k : M A) (Q : result A -> TokenStream -> Prop) :
  (forall m, n = S m -> triple (within m) k (finished m)) ->
  (forall r ts, r <> OutOfFuel /\ below n ts -> Q r ts) ->
  triple (below n) k Q.
Proof. intros Hk HQ ts Hts. apply HQ, (below_within n k Hk ts Hts). Qed.

Lemma below_finished {A} n (r : result A) ts :
  r <> OutOfFuel /\ below n ts -> finished n r ts.
Proof. unfold below. intros [Hr Hm]. split; [exact Hr|lia]. Qed.

(** A token of weight 1 was drawn: the stream is smaller. *)
Lemma after_token {A} n t (k : M A) (Q : result A -> TokenStream -> Prop) :
  weight t = 1%nat ->
  triple (below n) k Q ->
  triple (fun ts => (measure ts + weight t <= n)%nat /\ pushed ts = None) k Q.
Proof. intros Hw Hk ts [Hm _]. rewrite Hw in Hm. apply Hk. exact Hm. Qed.

(** A token was drawn and is not pushed back. *)
Lemma after_any_token {A} n t (k : M A) :
  triple (within n) k (finished n) ->
  triple (fun ts => (measure ts + weight t <= n)%nat /\ pushed ts = None) k
    (finished n).
Proof. intros Hk ts [Hm _]. apply Hk. unfold within. lia. Qed.

(** The token drawn is pushed back: it is the one [advance] returns next. *)
Lemma push_peek {A} n t (k : M A) (Q : result A -> TokenStream -> Prop) :
  triple (fun ts => within n ts /\ peek ts = t) k Q ->
  triple (fun ts => (measure ts + weight t <= n)%nat /\ pushed ts = None)
    (bind (push t) (fun _ => k)) Q.
Proof.
  intros Hk ts [Hm Hp]. unfold bind, push. simpl. apply Hk.
  unfold within, measure, peek, set_pushed in *. simpl. rewrite Hp in Hm.
  split; [lia|reflexivity].
Qed.

Lemma send_not_OutOfFuel idx v pairs : send idx v pairs <> OutOfFuel.
Proof.
  unfold send. destruct (is_None v); [discriminate|].
  destruct idx; [discriminate|].
  destruct (set_last_slot1 v pairs); discriminate.
Qed.

Lemma match_atom_finished n : triple (within n) match_atom (finished n).
Proof.
  unfold match_atom. apply advance_within. intros t.
  destruct (negb (is_kind ATOM t)).
  - apply push_within, finished_ret.
  - apply after_any_token, finished_ret.
Qed.

Lemma match_end_finished n : triple (within n) match_end (finished n).
Proof.
  unfold match_end. apply advance_within. intros t. apply after_any_token.
  destruct (is_kind END t); [apply finished_ret|apply finished_raise].
Qed.

Lemma next_idx_finished n ic : triple (within n) (next_idx ic) (finished n).
Proof. destruct ic; [apply finished_ret|apply finished_raise]. Qed.

Lemma weight_kind k t : is_kind k t = true -> weight t = 1%nat.
Proof. unfold is_kind, weight. destruct (name t); [reflexivity|discriminate]. Qed.

Lemma weight_name k t : name t = Some k -> weight t = 1%nat.
Proof. unfold weight. intros ->. reflexivity. Qed.

(** With fuel [2 n + 1] for [match_template] and [2 n + 2] for the
    parameter loop on a stream of measure [n], the functions end without
    reaching the bound, on a stream of measure at most [n]; and a
    [match_template] that starts on a BEGIN token leaves a smaller stream. *)
Lemma parser_finishes fuel :
  (forall n t,
     (2 * n + 1 <= fuel)%nat ->
     triple (fun ts => within n ts /\ peek ts = t) (match_template fuel)
       (fun r ts => finished n r ts /\
                    (is_kind BEGIN t = true -> below n ts))) /\
  (forall n pairs ic,
     (2 * n + 2 <= fuel)%nat ->
     triple (within n) (match_parameters fuel pairs ic) (finished n)).
Proof.
  induction fuel as [|fuel [IHt IHp]].
  - split; intros; lia.
  - assert (IHt' : forall n, (2 * n + 1 <= fuel)%nat ->
              triple (within n) (match_template fuel) (finished n)).
    { intros n Hn ts Hts.
      apply (IHt n (peek ts) Hn ts (conj Hts eq_refl)). }
    split.
    + intros n t Hfuel. cbn [match_template].
      apply advance_within_peek.
      destruct (is_kind BEGIN t) eqn:Hb; cbn [negb].
      * apply after_token; [exact (weight_kind _ _ Hb)|].
        apply below_step.
        { intros m ->.
          apply finished_bind; [apply match_atom_finished|]. intros nm.
          apply finished_bind.
          { destruct (is_None nm); [|apply finished_ret].
            apply finished_bind; [apply IHt'; lia|]. intros d.
            apply finished_ret. }
          intros nm'. apply finished_bind; [apply IHp; lia|]. intros ps.
          apply finished_bind; [apply match_end_finished|]. intros _.
          apply finished_ret. }
        intros r ts H. split; [apply below_finished, H|]. intros _. apply H.
      * apply push_within. intros ts Hts.
        split; [apply finished_ret; exact Hts|discriminate].
    + intros n pairs ic Hfuel. cbn [match_parameters].
      apply advance_within. intros t.
      assert (Hloop : forall ps ic',
                triple (below n) (match_parameters fuel ps ic') (finished n)).
      { intros ps ic'. apply below_step.
        - intros m ->. apply IHp. lia.
        - intros r ts. apply below_finished. }
      assert (Hsend : forall i v ic',
                triple (below n)
                  (pairs <- lift (send i v pairs) ;;
                   match_parameters fuel pairs ic') (finished n)).
      { intros i v ic'. apply triple_bind_pure.
        - intros ps _. apply Hloop.
        - intros e _ ts Hts. apply below_finished. split; [discriminate|exact Hts].
        - intros E. destruct (send_not_OutOfFuel _ _ _ E). }
      destruct (name t) as [[| | | |]|] eqn:Hn.
      * apply push_peek. destruct ic as [i|].
        -- change (next_idx (Some i)) with (@lift (nat * option nat)
                     (Ok (i, Some (1 - i)%nat))).
           apply triple_bind_pure; try discriminate. intros ic' _.
           apply triple_bind with
             (Q := fun (r : result template) ts => r <> OutOfFuel /\ below n ts).
           ++ intros ts Hts.
              destruct (IHt n t ltac:(lia) ts Hts) as [[Hr _] Hlt].
              split; [exact Hr|]. apply Hlt. unfold is_kind. rewrite Hn. reflexivity.
           ++ intros d ts [_ Hts]. revert ts Hts. apply Hsend.
           ++ intros e ts H. apply below_finished. split; [discriminate|apply H].
           ++ intros ts [H _]. congruence.
        -- intros ts [Hts _]. split; [discriminate|exact Hts].
      * apply push_within, finished_ret.
      * apply after_token; [exact (weight_name _ _ Hn)|].
        destruct ic as [i|].
        -- change (next_idx (Some i)) with (@lift (nat * option nat)
                     (Ok (i, Some (1 - i)%nat))).
           apply triple_bind_pure; try discriminate. intros ic' _. apply Hsend.
        -- intros ts Hts. apply below_finished. split; [discriminate|exact Hts].
      * apply after_token; [exact (weight_name _ _ Hn)|]. apply Hloop.
      * apply after_token; [exact (weight_name _ _ Hn)|]. apply Hsend.
      * apply push_within, finished_ret.
Qed.

Lemma measure_new_TokenStream tokens :
  measure (new_TokenStream tokens) = (2 * List.length tokens)%nat.
Proof. unfold measure, new_TokenStream. simpl. lia. Qed.

(** For every input [parse] returns or raises: the bound on calls that the
    model adds is never reached. *)
Theorem parse_terminates (s : string) : parse s <> OutOfFuel.
Proof.
  unfold parse, parse_stream.
  destruct (lex_scan_total s) as [tokens ->].
  set (ts := new_TokenStream tokens).
  assert (Hw : within (2 * List.length tokens) ts).
  { unfold within, ts. rewrite measure_new_TokenStream. lia. }
  destruct (proj1 (parser_finishes (call_bound tokens))
              (2 * List.length tokens)%nat (peek ts)
              ltac:(unfold call_bound; lia) ts (conj Hw eq_refl))
    as [[Hr _] _].
  exact Hr.
Qed.

(** ** Templates that are never closed *)

Lemma advance_no_END {A} (k : Token -> M A) (Q : result A -> TokenStream -> Prop) :
  (forall t, open_token t = true -> triple no_END (k t) Q) ->
  triple no_END (bind advance k) Q.
Proof.
  intros Hk ts [Hi Hp]. unfold bind, advance, next.
  destruct ts as [it [p|] l]; simpl in *.
  - apply (Hk p Hp). split; simpl; auto.
  - destruct it as [|t rest]; simpl in *.
    + apply (Hk end_of_stream eq_refl). split; simpl; auto.
    + apply andb_prop in Hi. destruct Hi as [Ht Hrest].
      apply (Hk t Ht). split; simpl; auto.
Qed.

Lemma advance_no_END_peek {A} t (k : Token -> M A)
  (Q : result A -> TokenStream -> Prop) :
  (open_token t = true -> triple no_END (k t) Q) ->
  triple (fun ts => no_END ts /\ peek ts = t) (bind advance k) Q.
Proof.
  intros Hk ts [[Hi Hp] <-]. unfold bind, advance, next, peek in *.
  destruct ts as [it [p|] l]; simpl in *.
  - apply (Hk Hp). split; simpl; auto.
  - destruct it as [|t rest]; simpl in *.
    + apply (Hk eq_refl). split; simpl; auto.
    + apply andb_prop in Hi. destruct Hi as [Ht Hrest].
      apply (Hk Ht). split; simpl; auto.
Qed.

Lemma push_no_END {A} (t : Token) (k : M A) (Q : result A -> TokenStream -> Prop) :
  open_token t = true ->
  triple no_END k Q ->
  triple no_END (bind (push t) (fun _ => k)) Q.
Proof.
  intros Ht Hk ts [Hi Hp]. unfold bind, push. simpl.
  apply Hk. split; simpl; auto.
Qed.

Lemma safe_bind {A B} (P : TokenStream -> Prop) (c : M A) (k : A -> M B) :
  triple P c safe -> (forall a, triple no_END (k a) safe) ->
  triple P (bind c k) safe.
Proof.
  intros Hc Hk. apply triple_bind with (Q := safe); [exact Hc|..].
  - intros a ts [Hts _]. apply Hk, Hts.
  - intros e ts [Hts He]. split; [exact Hts|]. intros e' [= <-]. apply He. reflexivity.
  - intros ts [Hts _]. split; [exact Hts|]. intros e [=].
Qed.

Lemma fails_bind_r {A B} (P : TokenStream -> Prop) (c : M A) (k : A -> M B) :
  triple P c safe -> (forall a, triple no_END (k a) fails) ->
  triple P (bind c k) fails.
Proof.
  intros Hc Hk. apply triple_bind with (Q := safe); [exact Hc|..].
  - intros a ts [Hts _]. apply Hk, Hts.
  - intros e ts [Hts He]. split; [split; [exact Hts|]|discriminate].
    intros e' [= <-]. apply He. reflexivity.
  - intros ts [Hts _]. split; [split; [exact Hts|]|discriminate]. intros e [=].
Qed.

Lemma fails_bind_l {A B} (P : TokenStream -> Prop) (c : M A) (k : A -> M B) :
  triple P c fails -> triple P (bind c k) fails.
Proof.
  intros Hc. apply triple_bind with (Q := fails); [exact Hc|..].
  - intros a ts [_ H]. destruct (H a eq_refl).
  - intros e ts [[Hts He] _]. split; [split; [exact Hts|]|discriminate].
    intros e' [= <-]. apply He. reflexivity.
  - intros ts [[Hts _] _]. split; [split; [exact Hts|]|discriminate]. intros e [=].
Qed.

Lemma safe_ret {A} (a : A) : triple no_END (ret a) safe.
Proof. intros ts Hts. split; [exact Hts|]. intros e [=]. Qed.

Lemma safe_out_of_fuel {A} : triple no_END (@out_of_fuel A) safe.
Proof. intros ts Hts. split; [exact Hts|]. intros e [=]. Qed.

Lemma safe_lift {A} (r : result A) : parser_exn r -> triple no_END (lift r) safe.
Proof. intros Hr ts Hts. split; [exact Hts|exact Hr]. Qed.

Lemma send_parser_exn idx v pairs : parser_exn (send idx v pairs).
Proof.
  unfold send. destruct (is_None v); [intros e [=]|].
  destruct idx; [intros e [=]|].
  destruct (set_last_slot1 v pairs); intros e [=]. right. congruence.
Qed.

Lemma next_idx_safe ic : triple no_END (next_idx ic) safe.
Proof.
  destruct ic; [apply safe_ret|]. intros ts Hts. split; [exact Hts|].
  intros e [= <-]. right. reflexivity.
Qed.

Lemma match_atom_safe : triple no_END match_atom safe.
Proof.
  unfold match_atom. apply advance_no_END. intros t Ht.
  destruct (negb (is_kind ATOM t)).
  - apply push_no_END; [exact Ht|]. apply safe_ret.
  - apply safe_ret.
Qed.

(** With no END token left, [match_end] fails. *)
Lemma match_end_fails : triple no_END match_end fails.
Proof.
  unfold match_end. apply advance_no_END. intros t Ht.
  unfold open_token in Ht. apply negb_true_iff in Ht. rewrite Ht.
  intros ts Hts. split; [split; [exact Hts|]|discriminate].
  intros e [= <-]. left. reflexivity.
Qed.

Lemma parser_safe fuel :
  triple no_END (match_template fuel) safe /\
  (forall pairs ic, triple no_END (match_parameters fuel pairs ic) safe) /\
  (forall t, is_kind BEGIN t = true ->
     triple (fun ts => no_END ts /\ peek ts = t) (match_template fuel) fails).
Proof.
  induction fuel as [|fuel [IHt [IHp _]]].
  - split; [apply safe_out_of_fuel|]. split; [intros; apply safe_out_of_fuel|].
    intros t _ ts [Hts _]. split; [apply safe_out_of_fuel, Hts|discriminate].
  - assert (Hname : forall nm,
              triple no_END
                (if is_None nm then t <- match_template fuel ;; ret (PyDict t)
                 else ret nm) safe).
    { intros nm. destruct (is_None nm); [|apply safe_ret].
      apply safe_bind; [apply IHt|]. intros d. apply safe_ret. }
    split; [|split].
    + cbn [match_template]. apply advance_no_END. intros t Ht.
      destruct (negb (is_kind BEGIN t)).
      * apply push_no_END; [exact Ht|]. apply safe_ret.
      * apply safe_bind; [apply match_atom_safe|]. intros nm.
        apply safe_bind; [apply Hname|]. intros nm'.
        apply safe_bind; [apply IHp|]. intros ps.
        apply safe_bind; [|intros _; apply safe_ret].
        intros ts Hts. apply (match_end_fails ts Hts).
    + intros pairs ic. cbn [match_parameters].
      apply advance_no_END. intros t Ht.
      destruct (name t) as [[| | | |]|].
      * apply push_no_END; [exact Ht|].
        apply safe_bind; [apply next_idx_safe|]. intros i.
        apply safe_bind; [apply IHt|]. intros d.
        apply safe_bind; [apply safe_lift, send_parser_exn|]. intros ps.
        apply IHp.
      * apply push_no_END; [exact Ht|]. apply safe_ret.
      * apply safe_bind; [apply next_idx_safe|]. intros i.
        apply safe_bind; [apply safe_lift, send_parser_exn|]. intros ps.
        apply IHp.
      * apply IHp.
      * apply safe_bind; [apply safe_lift, send_parser_exn|]. intros ps.
        apply IHp.
      * apply push_no_END; [exact Ht|]. apply safe_ret.
    + intros t Hb. cbn [match_template].
      apply advance_no_END_peek. intros _. rewrite Hb. cbn [negb].
      apply fails_bind_r; [apply match_atom_safe|]. intros nm.
      apply fails_bind_r; [apply Hname|]. intros nm'.
      apply fails_bind_r; [apply IHp|]. intros ps.
      apply fails_bind_l, match_end_fails.
Qed.

(** A template that starts and is never closed does not parse: [parse]
    raises, in [match_end] or on the unbound [idx_cycle]. *)
Lemma never_closed_never_returns (s : string) :
  starts_with_BEGIN s = true -> never_closed s = true ->
  parse s = Raise AssertionError \/ parse s = Raise UnboundLocalError.
Proof.
  intros Hb Hc. pose proof (parse_terminates s) as Hterm.
  unfold starts_with_BEGIN, never_closed, parse, parse_stream in *.
  destruct (lex_scan s) as [[tokens remainder]|e|]; try discriminate.
  destruct tokens as [|t rest]; [discriminate|].
  destruct (proj2 (proj2 (parser_safe (call_bound (t :: rest)))) t Hb
              (new_TokenStream (t :: rest))) as [[_ He] Hok].
  { split; [split; [exact Hc|exact I]|reflexivity]. }
  destruct (fst (match_template (call_bound (t :: rest))
                   (new_TokenStream (t :: rest)))) as [d|e|].
  - destruct (Hok d eq_refl).
  - destruct (He e eq_refl) as [-> | ->]; auto.
  - congruence.
Qed.

(** ** Lexemes and their texts *)

Lemma span_all p s : all_chars p (fst (span p s)) = true.
Proof.
  induction s as [|c s IH]; simpl; [reflexivity|].
  destruct (p c) eqn:E; [|reflexivity].
  destruct (span p s) as [run rest]. simpl in *. rewrite E. exact IH.
Qed.

Lemma span_rest p s :
  match snd (span p s) with
  | String c _ => p c = false
  | EmptyString => True
  end.
Proof.
  induction s as [|c s IH]; simpl; [exact I|].
  destruct (p c) eqn:E; [|exact E].
  destruct (span p s) as [run rest]. exact IH.
Qed.

Lemma literal_is lit s m rest : literal lit s = Some (m, rest) -> m = lit.
Proof.
  revert s m rest. induction lit as [|c lit IH]; intros s m rest; simpl.
  - intros [= <- <-]. reflexivity.
  - destruct s as [|c' s']; [discriminate|].
    destruct (Ascii.eqb_spec c c') as [->|]; [|discriminate].
    destruct (literal lit s') as [[m' r']|] eqn:E; [|discriminate].
    intros [= <- <-]. f_equal. apply (IH _ _ _ E).
Qed.

Lemma literal_prefix lit rest :
  literal lit (lit ++ rest)%string = Some (lit, rest).
Proof.
  induction lit as [|c lit IH]; simpl; [reflexivity|].
  rewrite Ascii.eqb_refl, IH. reflexivity.
Qed.

(** An ATOM lexeme is a run of the class [[^|{}=]] that cannot be longer. *)
Lemma atom_run_shape s m rest :
  atom_run s = Some (m, rest) ->
  atom_text m = true /\ starts_atom rest = false /\ starts_atom s = true.
Proof.
  unfold atom_run.
  pose proof (span_all atom_char s) as Hall.
  pose proof (span_rest atom_char s) as Hrest.
  pose proof (span_app atom_char s) as Happ.
  destruct (span atom_char s) as [run r]. simpl in *.
  destruct run as [|c run]; [discriminate|]. intros [= <- <-].
  split; [exact Hall|]. split.
  - destruct r; [reflexivity|exact Hrest].
  - subst s. simpl in *. apply andb_prop in Hall. tauto.
Qed.

Lemma next_lexeme_shape s k m rest :
  next_lexeme s = Some (k, m, rest) ->
  lexeme_ok (k, m) = true /\
  (k = ATOM -> starts_atom rest = false) /\
  (k = ATOM <-> starts_atom s = true).
Proof.
  unfold next_lexeme.
  destruct (first_match lexicon s) as [[[k' m'] r']|] eqn:E; [|discriminate].
  intros H. assert (H' : (k', m', r') = (k, m, rest)).
  { destruct m'; [discriminate|]. congruence. }
  clear H. injection H' as -> -> ->.
  unfold lexicon, first_match in E.
  destruct (literal "{{" s) as [[m1 r1]|] eqn:E1.
  { injection E as <- <- <-. pose proof (literal_is _ _ _ _ E1) as ->.
    apply literal_app in E1. subst s.
    repeat split; try discriminate. }
  destruct (literal "}}" s) as [[m2 r2]|] eqn:E2.
  { injection E as <- <- <-. pose proof (literal_is _ _ _ _ E2) as ->.
    apply literal_app in E2. subst s.
    repeat split; try discriminate. }
  destruct (atom_run s) as [[m3 r3]|] eqn:E3.
  { injection E as <- <- <-.
    destruct (atom_run_shape _ _ _ E3) as [Ha [Hr Hs]].
    repeat split; auto. }
  destruct (literal "=" s) as [[m4 r4]|] eqn:E4.
  { injection E as <- <- <-. pose proof (literal_is _ _ _ _ E4) as ->.
    apply literal_app in E4. subst s.
    repeat split; try discriminate. }
  destruct (literal "|" s) as [[m5 r5]|] eqn:E5; [|discriminate].
  injection E as <- <- <-. pose proof (literal_is _ _ _ _ E5) as ->.
  apply literal_app in E5. subst s.
  repeat split; try discriminate.
Qed.

(** The first lexeme of a scan is an ATOM only when the text starts with a
    character of the class. *)
Lemma scan_head_atom s l ls r :
  scan s = (l :: ls, r) -> is_atom_lexeme l = true -> starts_atom s = true.
Proof.
  rewrite scan_step.
  destruct (next_lexeme s) as [[[k m] rest]|] eqn:E; [|discriminate].
  unfold cons_fst. intros [= <- _ _]. unfold is_atom_lexeme. simpl.
  intros Hk. apply (next_lexeme_shape _ _ _ _ E). destruct k; try discriminate.
  reflexivity.
Qed.

Lemma scan_well_lexed s : well_lexed (fst (scan s)) = true.
Proof.
  unfold well_lexed. funelim (scan s); [|reflexivity].
  destruct (next_lexeme_shape _ _ _ _ e) as [Hok [Hrest _]].
  apply andb_prop in H as [Hall Hapart].
  destruct (scan rest) as [ls r] eqn:Es. cbn [cons_fst fst snd] in *.
  cbn [forallb atoms_apart]. rewrite Hok, Hall, Hapart.
  destruct ls as [|l ls]; [reflexivity|].
  destruct (is_atom_lexeme (k, m)) eqn:Ek; [|reflexivity].
  destruct (is_atom_lexeme l) eqn:El; [|reflexivity].
  pose proof (scan_head_atom _ _ _ _ Es El) as Hs.
  rewrite Hrest in Hs; [discriminate|].
  unfold is_atom_lexeme in Ek. simpl in Ek. destruct k; try discriminate.
  reflexivity.
Qed.

Lemma span_run p m tail :
  all_chars p m = true ->
  match tail with String c _ => p c = false | EmptyString => True end ->
  span p (m ++ tail)%string = (m, tail).
Proof.
  intros Hm Ht. induction m as [|c m IH]; simpl in *.
  - destruct tail as [|c t]; [reflexivity|]. simpl. rewrite Ht. reflexivity.
  - apply andb_prop in Hm as [Hc Hm]. rewrite Hc, (IH Hm). reflexivity.
Qed.

Lemma atom_char_not_brace c :
  atom_char c = true -> ("{" =? c)%char = false /\ ("}" =? c)%char = false.
Proof.
  intros H. split.
  - destruct (Ascii.eqb_spec "{" c) as [<-|]; [discriminate|reflexivity].
  - destruct (Ascii.eqb_spec "}" c) as [<-|]; [discriminate|reflexivity].
Qed.

Lemma next_lexeme_atom m tail :
  atom_text m = true -> starts_atom tail = false ->
  next_lexeme (m ++ tail)%string = Some (ATOM, m, tail).
Proof.
  intros Hm Ht. destruct m as [|c m]; [discriminate|].
  unfold atom_text in Hm.
  assert (Hs : span atom_char (String c m ++ tail)%string = (String c m, tail)).
  { apply span_run; [exact Hm|]. destruct tail; [exact I|exact Ht]. }
  simpl in Hm. apply andb_prop in Hm as [Hc Hm].
  destruct (atom_char_not_brace c Hc) as [H1 H2].
  unfold next_lexeme, lexicon, first_match, atom_run. rewrite Hs.
  cbn [append literal]. rewrite H1, H2. reflexivity.
Qed.

(** At the start of the text of a lexeme, followed by a text that cannot
    make an ATOM run longer, the scanner finds that lexeme. *)
Lemma next_lexeme_text k m tail :
  lexeme_ok (k, m) = true ->
  (k = ATOM -> starts_atom tail = false) ->
  next_lexeme (m ++ tail)%string = Some (k, m, tail).
Proof.
  unfold lexeme_ok. cbn [fst snd]. intros Hok Ht.
  destruct k; try (apply String.eqb_eq in Hok; subst m; reflexivity).
  apply next_lexeme_atom; auto.
Qed.

Lemma starts_atom_scan s :
  starts_atom s = true ->
  exists l ls r, scan s = (l :: ls, r) /\ is_atom_lexeme l = true.
Proof.
  intros Hs. rewrite scan_step.
  destruct (next_lexeme s) as [[[k m] rest]|] eqn:E.
  - exists (k, m), (fst (scan rest)), (snd (scan rest)).
    split; [reflexivity|].
    apply (next_lexeme_shape _ _ _ _ E) in Hs. subst k. reflexivity.
  - apply next_lexeme_None in E. destruct E as [->|E]; [discriminate|].
    destruct s as [|c s]; [discriminate|].
    simpl in Hs. apply atom_char_not_brace in Hs as [H1 H2].
    unfold lone_brace in E. rewrite Ascii.eqb_sym, H1 in E.
    rewrite (Ascii.eqb_sym c "}"), H2 in E. discriminate.
Qed.

Lemma starts_atom_text k m tail :
  lexeme_ok (k, m) = true -> is_atom_lexeme (k, m) = false ->
  starts_atom (m ++ tail)%string = false.
Proof.
  unfold lexeme_ok, is_atom_lexeme. cbn [fst snd]. intros Hok Hk.
  destruct k; try discriminate;
    apply String.eqb_eq in Hok; subst m; reflexivity.
Qed.

(** Scanning the joined texts of lexemes gives the lexemes back, and goes
    on with what follows them, when no two ATOM lexemes end up side by
    side. *)
Lemma scan_texts ls rest :
  forallb lexeme_ok ls = true ->
  atoms_apart (ls ++ fst (scan rest)) = true ->
  scan (texts ls ++ rest)%string = (ls ++ fst (scan rest), snd (scan rest)).
Proof.
  induction ls as [|[k m] ls IH]; intros Hok Hap.
  - simpl. destruct (scan rest); reflexivity.
  - cbn [forallb] in Hok. apply andb_prop in Hok as [Hkm Hok].
    cbn [app atoms_apart] in Hap. apply andb_prop in Hap as [Hhead Hap].
    cbn [texts]. rewrite append_assoc, scan_step.
    rewrite (next_lexeme_text k m).
    + rewrite (IH Hok Hap). reflexivity.
    + exact Hkm.
    + intros ->. destruct ls as [|[k' m'] ls].
      * cbn [app texts append] in *.
        destruct (starts_atom rest) eqn:Es; [|reflexivity].
        destruct (starts_atom_scan _ Es) as [l [ls' [r [E Hl]]]].
        rewrite E in Hhead. cbn [fst] in Hhead. rewrite Hl in Hhead.
        discriminate.
      * cbn [app texts] in *. rewrite append_assoc.
        cbn [forallb] in Hok. apply andb_prop in Hok as [Hok' _].
        apply (starts_atom_text k' m'); [exact Hok'|].
        destruct (is_atom_lexeme (k', m')); [discriminate|reflexivity].
Qed.

Lemma scan_empty : scan EmptyString = ([], EmptyString).
Proof. rewrite scan_step. reflexivity. Qed.

Lemma append_empty (s : string) : (s ++ EmptyString)%string = s.
Proof. induction s; simpl; congruence. Qed.

Lemma actions_map lexemes : actions lexemes = Ok (map lexeme_token lexemes).
Proof.
  induction lexemes as [|[k t] rest IH]; [reflexivity|].
  cbn [actions map]. rewrite IH.
  destruct k; cbn [action]; try reflexivity.
  rewrite (atomize_coerced t). reflexivity.
Qed.

Lemma lex_scan_map s :
  lex_scan s = Ok (map lexeme_token (fst (scan s)), snd (scan s)).
Proof.
  unfold lex_scan. destruct (scan s) as [lexemes remainder].
  rewrite actions_map. reflexivity.
Qed.

(** X1: every token of the lexer comes from a text that the pattern of its
    kind matches in full: BEGIN from [{{], END from [}}], EQUAL from [=],
    PARAMETER from [|], and ATOM from a run of one or more characters other
    than [|], [{], [}] and [=], whose token carries the atomized run.  The
    runs are as long as they can be: no ATOM token comes right after
    another. *)
Theorem tokens_fit_their_patterns (s : string) :
  lex_scan s = Ok (map lexeme_token (fst (scan s)), snd (scan s)) /\
  forallb lexeme_ok (fst (scan s)) = true /\
  atoms_apart (fst (scan s)) = true.
Proof.
  split; [apply lex_scan_map|].
  apply andb_prop. apply scan_well_lexed.
Qed.

(** X2: the lexer undoes the joining of lexeme texts: for every list of
    lexemes whose texts fit their patterns and in which no two ATOM lexemes
    are side by side, the lexer reads the joined texts in full, as that
    list. *)
Theorem lex_joined_texts (ls : list (kind * string)) :
  well_lexed ls = true ->
  scan (texts ls) = (ls, EmptyString) /\
  lex_scan (texts ls) = Ok (map lexeme_token ls, EmptyString).
Proof.
  unfold well_lexed. intros H. apply andb_prop in H as [Hok Hap].
  assert (E : scan (texts ls) = (ls, EmptyString)).
  { rewrite <- (append_empty (texts ls)).
    rewrite scan_texts; rewrite ?scan_empty; cbn [fst snd];
      rewrite ?List.app_nil_r; auto. }
  split; [exact E|]. rewrite lex_scan_map, E. reflexivity.
Qed.

Lemma lex_joined_texts_witness :
  lex_scan "{{t| a =1}}"
  = Ok ([mkToken (Some BEGIN) (PyStr "{{"); mkToken (Some ATOM) (PyStr "t");
         mkToken (Some PARAMETER) (PyStr "|"); mkToken (Some ATOM) (PyStr "a");
         mkToken (Some EQUAL) (PyStr "="); mkToken (Some ATOM) (PyInt 1);
         mkToken (Some END) (PyStr "}}")], EmptyString).
Proof.
  exact (proj2 (lex_joined_texts
                  [(BEGIN, "{{"); (ATOM, "t"); (PARAMETER, "|"); (ATOM, " a ");
                   (EQUAL, "="); (ATOM, "1"); (END, "}}")]
                  eq_refl)).
Defined.

(** ** Written templates as text *)

Lemma clean_Nested nm ws :
  clean (Nested nm ws) = atom_text nm && forallb clean_parameter ws.
Proof. reflexivity. Qed.

Lemma tokens_of_lexemes w : map lexeme_token (value_lexemes w) = value_tokens w.
Proof.
  induction w as [x|nm ws IH] using written_induction; [reflexivity|].
  cbn [value_lexemes value_tokens map]. rewrite List.map_app. cbn [map].
  do 2 f_equal. f_equal.
  induction IH as [|p ws Hp _ IHws]; [reflexivity|].
  cbn [flat_map]. rewrite List.map_app, IHws. f_equal.
  destruct p as [|v|k v]; cbn [parameter_lexemes parameter_tokens map on_value] in *;
    [reflexivity| |]; rewrite Hp; reflexivity.
Qed.

Lemma parameter_lexemes_ok ws :
  Forall (on_value (fun v => clean v = true ->
                              forallb lexeme_ok (value_lexemes v) = true)) ws ->
  forallb clean_parameter ws = true ->
  forallb lexeme_ok (flat_map parameter_lexemes ws) = true.
Proof.
  induction 1 as [|p ws Hp _ IHws]; [reflexivity|].
  cbn [forallb]. intros H. apply andb_prop in H as [Hcp Hws].
  cbn [flat_map]. rewrite List.forallb_app, (IHws Hws), andb_true_r.
  destruct p as [|v|k v]; cbn [parameter_lexemes clean_parameter on_value] in *.
  - reflexivity.
  - cbn [forallb]. rewrite (Hp Hcp). reflexivity.
  - apply andb_prop in Hcp as [Hk Hv]. cbn [forallb]. rewrite (Hp Hv).
    unfold lexeme_ok. cbn [fst snd]. rewrite Hk. reflexivity.
Qed.

Lemma lexemes_ok w : clean w = true -> forallb lexeme_ok (value_lexemes w) = true.
Proof.
  induction w as [x|nm ws IH] using written_induction.
  - cbn [clean value_lexemes forallb]. unfold lexeme_ok. cbn [fst snd].
    intros ->. reflexivity.
  - rewrite clean_Nested. intros H. apply andb_prop in H as [Hnm Hws].
    cbn [value_lexemes forallb]. rewrite List.forallb_app.
    rewrite (parameter_lexemes_ok ws IH Hws).
    unfold lexeme_ok. cbn [fst snd]. rewrite Hnm. reflexivity.
Qed.

(** A list of lexemes that does not start with an ATOM. *)
Lemma atoms_apart_cons l ls :
  atoms_apart (l :: ls)
  = match ls with
    | b :: _ => negb (is_atom_lexeme l && is_atom_lexeme b)
    | [] => true
    end && atoms_apart ls.
Proof. reflexivity. Qed.

Lemma lexemes_apart w :
  forall tail,
    match tail with l :: _ => is_atom_lexeme l = false | [] => True end ->
    atoms_apart tail = true ->
    atoms_apart (value_lexemes w ++ tail) = true.
Proof.
  induction w as [x|nm ws IH] using written_induction; intros tail Hhead Hap.
  - cbn [value_lexemes app]. rewrite atoms_apart_cons, Hap.
    destruct tail as [|l tail]; [reflexivity|]. rewrite Hhead, andb_false_r.
    reflexivity.
  - cbn [value_lexemes app]. rewrite <- List.app_assoc. cbn [app].
    assert (H : atoms_apart (flat_map parameter_lexemes ws ++ (END, "}}") :: tail)
                = true /\
                match flat_map parameter_lexemes ws ++ (END, "}}") :: tail with
                | l :: _ => is_atom_lexeme l = false
                | [] => True
                end).
    { induction IH as [|p ws Hp _ IHws].
      - cbn [flat_map app]. rewrite atoms_apart_cons, Hap.
        split; [|reflexivity]. destruct tail; reflexivity.
      - destruct IHws as [IH1 IH2]. cbn [flat_map]. rewrite <- List.app_assoc.
        set (rest := flat_map parameter_lexemes ws ++ (END, "}}") :: tail) in *.
        destruct p as [|v|k v]; cbn [parameter_lexemes on_value app] in *.
        + split; [|reflexivity]. rewrite atoms_apart_cons, IH1.
          destruct rest; reflexivity.
        + split; [|reflexivity]. rewrite atoms_apart_cons, (Hp rest IH2 IH1).
          destruct (value_lexemes v ++ rest); reflexivity.
        + split; [|reflexivity].
          rewrite !atoms_apart_cons, (Hp rest IH2 IH1).
          destruct (value_lexemes v ++ rest); reflexivity. }
    destruct H as [H1 H2]. rewrite !atoms_apart_cons, H1.
    destruct (flat_map parameter_lexemes ws ++ (END, "}}") :: tail) as [|l ls];
      [reflexivity|].
    rewrite H2, andb_false_r. reflexivity.
Qed.

Lemma atoms_apart_snoc a l tail :
  atoms_apart (a ++ [l]) = true -> is_atom_lexeme l = false ->
  atoms_apart tail = true ->
  atoms_apart ((a ++ [l]) ++ tail) = true.
Proof.
  intros Ha Hl Ht. induction a as [|x a IHa].
  - cbn [app]. rewrite atoms_apart_cons, Ht.
    destruct tail; rewrite ?Hl; reflexivity.
  - cbn [app] in *. rewrite atoms_apart_cons in Ha |- *.
    apply andb_prop in Ha as [Hx Ha]. rewrite (IHa Ha), andb_true_r.
    destruct a; cbn [app] in *; exact Hx.
Qed.

Lemma template_lexemes_apart nm ws tail :
  atoms_apart tail = true ->
  atoms_apart (value_lexemes (Nested nm ws) ++ tail) = true.
Proof.
  intros Hap.
  pose proof (lexemes_apart (Nested nm ws) [] I eq_refl) as H0.
  rewrite List.app_nil_r in H0. cbn [value_lexemes] in *.
  rewrite !List.app_comm_cons in *.
  apply atoms_apart_snoc; auto.
Qed.

Lemma lex_rendered nm ws extra :
  clean (Nested nm ws) = true ->
  lex_scan (render (Nested nm ws) ++ extra)%string
  = Ok (value_tokens (Nested nm ws) ++ map lexeme_token (fst (scan extra)),
        snd (scan extra)).
Proof.
  intros Hc. rewrite lex_scan_map. unfold render. rewrite scan_texts.
  - cbn [fst snd]. rewrite List.map_app, tokens_of_lexemes. reflexivity.
  - apply lexemes_ok, Hc.
  - apply template_lexemes_apart.
    pose proof (scan_well_lexed extra) as H. unfold well_lexed in H.
    apply andb_prop in H. tauto.
Qed.

(** [match_template] on the tokens of a written template followed by any
    tokens: the node, and the stream right after the END token. *)
Lemma template_then_rest nm ws rest :
  match_template (call_bound (value_tokens (Nested nm ws) ++ rest))
    (new_TokenStream (value_tokens (Nested nm ws) ++ rest))
  = (Ok (written_node nm ws), mkStream rest None []).
Proof.
  apply (template_parsed nm ws (all_written_parsed ws)).
  - cbn [value_tokens app]. unfold advance, next, new_TokenStream.
    cbn [pushed iterator lost]. rewrite <- List.app_assoc. reflexivity.
  - unfold call_bound. cbn [value_tokens app List.length].
    rewrite !List.length_app. cbn [List.length]. lia.
Qed.

Lemma reference_of_written nm ws :
  exists kwargs,
    build_reference (written_node nm ws)
      = Ok (TemplateReference (coerced nm) (flat_map parameter_args ws) kwargs) /\
    forall k, getitem kwargs k = last_value k (flat_map parameter_items ws).
Proof.
  unfold written_node, build_reference.
  rewrite arg_values_written, kwarg_items_written.
  destruct (dict_update_last_wins (flat_map parameter_items ws)
              (written_items_hashable ws) []) as [d [E Hget]].
  exists d. rewrite E. split; [reflexivity|].
  intros k. rewrite Hget.
  destruct (last_value k (flat_map parameter_items ws)); reflexivity.
Qed.

(** X3: parsing the text of a template gives its tree.  For every template
    written as [{{name|...}}] with positional, keyword and empty parameters,
    whose values are atoms or again such templates, nested to any depth, and
    whose atoms are non-empty texts without [|], [{], [}] and [=]: [parse]
    on the text returns the node with the atomized name and one entry per
    parameter that is not empty, in order, whatever text follows the closing
    braces; [from_string] returns the reference with the positional values
    in order and kwargs mapping every key to the value of its last keyword
    parameter. *)
Theorem parse_rendered_template (nm : string) (ws : list parameter)
  (extra : string) :
  clean (Nested nm ws) = true ->
  parse (render (Nested nm ws) ++ extra)%string
    = Ok (Template (coerced nm) (flat_map parameter_entries ws)) /\
  exists kwargs,
    from_string (render (Nested nm ws) ++ extra)%string
      = Ok (TemplateReference (coerced nm) (flat_map parameter_args ws)
              kwargs) /\
    forall k, getitem kwargs k = last_value k (flat_map parameter_items ws).
Proof.
  intros Hc.
  assert (Hp : parse (render (Nested nm ws) ++ extra)%string
               = Ok (written_node nm ws)).
  { unfold parse, parse_stream. rewrite (lex_rendered nm ws extra Hc).
    rewrite template_then_rest. reflexivity. }
  split; [exact Hp|].
  destruct (reference_of_written nm ws) as [kwargs [E Hget]].
  exists kwargs. unfold from_string. rewrite Hp. split; assumption.
Qed.

Lemma parse_rendered_template_witness :
  parse "{{box|first| x = 1 ||{{in|a}}}} and {more"
    = Ok (Template (PyStr "box")
            [Arg (PyStr "first"); Kwarg (PyStr "x") (PyInt 1);
             Arg (PyDict (Template (PyStr "in") [Arg (PyStr "a")]))]) /\
  exists kwargs,
    from_string "{{box|first| x = 1 ||{{in|a}}}} and {more"
      = Ok (TemplateReference (PyStr "box")
              [PyStr "first"; PyDict (Template (PyStr "in") [Arg (PyStr "a")])]
              kwargs) /\
    forall k, getitem kwargs k
              = last_value k [(PyStr "x", PyInt 1)].
Proof.
  exact (parse_rendered_template "box"
           [Positional (Atom "first"); Keyword " x " (Atom " 1 "); Empty;
            Positional (Nested "in" [Positional (Atom "a")])]
           " and {more" eq_refl).
Defined.

(** X4: [match_template] reads exactly the tokens of a template.  Run on
    the tokens of a written template followed by any other tokens, it
    returns the node of the template and leaves the stream at the first
    token after the closing END, with nothing pushed back and no pushed
    token overwritten. *)
Theorem template_tokens_consumed (nm : string) (ws : list parameter)
  (rest : list Token) :
  match_template (call_bound (value_tokens (Nested nm ws) ++ rest))
    (new_TokenStream (value_tokens (Nested nm ws) ++ rest))
  = (Ok (Template (coerced nm) (flat_map parameter_entries ws)),
     mkStream rest None []) /\
  parse_tokens (value_tokens (Nested nm ws) ++ rest)
  = Ok (Template (coerced nm) (flat_map parameter_entries ws)).
Proof.
  split; [apply template_then_rest|].
  unfold parse_tokens. rewrite template_then_rest. reflexivity.
Qed.

(** ** The parser ends *)

Lemma dict_update_ends items : forall d, dict_update d items <> OutOfFuel.
Proof.
  induction items as [|[k v] items IH]; intros d; simpl; [discriminate|].
  destruct (hashable k); [apply IH|discriminate].
Qed.

Lemma build_reference_ends d : build_reference d <> OutOfFuel.
Proof.
  destruct d as [|nm ps]; simpl; [discriminate|].
  pose proof (dict_update_ends (kwarg_items ps) []) as H.
  destruct (dict_update [] (kwarg_items ps)); congruence.
Qed.

Lemma parse_tokens_ends tokens : parse_tokens tokens <> OutOfFuel.
Proof.
  unfold parse_tokens.
  set (ts := new_TokenStream tokens).
  assert (Hw : within (2 * List.length tokens) ts).
  { unfold within, ts. rewrite measure_new_TokenStream. lia. }
  destruct (proj1 (parser_finishes (call_bound tokens))
              (2 * List.length tokens)%nat (peek ts)
              ltac:(unfold call_bound; lia) ts (conj Hw eq_refl))
    as [[Hr _] _].
  exact Hr.
Qed.

(** X5: the parser ends on every input.  Whatever the tokens, the calls of
    [match_template] and the turns of the loop of [match_parameters] nest
    to a depth of at most four times the number of tokens plus one, so
    [parse] and [from_string] return or raise on every text. *)
Theorem parser_always_ends (s : string) (tokens : list Token) :
  parse_tokens tokens <> OutOfFuel /\
  parse s <> OutOfFuel /\
  from_string s <> OutOfFuel.
Proof.
  split; [apply parse_tokens_ends|].
  assert (Hp : parse s <> OutOfFuel).
  { unfold parse, parse_stream. rewrite lex_scan_map.
    apply parse_tokens_ends. }
  split; [exact Hp|]. unfold from_string.
  destruct (parse s) as [d|e|]; [apply build_reference_ends|discriminate|].
  congruence.
Qed.

(** ** Templates that are never closed *)

(** X6: a template that is opened and never closed does not parse.  For
    every text whose first token is BEGIN and whose tokens hold no END,
    [parse] raises [AssertionError] (from [match_end]) or
    [UnboundLocalError] (from the unbound [idx_cycle]), and [from_string]
    raises the same exception: no tree and no reference is returned. *)
Theorem unclosed_template_raises (s : string) :
  starts_with_BEGIN s = true -> never_closed s = true ->
  (parse s = Raise AssertionError /\ from_string s = Raise AssertionError) \/
  (parse s = Raise UnboundLocalError /\
   from_string s = Raise UnboundLocalError).
Proof.
  intros Hb Hc. unfold from_string.
  destruct (never_closed_never_returns s Hb Hc) as [-> | ->]; auto.
Qed.

Lemma unclosed_template_raises_witness :
  (parse "{{cite|title=a|{{b|c" = Raise AssertionError /\
   from_string "{{cite|title=a|{{b|c" = Raise AssertionError) \/
  (parse "{{cite|title=a|{{b|c" = Raise UnboundLocalError /\
   from_string "{{cite|title=a|{{b|c" = Raise UnboundLocalError).
Proof.
  apply unclosed_template_raises; reflexivity.
Defined.

(** ** The name of a template *)

Lemma bind_Raise {A B} (c : M A) (k : A -> M B) ts e :
  fst (c ts) = Raise e -> fst (bind c k ts) = Raise e.
Proof. unfold bind. destruct (c ts) as [[a|e'|] ts']; simpl; congruence. Qed.

Lemma bind_Ok {A B} (c : M A) (k : A -> M B) ts b :
  fst (bind c k ts) = Ok b ->
  exists a ts', c ts = (Ok a, ts') /\ fst (k a ts') = Ok b.
Proof.
  unfold bind. destruct (c ts) as [[a|e'|] ts']; simpl; try discriminate.
  intros H. exists a, ts'. split; [reflexivity|exact H].
Qed.

(** [match_template] after a BEGIN token and the ATOM token of the name. *)
Lemma template_named_by_atom fuel ts nm rest l :
  advance ts = (Ok begin_token, mkStream (atom_token nm :: rest) None l) ->
  match_template (S fuel) ts
  = (parameters <- match_parameters fuel [] None ;;
     match_end ;;;
     ret (Template (coerced nm) parameters)) (mkStream rest None l).
Proof.
  intros Hadv. cbn [match_template]. unfold bind at 1. rewrite Hadv.
  cbn [is_kind name begin_token kind_eqb negb].
  unfold bind at 1. unfold match_atom. unfold bind at 1. unfold advance at 1.
  cbn [next pushed iterator lost is_kind name atom_token kind_eqb negb ret value].
  unfold bind at 1. rewrite coerced_not_None. reflexivity.
Qed.

(** [match_template] after a BEGIN token followed by a second one: the name
    is the template that starts there. *)
Lemma template_named_by_template fuel ts rest l :
  advance ts = (Ok begin_token, mkStream (begin_token :: rest) None l) ->
  match_template (S fuel) ts
  = (nm <- (t <- match_template fuel ;; ret (PyDict t)) ;;
     parameters <- match_parameters fuel [] None ;;
     match_end ;;;
     ret (Template nm parameters)) (mkStream rest (Some begin_token) l).
Proof.
  intros Hadv. cbn [match_template]. unfold bind at 1. rewrite Hadv.
  cbn [is_kind name begin_token kind_eqb negb].
  unfold bind at 1. unfold match_atom. unfold bind at 1. unfold advance at 1.
  cbn [next pushed iterator lost is_kind name begin_token kind_eqb negb].
  unfold bind at 1. unfold push at 1. unfold set_pushed.
  cbn [pushed iterator lost]. unfold ret at 1. reflexivity.
Qed.

Lemma step_EQUAL fuel pairs ic rest l :
  match_parameters (S fuel) pairs ic (mkStream (equal_token :: rest) None l)
  = match_parameters fuel pairs ic (mkStream rest None l).
Proof. reflexivity. Qed.

(** The parameter loop entered with [idx_cycle] unbound, on EQUAL tokens
    followed by a value token. *)
Lemma unbound_after_equals n : forall fuel pairs t rest l,
  is_kind ATOM t || is_kind BEGIN t = true ->
  (n < fuel)%nat ->
  fst (match_parameters fuel pairs None
         (mkStream (repeat equal_token n ++ t :: rest) None l))
  = Raise UnboundLocalError.
Proof.
  induction n as [|n IH]; intros fuel pairs t rest l Ht Hfuel;
    (destruct fuel as [|fuel]; [lia|]).
  - apply unbound_idx_cycle, Ht.
  - cbn [repeat app]. rewrite step_EQUAL. apply IH; [exact Ht|lia].
Qed.

(** [match_template] on a pushed BEGIN token and the rest of a written
    template. *)
Lemma pushed_template_parsed nm ws fuel rest l :
  (List.length (flat_map parameter_tokens ws) + 3 <= fuel)%nat ->
  match_template fuel
    (mkStream (atom_token nm :: flat_map parameter_tokens ws
               ++ end_token :: rest) (Some begin_token) l)
  = (Ok (written_node nm ws), mkStream rest None l).
Proof.
  intros Hfuel. apply (template_parsed nm ws (all_written_parsed ws));
    [reflexivity|exact Hfuel].
Qed.

(** X7: a value right after the name is an error.  When the name of a
    template (an atom, or a template) is followed, after any number of [=],
    by an atom or by the start of a template, with no [|] in between, the
    parameter loop reads [idx_cycle] before any PARAMETER token has bound it
    and [parse] raises [UnboundLocalError], whatever tokens follow. *)
Theorem value_right_after_name (nm : string) (ws : list parameter) (n : nat)
  (t : Token) (rest : list Token) :
  is_kind ATOM t || is_kind BEGIN t = true ->
  parse_tokens (begin_token :: atom_token nm
                :: repeat equal_token n ++ t :: rest)
    = Raise UnboundLocalError /\
  parse_tokens (begin_token :: value_tokens (Nested nm ws)
                ++ repeat equal_token n ++ t :: rest)
    = Raise UnboundLocalError.
Proof.
  intros Ht. unfold parse_tokens. rewrite !call_bound_S. split.
  - rewrite (template_named_by_atom _ _ nm (repeat equal_token n ++ t :: rest) [])
      by reflexivity.
    apply bind_Raise, unbound_after_equals; [exact Ht|].
    cbn [List.length]. rewrite List.length_app, List.repeat_length.
    cbn [List.length]. lia.
  - cbn [value_tokens app]. rewrite <- !List.app_assoc. cbn [app].
    erewrite template_named_by_template by reflexivity.
    unfold bind at 1. unfold bind at 1.
    rewrite pushed_template_parsed.
    + unfold ret at 1. apply bind_Raise, unbound_after_equals; [exact Ht|].
      cbn [List.length]. rewrite !List.length_app. cbn [List.length].
      rewrite List.length_app, List.repeat_length. cbn [List.length]. lia.
    + cbn [List.length]. rewrite !List.length_app. cbn [List.length]. lia.
Qed.

Lemma value_right_after_name_witness :
  parse "{{a=b}}" = Raise UnboundLocalError /\
  parse "{{{{a|x}}=={{b}}}}" = Raise UnboundLocalError.
Proof.
  split.
  - exact (proj1 (value_right_after_name "a" [] 1 (atom_token "b")
                    [end_token] eq_refl)).
  - exact (proj2 (value_right_after_name "a" [Positional (Atom "x")] 2
                    begin_token [atom_token "b"; end_token; end_token]
                    eq_refl)).
Defined.

(** X8: the name of a template can be a template.  For written templates
    [{{nm|ws}}] and parameters [ws'], [parse] on the tokens of
    [{{{{nm|ws}}ws'}}] returns the node whose name is the node of
    [{{nm|ws}}] and whose entries are those of [ws'], whatever tokens
    follow. *)
Theorem template_as_name (nm : string) (ws ws' : list parameter)
  (rest : list Token) :
  parse_tokens (begin_token :: value_tokens (Nested nm ws)
                ++ flat_map parameter_tokens ws' ++ end_token :: rest)
  = Ok (Template
          (PyDict (Template (coerced nm) (flat_map parameter_entries ws)))
          (flat_map parameter_entries ws')).
Proof.
  unfold parse_tokens. rewrite call_bound_S.
  cbn [value_tokens app]. rewrite <- !List.app_assoc. cbn [app].
  erewrite template_named_by_template by reflexivity.
  unfold bind at 1. unfold bind at 1.
  rewrite pushed_template_parsed.
  - unfold ret at 1. unfold bind at 1.
    rewrite (parameters_loop ws' (all_written_parsed ws')).
    + unfold bind, match_end, advance, ret. simpl.
      rewrite classify_written_pairs. reflexivity.
    + cbn [List.length]. rewrite !List.length_app. cbn [List.length].
      rewrite List.length_app. cbn [List.length]. lia.
  - cbn [List.length]. rewrite !List.length_app. cbn [List.length]. lia.
Qed.

(** ** The empty node *)

Lemma template_after_BEGIN fuel ts t d :
  is_kind BEGIN t = true -> peek ts = t ->
  fst (match_template fuel ts) = Ok d -> d <> EmptyDict.
Proof.
  intros Hb Hpeek. destruct fuel as [|fuel]; [discriminate|].
  cbn [match_template]. intros H.
  apply bind_Ok in H as [t' [ts1 [Hadv H]]].
  assert (t' = t) as ->.
  { destruct (advance_peek ts) as [ts2 [E _]]. congruence. }
  rewrite Hb in H. cbn [negb] in H.
  apply bind_Ok in H as [nm [ts2 [_ H]]].
  apply bind_Ok in H as [nm' [ts3 [_ H]]].
  apply bind_Ok in H as [ps [ts4 [_ H]]].
  apply bind_Ok in H as [u [ts5 [_ H]]].
  unfold ret in H. simpl in H. injection H as <-. discriminate.
Qed.

Lemma parse_EmptyDict_iff s :
  parse s = Ok EmptyDict <-> starts_with_BEGIN s = false.
Proof.
  unfold starts_with_BEGIN, parse, parse_stream. rewrite lex_scan_map.
  destruct (map lexeme_token (fst (scan s))) as [|t rest].
  - split; reflexivity.
  - split.
    + intros H. destruct (is_kind BEGIN t) eqn:Hb; [|reflexivity].
      exfalso.
      exact (template_after_BEGIN _ (new_TokenStream (t :: rest)) t _ Hb
               eq_refl H eq_refl).
    + intros Hb. rewrite call_bound_S. cbn [match_template].
      unfold bind, advance, next, new_TokenStream. simpl. rewrite Hb.
      reflexivity.
Qed.

(** X9: [parse] returns the empty node exactly on the texts that do not
    start with a template.  When the first token is BEGIN, [parse] raises
    or returns a node with a name and a parameter list; when it is not (or
    there is no token), [parse] returns the empty node. *)
Theorem empty_node_iff_no_template (s : string) :
  parse s = Ok EmptyDict <-> starts_with_BEGIN s = false.
Proof. apply parse_EmptyDict_iff. Qed.

(** ** Looking ahead *)

Lemma advance_pushed_back ts t ts1 :
  advance ts = (Ok t, ts1) -> advance (set_pushed t ts1) = (Ok t, ts1).
Proof.
  destruct ts as [it [p|] l]; [|destruct it as [|t0 it]];
    unfold advance, next, set_pushed; cbn [pushed iterator lost];
    intros [= <- <-]; reflexivity.
Qed.

(** X10: looking ahead does not consume.  [match_atom] on a stream whose
    next token is not an ATOM returns [None], and [match_template] on a
    stream whose next token is not BEGIN returns the empty node; either puts
    the token it read back, so that the next [advance] returns that token
    again and leaves the stream as it would have from the start.  On an
    ATOM, [match_atom] returns its value and the token is consumed. *)
Theorem lookahead_puts_back (ts : TokenStream) (fuel : nat) :
  (is_kind ATOM (peek ts) = false ->
   fst (match_atom ts) = Ok PyNone /\
   advance (snd (match_atom ts)) = advance ts) /\
  (is_kind ATOM (peek ts) = true ->
   match_atom ts = (Ok (value (peek ts)), snd (advance ts))) /\
  (is_kind BEGIN (peek ts) = false ->
   fst (match_template (S fuel) ts) = Ok EmptyDict /\
   advance (snd (match_template (S fuel) ts)) = advance ts).
Proof.
  destruct (advance_peek ts) as [ts1 [Hadv _]].
  pose proof (advance_pushed_back _ _ _ Hadv) as Hback.
  split; [|split]; intros Hk.
  - unfold match_atom, bind. rewrite Hadv, Hk. unfold push, ret.
    cbn [negb fst snd]. rewrite Hback. split; reflexivity.
  - unfold match_atom, bind. rewrite Hadv, Hk. reflexivity.
  - cbn [match_template]. unfold bind. rewrite Hadv, Hk. unfold push, ret.
    cbn [negb fst snd]. rewrite Hback. split; reflexivity.
Qed.

Lemma lookahead_puts_back_witness :
  (fst (match_atom (new_TokenStream [end_token])) = Ok PyNone /\
   advance (snd (match_atom (new_TokenStream [end_token])))
   = advance (new_TokenStream [end_token])) /\
  match_atom (new_TokenStream [atom_token "a"; end_token])
  = (Ok (PyStr "a"), new_TokenStream [end_token]) /\
  (fst (match_template 1 (new_TokenStream [end_token])) = Ok EmptyDict /\
   advance (snd (match_template 1 (new_TokenStream [end_token])))
   = advance (new_TokenStream [end_token])).
Proof.
  split; [|split].
  - exact (proj1 (lookahead_puts_back (new_TokenStream [end_token]) 0)
             eq_refl).
  - exact (proj1 (proj2 (lookahead_puts_back
                           (new_TokenStream [atom_token "a"; end_token]) 0))
             eq_refl).
  - exact (proj2 (proj2 (lookahead_puts_back (new_TokenStream [end_token]) 0))
             eq_refl).
Defined.

(** ** The reference builder *)

Lemma dict_update_unhashable items :
  forallb (fun kv => hashable (fst kv)) items = false ->
  forall d, dict_update d items = Raise TypeError.
Proof.
  induction items as [|[k v] items IH]; [discriminate|].
  cbn [forallb dict_update fst]. intros H d.
  destruct (hashable k); [apply IH, H|reflexivity].
Qed.

Lemma entries_split ps :
  (List.length (arg_values ps) + List.length (kwarg_items ps)
   = List.length ps)%nat.
Proof. induction ps as [|[v|k v] ps IH]; simpl; lia. Qed.

(** X11: what the reference builder makes of a node.  For every node with a
    name and a parameter list, the body of [from_string] raises [TypeError]
    when the key of a keyword entry is a template node (a dict, which
    cannot be a dict key), and no other error; otherwise it returns the
    reference with the name of the node, the values of the positional
    entries in order, and kwargs in which every key maps to the value of the
    last keyword entry with an equal key.  Every entry goes to args or to
    the items given to kwargs. *)
Theorem reference_of_node (nm : obj) (ps : list param) :
  (List.length (arg_values ps) + List.length (kwarg_items ps)
   = List.length ps)%nat /\
  match build_reference (Template nm ps) with
  | Ok (TemplateReference n args kwargs) =>
      forallb (fun kv => hashable (fst kv)) (kwarg_items ps) = true /\
      n = nm /\ args = arg_values ps /\
      forall k, getitem kwargs k = last_value k (kwarg_items ps)
  | Raise e =>
      e = TypeError /\
      forallb (fun kv => hashable (fst kv)) (kwarg_items ps) = false
  | OutOfFuel => False
  end.
Proof.
  split; [apply entries_split|]. unfold build_reference.
  destruct (forallb (fun kv => hashable (fst kv)) (kwarg_items ps)) eqn:Hh.
  - destruct (dict_update_last_wins _ Hh []) as [d [E Hget]]. rewrite E.
    repeat split. intros k. rewrite Hget.
    destruct (last_value k (kwarg_items ps)); reflexivity.
  - rewrite (dict_update_unhashable _ Hh). split; reflexivity.
Qed.

(** ** White space around an atom *)

Lemma lstrip_all_space pad : all_space pad = true -> Py.lstrip pad = EmptyString.
Proof.
  induction pad as [|c pad IH]; simpl; [reflexivity|].
  intros H. apply andb_prop in H as [Hc Hp]. rewrite Hc. apply IH, Hp.
Qed.

Lemma rstrip_all_space pad : all_space pad = true -> Py.rstrip pad = EmptyString.
Proof.
  induction pad as [|c pad IH]; simpl; [reflexivity|].
  intros H. apply andb_prop in H as [Hc Hp]. rewrite (IH Hp), Hc. reflexivity.
Qed.

Lemma lstrip_pad pad y :
  all_space pad = true -> Py.lstrip (pad ++ y)%string = Py.lstrip y.
Proof.
  induction pad as [|c pad IH]; simpl; [reflexivity|].
  intros H. apply andb_prop in H as [Hc Hp]. rewrite Hc. apply IH, Hp.
Qed.

Lemma rstrip_pad y pad :
  all_space pad = true -> Py.rstrip (y ++ pad)%string = Py.rstrip y.
Proof.
  intros Hp. induction y as [|c y IH]; simpl.
  - apply rstrip_all_space, Hp.
  - rewrite IH. reflexivity.
Qed.

Lemma strip_pad_right x pad :
  all_space pad = true -> Py.strip (x ++ pad)%string = Py.strip x.
Proof.
  intros Hp. unfold Py.strip. induction x as [|c x IH]; simpl.
  - rewrite (lstrip_all_space pad Hp). reflexivity.
  - destruct (Py.is_space c); [exact IH|].
    apply (rstrip_pad (String c x) pad Hp).
Qed.

Lemma strip_padded pad1 x pad2 :
  all_space pad1 = true -> all_space pad2 = true ->
  Py.strip (pad1 ++ x ++ pad2)%string = Py.strip x.
Proof.
  intros H1 H2. unfold Py.strip at 1. rewrite (lstrip_pad pad1 _ H1).
  apply (strip_pad_right x pad2 H2).
Qed.

Lemma coerced_strip x y : Py.strip x = Py.strip y -> coerced x = coerced y.
Proof. unfold coerced. intros ->. reflexivity. Qed.

(** X12: [atomize] does not see the white space around a text.  For all
    texts of white space only [pad1] and [pad2] (spaces, tabs, line feeds,
    vertical tabs, form feeds, carriage returns): the padded text is
    atomized as the text itself; the padding alone is atomized as the empty
    string; and the padded decimal form of any integer, however large, is
    atomized as that integer. *)
Theorem atomize_ignores_padding (pad1 pad2 x : string) (n : Z) :
  all_space pad1 = true -> all_space pad2 = true ->
  atomize (pad1 ++ x ++ pad2)%string = atomize x /\
  atomize (pad1 ++ pad2)%string = Ok (PyStr EmptyString) /\
  atomize (pad1 ++ Py.str_int n ++ pad2)%string = Ok (PyInt n).
Proof.
  intros H1 H2. rewrite !atomize_coerced. split; [|split]; f_equal.
  - apply coerced_strip, strip_padded; assumption.
  - change (pad1 ++ pad2)%string with (pad1 ++ EmptyString ++ pad2)%string.
    rewrite (coerced_strip _ EmptyString (strip_padded _ _ _ H1 H2)).
    reflexivity.
  - rewrite (coerced_strip _ _ (strip_padded _ (Py.str_int n) _ H1 H2)).
    apply coerced_str_int.
Qed.

Lemma atomize_ignores_padding_witness :
  atomize "  3.5 " = atomize "3.5" /\
  atomize "   " = Ok (PyStr EmptyString) /\
  atomize "  -12345678901234567890123 " = Ok (PyInt (-12345678901234567890123)).
Proof.
  exact (atomize_ignores_padding "  " " " "3.5" (-12345678901234567890123)
           eq_refl eq_refl).
Defined.

(** ** A keyword parameter with an empty side *)

Lemma turns_le ws : (turns ws <= List.length (flat_map parameter_tokens ws))%nat.
Proof.
  induction ws as [|p ws IH]; [reflexivity|].
  cbn [turns flat_map]. rewrite List.length_app.
  destruct p as [|v|k v]; cbn [parameter_turns parameter_tokens List.length];
    try pose proof (value_tokens_not_nil v); lia.
Qed.

(** The parameter loop on written parameters followed by any tokens: it
    goes on after them with their pairs. *)
Lemma parameters_prefix ws :
  Forall (on_value parsed_in_loop) ws ->
  forall fuel pairs ic R l,
    (List.length (flat_map parameter_tokens ws) <= fuel)%nat ->
    exists ic',
      match_parameters (turns ws + fuel) pairs ic
        (mkStream (flat_map parameter_tokens ws ++ R) None l)
      = match_parameters fuel (pairs ++ flat_map parameter_pairs ws) ic'
          (mkStream R None l).
Proof.
  induction 1 as [|p ws Hv Hws IH]; intros fuel pairs ic R l Hfuel.
  - exists ic. cbn [turns flat_map app Nat.add]. rewrite List.app_nil_r.
    reflexivity.
  - cbn [flat_map] in *. rewrite List.length_app in Hfuel.
    rewrite <- List.app_assoc.
    destruct p as [|v|k v];
      cbn [turns parameter_turns parameter_tokens parameter_pairs on_value
           List.length app Nat.add] in *.
    + rewrite step_PARAMETER. apply IH. lia.
    + rewrite step_PARAMETER.
      rewrite (Hv (turns ws + fuel)%nat 0%nat _
                 (pairs ++ [(value_obj v, PyNone)]))
        by (try lia; apply send_slot0, value_obj_not_None).
      destruct (IH fuel (pairs ++ [(value_obj v, PyNone)]) (Some (1 - 0)%nat)
                  R l ltac:(lia)) as [ic' E].
      exists ic'. rewrite E, <- List.app_assoc. reflexivity.
    + rewrite step_PARAMETER, step_key.
      rewrite (Hv (turns ws + fuel)%nat 1%nat _
                 (pairs ++ [(coerced k, value_obj v)]))
        by (try lia; apply send_slot1, value_obj_not_None).
      destruct (IH fuel (pairs ++ [(coerced k, value_obj v)])
                  (Some (1 - 1)%nat) R l ltac:(lia)) as [ic' E].
      exists ic'. rewrite E, <- List.app_assoc. reflexivity.
Qed.

Lemma match_end_on_END rest l (nm : obj) (ps : list param) :
  (match_end ;;; ret (Template nm ps)) (mkStream rest (Some end_token) l)
  = (Ok (Template nm ps), mkStream rest None l).
Proof. reflexivity. Qed.

(** X13: a keyword parameter with an empty side is positional.  In a
    written template, among any parameters before and after it, a parameter
    [|k=] with a key and no value makes the positional entry [Arg(k)], and
    a parameter [|=v] with a value and no key makes the positional entry
    [Arg(v)]: neither makes a keyword entry. *)
Theorem keyword_with_an_empty_side (nm k : string) (v : written)
  (ws1 ws2 : list parameter) (rest : list Token) :
  parse_tokens (begin_token :: atom_token nm :: flat_map parameter_tokens ws1
                ++ parameter_token :: atom_token k :: equal_token
                :: flat_map parameter_tokens ws2 ++ end_token :: rest)
  = Ok (Template (coerced nm)
          (flat_map parameter_entries ws1
           ++ Arg (coerced k) :: flat_map parameter_entries ws2)) /\
  parse_tokens (begin_token :: atom_token nm :: flat_map parameter_tokens ws1
                ++ parameter_token :: equal_token :: value_tokens v
                ++ flat_map parameter_tokens ws2 ++ end_token :: rest)
  = Ok (Template (coerced nm)
          (flat_map parameter_entries ws1
           ++ Arg (value_obj v) :: flat_map parameter_entries ws2)).
Proof.
  pose proof (turns_le ws1) as Hturns.
  pose proof (value_tokens_not_nil v) as Hv.
  unfold parse_tokens. rewrite !call_bound_S. split.
  - rewrite (template_named_by_atom _ _ nm
               (flat_map parameter_tokens ws1
                ++ parameter_token :: atom_token k :: equal_token
                :: flat_map parameter_tokens ws2 ++ end_token :: rest) [])
      by reflexivity.
    unfold bind at 1.
    match goal with
    | |- context [match_parameters ?F _ _ _] =>
        replace F with (turns ws1 + (F - turns ws1))%nat
          by (cbn [List.length]; rewrite List.length_app; lia);
        destruct (parameters_prefix ws1 (all_written_parsed ws1)
                    (F - turns ws1)%nat [] None
                    (parameter_token :: atom_token k :: equal_token
                     :: flat_map parameter_tokens ws2 ++ end_token :: rest) [])
          as [ic' E];
        [cbn [List.length]; rewrite List.length_app; lia|];
        rewrite E;
        assert (Hf : (List.length (flat_map parameter_tokens ws2) + 3
                      < F - turns ws1)%nat)
          by (cbn [List.length]; rewrite !List.length_app;
              cbn [List.length]; rewrite List.length_app;
              cbn [List.length]; lia);
        destruct (F - turns ws1)%nat as [|[|[|f]]]; try lia
    end.
    rewrite step_PARAMETER, step_key.
    rewrite (parameters_loop ws2 (all_written_parsed ws2)) by lia.
    rewrite match_end_on_END. cbn [fst app].
    rewrite !List.map_app, !classify_written_pairs, <- List.app_assoc.
    reflexivity.
  - rewrite (template_named_by_atom _ _ nm
               (flat_map parameter_tokens ws1
                ++ parameter_token :: equal_token :: value_tokens v
                ++ flat_map parameter_tokens ws2 ++ end_token :: rest) [])
      by reflexivity.
    unfold bind at 1.
    match goal with
    | |- context [match_parameters ?F _ _ _] =>
        replace F with (turns ws1 + (F - turns ws1))%nat
          by (cbn [List.length]; rewrite List.length_app; lia);
        destruct (parameters_prefix ws1 (all_written_parsed ws1)
                    (F - turns ws1)%nat [] None
                    (parameter_token :: equal_token :: value_tokens v
                     ++ flat_map parameter_tokens ws2 ++ end_token :: rest) [])
          as [ic' E];
        [cbn [List.length]; rewrite List.length_app; lia|];
        rewrite E;
        assert (Hf : (List.length (value_tokens v)
                      + List.length (flat_map parameter_tokens ws2) + 3
                      < F - turns ws1)%nat)
          by (cbn [List.length]; rewrite !List.length_app;
              cbn [List.length]; rewrite !List.length_app;
              cbn [List.length]; lia);
        destruct (F - turns ws1)%nat as [|[|[|f]]]; try lia
    end.
    rewrite step_PARAMETER, step_EQUAL.
    rewrite (written_parsed v f 0%nat _
               (([] ++ flat_map parameter_pairs ws1) ++ [(value_obj v, PyNone)]))
      by (try lia; apply send_slot0, value_obj_not_None).
    rewrite (parameters_loop ws2 (all_written_parsed ws2)) by lia.
    rewrite match_end_on_END. cbn [fst app].
    rewrite !List.map_app, !classify_written_pairs, <- List.app_assoc.
    reflexivity.
Qed.

(** ** Keyword entries and their keys *)

Lemma kwarg_items_app ps qs :
  kwarg_items (ps ++ qs) = kwarg_items ps ++ kwarg_items qs.
Proof.
  induction ps as [|[v|k v] ps IH]; simpl; [reflexivity|exact IH|].
  rewrite IH. reflexivity.
Qed.

(** The parameter loop on parameters whose keys may be templates, up to
    the END token: the pairs of the parameters, in order. *)
Lemma keyed_loop qs :
  forall fuel pairs ic rest l,
    (2 * List.length (flat_map keyed_tokens qs) < fuel)%nat ->
    match_parameters fuel pairs ic
      (mkStream (flat_map keyed_tokens qs ++ end_token :: rest) None l)
    = (Ok (map classify (pairs ++ flat_map keyed_pairs qs)),
       mkStream rest (Some end_token) l).
Proof.
  induction qs as [|q qs IH]; intros fuel pairs ic rest l Hfuel.
  - destruct fuel as [|fuel]; [simpl in Hfuel; lia|].
    cbn [flat_map app]. rewrite step_END, List.app_nil_r. reflexivity.
  - cbn [flat_map] in *. rewrite List.length_app in Hfuel.
    rewrite <- List.app_assoc.
    destruct q as [p|knm kws v]; cbn [keyed_tokens keyed_pairs] in *.
    + pose proof (turns_le [p]) as Hturns.
      cbn [turns flat_map] in Hturns.
      rewrite List.app_nil_r, Nat.add_0_r in Hturns.
      replace fuel with (turns [p] + (fuel - parameter_turns p))%nat
        by (cbn [turns]; lia).
      destruct (parameters_prefix [p] (all_written_parsed [p])
                  (fuel - parameter_turns p)%nat pairs ic
                  (flat_map keyed_tokens qs ++ end_token :: rest) l)
        as [ic' E].
      { cbn [flat_map]. rewrite List.app_nil_r. lia. }
      cbn [flat_map] in E. rewrite !List.app_nil_r in E. rewrite E.
      rewrite IH by lia. rewrite <- List.app_assoc. reflexivity.
    + pose proof (value_tokens_not_nil v) as Hv.
      pose proof (value_tokens_not_nil (Nested knm kws)) as Hk.
      cbn [List.length] in Hfuel. rewrite !List.length_app in Hfuel.
      cbn [List.length] in Hfuel.
      cbn [app]. rewrite <- List.app_assoc. cbn [app].
      do 4 (destruct fuel as [|fuel]; [lia|]).
      rewrite step_PARAMETER.
      rewrite (written_parsed (Nested knm kws) (S (S fuel)) 0%nat _
                 (pairs ++ [(value_obj (Nested knm kws), PyNone)]))
        by (try lia; apply send_slot0, value_obj_not_None).
      rewrite step_EQUAL.
      rewrite (written_parsed v fuel 1%nat _
                 (pairs ++ [(value_obj (Nested knm kws), value_obj v)]))
        by (try lia; apply send_slot1, value_obj_not_None).
      rewrite IH by lia. rewrite <- List.app_assoc. reflexivity.
Qed.

Lemma classify_keyed_pairs qs :
  map classify (flat_map keyed_pairs qs) = flat_map keyed_entries qs.
Proof.
  induction qs as [|q qs IH]; [reflexivity|].
  cbn [flat_map]. rewrite List.map_app, IH. f_equal.
  destruct q as [p|knm kws v]; [apply classify_parameter_pairs|].
  unfold classify. cbn. rewrite value_obj_not_None. reflexivity.
Qed.

(** [parse] on the tokens of a template whose keyword keys may be
    templates. *)
Lemma parse_keyed_template nm qs :
  parse_tokens (begin_token :: atom_token nm
                :: flat_map keyed_tokens qs ++ [end_token])
  = Ok (Template (coerced nm) (flat_map keyed_entries qs)).
Proof.
  unfold parse_tokens. rewrite call_bound_S.
  rewrite (template_named_by_atom _ _ nm
             (flat_map keyed_tokens qs ++ [end_token]) [])
    by reflexivity.
  unfold bind at 1.
  rewrite keyed_loop
    by (cbn [List.length]; rewrite List.length_app; cbn [List.length]; lia).
  rewrite match_end_on_END. cbn [fst app].
  rewrite classify_keyed_pairs. reflexivity.
Qed.

Lemma keyed_items_unhashable qs :
  existsb is_Keyed qs = true ->
  forallb (fun kv => hashable (fst kv))
    (kwarg_items (flat_map keyed_entries qs)) = false.
Proof.
  induction qs as [|q qs IH]; [discriminate|].
  cbn [existsb flat_map]. rewrite kwarg_items_app, List.forallb_app.
  destruct q as [p|knm kws v]; cbn [is_Keyed orb keyed_entries].
  - intros H. rewrite (IH H). apply andb_false_r.
  - intros _. reflexivity.
Qed.

(** C6, amended: the node keeps every keyword entry, in source order, and
    the reference builder lets the last of equal keys win, without error
    unless a key is a template.  For every template written as a name and a
    list of positional and keyword parameters, whose keys are atoms and
    whose values are atoms or again such templates, the node's parameter
    list has the entries of the parameters in source order, keyword entries
    with the same key included, and the reference builder succeeds, keeps
    the positional values in order and maps every key to the value of the
    last keyword entry with an equal key; on [{{t|k=1|k=2}}] both entries
    are in the node and kwargs maps [k] to 2.  When keyword parameters
    whose key is a template stand among the parameters, as in
    [{{t|{{a}}=1|{{a}}=2}}], the node still has all the entries in order,
    but the reference builder raises [TypeError].  On any node at all the
    reference builder raises [TypeError] when the key of a keyword entry is
    a template node, and no other error; otherwise every key of kwargs maps
    to the value of the last keyword entry with an equal key. *)
Theorem keyword_entries_kept_last_wins (nm : string) (ws : list parameter)
    (qs : list keyed) :
  parse_tokens (value_tokens (Nested nm ws))
    = Ok (Template (coerced nm) (flat_map parameter_entries ws)) /\
  (exists kwargs,
     build_reference (Template (coerced nm) (flat_map parameter_entries ws))
       = Ok (TemplateReference (coerced nm) (flat_map parameter_args ws)
               kwargs) /\
     forall k, getitem kwargs k
               = last_value k (flat_map parameter_items ws)) /\
  parse_tokens (begin_token :: atom_token nm
                :: flat_map keyed_tokens qs ++ [end_token])
    = Ok (Template (coerced nm) (flat_map keyed_entries qs)) /\
  (existsb is_Keyed qs = true ->
   build_reference (Template (coerced nm) (flat_map keyed_entries qs))
   = Raise TypeError) /\
  (forall (node_name : obj) (ps : list param),
     match build_reference (Template node_name ps) with
     | Ok (TemplateReference n args kwargs) =>
         forallb (fun kv => hashable (fst kv)) (kwarg_items ps) = true /\
         n = node_name /\ args = arg_values ps /\
         forall k, getitem kwargs k = last_value k (kwarg_items ps)
     | Raise e =>
         e = TypeError /\
         forallb (fun kv => hashable (fst kv)) (kwarg_items ps) = false
     | OutOfFuel => False
     end) /\
  lex_scan "{{t|k=1|k=2}}"
    = Ok (value_tokens (Nested "t" [Keyword "k" (Atom "1");
                                    Keyword "k" (Atom "2")]),
          EmptyString) /\
  parse "{{t|k=1|k=2}}"
    = Ok (Template (PyStr "t")
            [Kwarg (PyStr "k") (PyInt 1); Kwarg (PyStr "k") (PyInt 2)]) /\
  from_string "{{t|k=1|k=2}}"
    = Ok (TemplateReference (PyStr "t") [] [(PyStr "k", PyInt 2)]) /\
  lex_scan "{{t|{{a}}=1|{{a}}=2}}"
    = Ok (begin_token :: atom_token "t"
          :: flat_map keyed_tokens [Keyed "a" [] (Atom "1");
                                    Keyed "a" [] (Atom "2")]
          ++ [end_token],
          EmptyString).
Proof.
  split; [apply parse_written_template|].
  split; [|split; [apply parse_keyed_template|split; [|split]]].
  - unfold build_reference.
    rewrite arg_values_written, kwarg_items_written.
    destruct (dict_update_last_wins (flat_map parameter_items ws)
                (written_items_hashable ws) []) as [d [E Hget]].
    exists d. rewrite E. split; [reflexivity|].
    intros k. rewrite Hget.
    destruct (last_value k (flat_map parameter_items ws)); reflexivity.
  - intros Hq. unfold build_reference.
    rewrite (dict_update_unhashable _ (keyed_items_unhashable qs Hq)).
    reflexivity.
  - intros node_name ps. unfold build_reference.
    destruct (forallb (fun kv => hashable (fst kv)) (kwarg_items ps)) eqn:Hh.
    + destruct (dict_update_last_wins _ Hh []) as [d [E Hget]]. rewrite E.
      repeat split. intros k. rewrite Hget.
      destruct (last_value k (kwarg_items ps)); reflexivity.
    + rewrite (dict_update_unhashable _ Hh). split; reflexivity.
  - repeat split; vm_compute; reflexivity.
Qed.

(** C6 as stated fails on a key that is a template: on
    [{{t|{{a}}=1|{{a}}=2}}] the parser returns the node with both keyword
    entries, whose keys are the node of [{{a}}], and the reference builder
    raises [TypeError], as a dict cannot be a key of kwargs. *)
Lemma template_key_raises_TypeError :
  parse "{{t|{{a}}=1|{{a}}=2}}"
    = Ok (Template (PyStr "t")
            [Kwarg (PyDict (Template (PyStr "a") [])) (PyInt 1);
             Kwarg (PyDict (Template (PyStr "a") [])) (PyInt 2)]) /\
  from_string "{{t|{{a}}=1|{{a}}=2}}" = Raise TypeError.
Proof. vm_compute. split; reflexivity. Qed.

(** ** The exceptions of the parser *)

Lemma raises_only_bind {A B} (c : M A) (k : A -> M B) :
  raises_only c -> (forall a, raises_only (k a)) -> raises_only (bind c k).
Proof.
  intros Hc Hk ts. unfold bind. specialize (Hc ts).
  destruct (c ts) as [[a|e'|] ts']; cbn [fst] in *.
  - apply Hk.
  - intros e [= <-]. apply (Hc e'). reflexivity.
  - intros e. discriminate.
Qed.

Lemma raises_only_ret {A} (a : A) : raises_only (ret a).
Proof. intros ts e. discriminate. Qed.

Lemma raises_only_lift {A} (r : result A) : parser_exn r -> raises_only (lift r).
Proof. intros H ts. exact H. Qed.

Lemma raises_only_advance {A} (k : Token -> M A) :
  (forall t, raises_only (k t)) -> raises_only (bind advance k).
Proof.
  intros Hk ts. unfold bind.
  destruct (advance_spec ts) as [t [ts' [E _]]]. rewrite E. apply Hk.
Qed.

Lemma raises_only_push {A} t (k : M A) :
  raises_only k -> raises_only (bind (push t) (fun _ => k)).
Proof. intros Hk ts. unfold bind, push. apply Hk. Qed.

Lemma raises_only_match_atom : raises_only match_atom.
Proof.
  apply raises_only_advance. intros t.
  destruct (negb (is_kind ATOM t)); [|apply raises_only_ret].
  apply raises_only_push, raises_only_ret.
Qed.

Lemma raises_only_match_end : raises_only match_end.
Proof.
  apply raises_only_advance. intros t.
  destruct (is_kind END t); [apply raises_only_ret|].
  intros ts e [= <-]. left. reflexivity.
Qed.

Lemma raises_only_next_idx ic : raises_only (next_idx ic).
Proof.
  destruct ic; [apply raises_only_ret|].
  intros ts e [= <-]. right. reflexivity.
Qed.

Lemma parser_raises fuel :
  raises_only (match_template fuel) /\
  forall pairs ic, raises_only (match_parameters fuel pairs ic).
Proof.
  induction fuel as [|fuel [IHt IHp]].
  - split; [|intros pairs ic]; intros ts e; discriminate.
  - split.
    + cbn [match_template]. apply raises_only_advance. intros t.
      destruct (negb (is_kind BEGIN t)).
      * apply raises_only_push, raises_only_ret.
      * apply raises_only_bind; [apply raises_only_match_atom|]. intros nm.
        apply raises_only_bind.
        { destruct (is_None nm); [|apply raises_only_ret].
          apply raises_only_bind; [apply IHt|]. intros d.
          apply raises_only_ret. }
        intros nm'. apply raises_only_bind; [apply IHp|]. intros ps.
        apply raises_only_bind; [apply raises_only_match_end|]. intros _.
        apply raises_only_ret.
    + intros pairs ic. cbn [match_parameters].
      apply raises_only_advance. intros t.
      destruct (name t) as [[| | | |]|].
      * apply raises_only_push.
        apply raises_only_bind; [apply raises_only_next_idx|]. intros i.
        apply raises_only_bind; [apply IHt|]. intros d.
        apply raises_only_bind;
          [apply raises_only_lift, send_parser_exn|]. intros ps. apply IHp.
      * apply raises_only_push, raises_only_ret.
      * apply raises_only_bind; [apply raises_only_next_idx|]. intros i.
        apply raises_only_bind;
          [apply raises_only_lift, send_parser_exn|]. intros ps. apply IHp.
      * apply IHp.
      * apply raises_only_bind;
          [apply raises_only_lift, send_parser_exn|]. intros ps. apply IHp.
      * apply raises_only_push, raises_only_ret.
Qed.

Lemma dict_update_raises items : forall d e,
  dict_update d items = Raise e -> e = TypeError.
Proof.
  induction items as [|[k v] items IH]; intros d e; simpl; [discriminate|].
  destruct (hashable k); [apply IH|]. intros [= <-]. reflexivity.
Qed.

Lemma parse_raises s e :
  parse s = Raise e -> e = AssertionError \/ e = UnboundLocalError.
Proof.
  unfold parse, parse_stream. rewrite lex_scan_map.
  apply (proj1 (parser_raises _)).
Qed.

(** X14: the exceptions of the parser and of the reference builder.  On
    every token sequence the parser raises nothing but [AssertionError] and
    [UnboundLocalError], and on every node the reference builder raises
    nothing but [KeyError] and [TypeError].  So on every byte string text,
    which the lexer always turns into tokens, [parse] raises nothing but the
    first two and [from_string] nothing but these four: neither the
    [RuntimeError] nor the [UnicodeEncodeError] of [atomize] is among them.
    [from_string] raises [KeyError] exactly on the texts that do not start
    with a template. *)
Theorem exceptions_of_from_string (s : string) (tokens : list Token)
    (node : template) :
  (forall e, parse_tokens tokens = Raise e ->
             e = AssertionError \/ e = UnboundLocalError) /\
  (forall e, build_reference node = Raise e ->
             e = KeyError \/ e = TypeError) /\
  (forall e, parse s = Raise e ->
             e = AssertionError \/ e = UnboundLocalError) /\
  (forall e, from_string s = Raise e ->
             e = AssertionError \/ e = UnboundLocalError \/
             e = KeyError \/ e = TypeError) /\
  (from_string s = Raise KeyError <-> starts_with_BEGIN s = false).
Proof.
  split; [intros e; apply (proj1 (parser_raises _))|].
  split.
  { intros e. destruct node as [|nm ps]; cbn [build_reference].
    - intros [= <-]. auto.
    - pose proof (dict_update_raises (kwarg_items ps) [] e) as Hd.
      destruct (dict_update [] (kwarg_items ps)); try discriminate.
      intros [= ->]. rewrite Hd; auto. }
  split; [intros e; apply parse_raises|]. split.
  - intros e. unfold from_string.
    pose proof (parse_raises s) as Hp.
    destruct (parse s) as [[|nm ps]|e'|]; cbn [build_reference].
    + intros [= <-]. auto.
    + pose proof (dict_update_raises (kwarg_items ps) [] e) as Hd.
      destruct (dict_update [] (kwarg_items ps)); try discriminate.
      intros [= ->]. rewrite Hd; auto.
    + intros [= <-]. destruct (Hp e' eq_refl); auto.
    + discriminate.
  - rewrite <- parse_EmptyDict_iff. unfold from_string.
    pose proof (parse_raises s) as Hp.
    destruct (parse s) as [[|nm ps]|e'|]; cbn [build_reference].
    + split; reflexivity.
    + split; [|discriminate].
      pose proof (dict_update_raises (kwarg_items ps) [] KeyError) as Hd.
      destruct (dict_update [] (kwarg_items ps)); try discriminate.
      intros [= ->]. discriminate (Hd eq_refl).
    + split; [|discriminate]. intros [= ->].
      destruct (Hp KeyError eq_refl); discriminate.
    + split; discriminate.
Qed.

(** * Properties of the models *)

(** ** Text *)

Section Text.

Local Open Scope N_scope.

Variable p : N -> bool.

Lemma without_prefix_app sep tail :
  Models.without_prefix sep (sep ++ tail) = Some tail.
Proof.
  induction sep as [|c sep IH]; simpl; [reflexivity|].
  rewrite N.eqb_refl. exact IH.
Qed.

Lemma find_colon_spec s :
  match Models.find (Models.lit ":") s with
  | Some (h, t) => no_colon h = true /\ s = h ++ 58 :: t
  | None => no_colon s = true
  end.
Proof.
  induction s as [|c s IH]; [reflexivity|].
  cbn [Models.find Models.lit Models.without_prefix list_ascii_of_string map].
  change (N_of_ascii ":") with 58.
  destruct (N.eqb_spec 58 c) as [<-|Hc].
  - split; reflexivity.
  - change (Models.find [58] s) with (Models.find (Models.lit ":") s).
    assert (Hc' : negb (c =? 58) = true).
    { apply negb_true_iff, N.eqb_neq. congruence. }
    destruct (Models.find (Models.lit ":") s) as [[h t]|].
    + destruct IH as [Hh ->]. split; [|reflexivity].
      cbn [no_colon forallb]. rewrite Hc'. exact Hh.
    + cbn [no_colon forallb]. rewrite Hc'. exact IH.
Qed.

Lemma find_colon h t :
  no_colon h = true -> Models.find (Models.lit ":") (h ++ 58 :: t) = Some (h, t).
Proof.
  induction h as [|c h IH]; [reflexivity|].
  cbn [no_colon forallb]. intros H. apply andb_prop in H as [Hc Hh].
  cbn [app Models.find Models.lit Models.without_prefix list_ascii_of_string map].
  change (N_of_ascii ":") with 58.
  apply negb_true_iff in Hc. rewrite N.eqb_sym, Hc.
  change (Models.find [58] (h ++ 58 :: t))
    with (Models.find (Models.lit ":") (h ++ 58 :: t)).
  rewrite (IH Hh). reflexivity.
Qed.

Lemma partition_colon h t :
  no_colon h = true ->
  Models.partition (h ++ Models.lit ":" ++ t) (Models.lit ":")
  = (h, Models.lit ":", t).
Proof.
  intros H. unfold Models.partition.
  change (Models.lit ":" ++ t) with (58 :: t). rewrite (find_colon h t H).
  reflexivity.
Qed.

Lemma partition_no_colon s :
  no_colon s = true -> Models.partition s (Models.lit ":") = (s, [], []).
Proof.
  intros H. unfold Models.partition. pose proof (find_colon_spec s) as Hs.
  destruct (Models.find (Models.lit ":") s) as [[h t]|]; [|reflexivity].
  destruct Hs as [_ ->]. unfold no_colon in H.
  rewrite List.forallb_app in H. apply andb_prop in H as [_ H].
  discriminate.
Qed.

(** [partition] at the first [:]: the head has none, and the parts make up
    the text. *)
Lemma partition_spec s :
  exists h m t,
    Models.partition s (Models.lit ":") = (h, m, t) /\
    no_colon h = true /\ s = h ++ m ++ t /\
    (m = Models.lit ":" \/ (m = [] /\ t = [])).
Proof.
  unfold Models.partition. pose proof (find_colon_spec s) as Hs.
  destruct (Models.find (Models.lit ":") s) as [[h t]|].
  - destruct Hs as [Hh ->]. exists h, (Models.lit ":"), t.
    repeat split; auto.
  - exists s, [], []. rewrite List.app_nil_r. repeat split; auto.
Qed.

Lemma rfind_talk x :
  Models.rfind (Models.lit "talk") (x ++ Models.lit "talk") = Some (x, []).
Proof.
  induction x as [|c x IH]; [reflexivity|].
  cbn [app Models.rfind]. rewrite IH. reflexivity.
Qed.

Lemma endswith_talk x :
  Models.endswith (x ++ Models.lit "talk") (Models.lit "talk") = true.
Proof.
  induction x as [|c x IH]; [reflexivity|].
  cbn [app Models.endswith]. rewrite IH.
  destruct (Models.without_prefix (Models.lit "talk")
              (c :: x ++ Models.lit "talk")) as [[|]|]; reflexivity.
Qed.

Lemma text_lstrip_starts s : starts_without p (Models.lstrip p s).
Proof.
  induction s as [|c s IH]; simpl; [exact I|].
  destruct (p c) eqn:E; [exact IH|exact E].
Qed.

Lemma text_lstrip_clean s : starts_without p s -> Models.lstrip p s = s.
Proof. destruct s as [|c s]; simpl; [reflexivity|]. intros ->. reflexivity. Qed.

Lemma text_rstrip_cons c s :
  p c = false -> Models.rstrip p (c :: s) = c :: Models.rstrip p s.
Proof.
  intros Hc. cbn [Models.rstrip].
  destruct (Models.rstrip p s); [rewrite Hc|]; reflexivity.
Qed.

Lemma text_rstrip_all pad : forallb p pad = true -> Models.rstrip p pad = [].
Proof.
  induction pad as [|c pad IH]; simpl; [reflexivity|].
  intros H. apply andb_prop in H as [Hc Hp]. rewrite (IH Hp), Hc. reflexivity.
Qed.

Lemma text_rstrip_pad y pad :
  forallb p pad = true -> Models.rstrip p (y ++ pad) = Models.rstrip p y.
Proof.
  intros Hp. induction y as [|c y IH]; simpl.
  - apply text_rstrip_all, Hp.
  - rewrite IH. reflexivity.
Qed.

Lemma text_rstrip_last y k :
  p k = false -> Models.rstrip p (y ++ [k]) = y ++ [k].
Proof.
  intros Hk. induction y as [|c y IH]; simpl.
  - rewrite Hk. reflexivity.
  - rewrite IH. destruct (y ++ [k]) eqn:E; [|reflexivity].
    destruct y; discriminate.
Qed.

Lemma text_rstrip_idem s : Models.rstrip p (Models.rstrip p s) = Models.rstrip p s.
Proof.
  induction s as [|c s IH]; simpl; [reflexivity|].
  destruct (Models.rstrip p s) as [|a r] eqn:E.
  - destruct (p c) eqn:Hc; simpl; [reflexivity|]. rewrite Hc. reflexivity.
  - change (Models.rstrip p (c :: a :: r))
      with (match Models.rstrip p (a :: r) with
            | [] => if p c then [] else [c]
            | r' => c :: r'
            end).
    rewrite IH. reflexivity.
Qed.

Lemma text_rstrip_starts s : starts_without p s -> starts_without p (Models.rstrip p s).
Proof.
  destruct s as [|c s]; [intros _; exact I|]. cbn [starts_without]. intros Hc.
  rewrite (text_rstrip_cons c s Hc). exact Hc.
Qed.

Lemma text_lstrip_forallb (q : N -> bool) s :
  forallb q s = true -> forallb q (Models.lstrip p s) = true.
Proof.
  induction s as [|c s IH]; simpl; [reflexivity|].
  intros H. destruct (p c); [|exact H].
  apply andb_prop in H as [_ H]. apply IH, H.
Qed.

Lemma text_rstrip_forallb (q : N -> bool) s :
  forallb q s = true -> forallb q (Models.rstrip p s) = true.
Proof.
  induction s as [|c s IH]; simpl; [reflexivity|].
  intros H. apply andb_prop in H as [Hc H]. specialize (IH H).
  destruct (Models.rstrip p s) as [|a r].
  - destruct (p c); simpl; [reflexivity|]. rewrite Hc. reflexivity.
  - cbn [forallb] in *. rewrite Hc. exact IH.
Qed.

End Text.

(** ** Titles *)

Section Titles.

Local Open Scope N_scope.

Variable isspace : N -> bool.

Hypothesis space_is_space : isspace 32 = true.

Hypothesis k_is_not_space : isspace 107 = false.

Lemma strip_starts q : starts_without isspace (Models.strip isspace q).
Proof. apply text_rstrip_starts, text_lstrip_starts. Qed.

Lemma strip_rstripped q :
  Models.rstrip isspace (Models.strip isspace q) = Models.strip isspace q.
Proof. apply text_rstrip_idem. Qed.

Lemma text_strip_idem q :
  Models.strip isspace (Models.strip isspace q) = Models.strip isspace q.
Proof.
  unfold Models.strip at 1.
  rewrite (text_lstrip_clean _ _ (strip_starts q)). apply strip_rstripped.
Qed.

Lemma strip_then_space q :
  Models.strip isspace (Models.strip isspace q ++ Models.lit " ")
  = Models.strip isspace q.
Proof.
  pose proof (strip_starts q) as Hs. pose proof (strip_rstripped q) as Hr.
  destruct (Models.strip isspace q) as [|c r] eqn:E.
  - unfold Models.strip. simpl. rewrite space_is_space. reflexivity.
  - unfold Models.strip at 1.
    rewrite text_lstrip_clean by exact Hs.
    rewrite text_rstrip_pad; [exact Hr|].
    simpl. rewrite space_is_space. reflexivity.
Qed.

Lemma strip_no_colon q :
  no_colon q = true -> no_colon (Models.strip isspace q) = true.
Proof. intros H. apply text_rstrip_forallb, text_lstrip_forallb, H. Qed.

Lemma strip_talk_suffix q :
  Models.strip isspace q <> [] ->
  Models.strip isspace (Models.strip isspace q ++ Models.lit " talk")
  = Models.strip isspace q ++ Models.lit " talk".
Proof.
  pose proof (strip_starts q) as Hs. intros Hne.
  destruct (Models.strip isspace q) as [|c r]; [congruence|].
  unfold Models.strip.
  rewrite text_lstrip_clean by exact Hs.
  change (Models.lit " talk") with ([32; 116; 97; 108] ++ [107]).
  rewrite List.app_assoc. apply text_rstrip_last, k_is_not_space.
Qed.

Lemma no_colon_app a b :
  no_colon a = true -> no_colon b = true -> no_colon (a ++ b) = true.
Proof.
  intros Ha Hb. unfold no_colon. rewrite List.forallb_app.
  fold (no_colon a). fold (no_colon b). rewrite Ha, Hb. reflexivity.
Qed.

(** [title_subject2talk] on a title with a prefix before its first [:]. *)
Lemma subject2talk_prefixed pref suf :
  no_colon pref = true ->
  Models.title_subject2talk isspace (pref ++ Models.lit ":" ++ suf)
  = match Models.strip isspace pref with
    | [] => Models.lit "Talk"
    | _ =>
        if Models.endswith (Models.strip isspace pref) (Models.lit "talk")
        then Models.strip isspace pref
        else Models.strip isspace pref ++ Models.lit " talk"
    end ++ Models.lit ":" ++ suf.
Proof.
  intros H. unfold Models.title_subject2talk.
  rewrite (partition_colon pref suf H). reflexivity.
Qed.

(** [title_talk2subject] on a title whose prefix ends with [ talk]. *)
Lemma talk2subject_talk q suf :
  no_colon q = true -> Models.strip isspace q <> [] ->
  Models.title_talk2subject isspace
    ((Models.strip isspace q ++ Models.lit " talk") ++ Models.lit ":" ++ suf)
  = Models.strip isspace q ++ Models.lit ":" ++ suf.
Proof.
  intros Hq Hne. unfold Models.title_talk2subject.
  rewrite partition_colon
    by (apply no_colon_app; [apply strip_no_colon, Hq|reflexivity]).
  unfold Models.rpartition.
  change (Models.lit " talk") with (Models.lit " " ++ Models.lit "talk").
  rewrite List.app_assoc, rfind_talk, strip_then_space.
  pose proof (strip_no_colon q Hq) as Hc.
  destruct (Models.strip isspace q) as [|c r]; [congruence|].
  cbn [no_colon forallb] in Hc. apply andb_prop in Hc as [Hc _].
  apply negb_true_iff in Hc.
  cbn [app Models.lstrip Models.one_of Models.lit list_ascii_of_string map
       existsb].
  change (N_of_ascii ":") with 58. rewrite Hc. reflexivity.
Qed.

(** X15: from a subject title to its talk title and back.  For a title
    with a namespace prefix before its first [:], the prefix not white
    space only and not ending with [talk]: [title_subject2talk] gives the
    stripped prefix followed by [ talk:] and the rest of the title, and
    [title_talk2subject] takes that back to the title with its prefix
    stripped. *)
Theorem title_round_trip (pref suf : Models.text) :
  no_colon pref = true ->
  Models.strip isspace pref <> [] ->
  Models.endswith (Models.strip isspace pref) (Models.lit "talk") = false ->
  Models.title_subject2talk isspace (pref ++ Models.lit ":" ++ suf)
  = Models.strip isspace pref ++ Models.lit " talk:" ++ suf /\
  Models.title_talk2subject isspace
    (Models.title_subject2talk isspace (pref ++ Models.lit ":" ++ suf))
  = Models.strip isspace pref ++ Models.lit ":" ++ suf.
Proof.
  intros Hc Hne Hend.
  assert (E : Models.title_subject2talk isspace (pref ++ Models.lit ":" ++ suf)
              = (Models.strip isspace pref ++ Models.lit " talk")
                ++ Models.lit ":" ++ suf).
  { rewrite (subject2talk_prefixed pref suf Hc), Hend.
    destruct (Models.strip isspace pref); [congruence|reflexivity]. }
  split.
  - rewrite E, <- List.app_assoc. reflexivity.
  - rewrite E. apply talk2subject_talk; assumption.
Qed.

(** X16: a talk title is its own talk title.  For every title, with or
    without [:], whose prefix (the text before the first [:]) is not white
    space only, applying [title_subject2talk] a second time changes
    nothing. *)
Theorem title_subject2talk_idempotent (title : Models.text) :
  Models.strip isspace (fst (fst (Models.partition title (Models.lit ":"))))
    <> [] ->
  Models.title_subject2talk isspace (Models.title_subject2talk isspace title)
  = Models.title_subject2talk isspace title.
Proof.
  destruct (partition_spec title) as [h [m [t [E [Hh [_ _]]]]]].
  rewrite E. cbn [fst]. intros Hne.
  unfold Models.title_subject2talk at 2 3. rewrite E.
  set (tp := match Models.strip isspace h with
             | [] => Models.lit "Talk"
             | _ :: _ =>
                 if Models.endswith (Models.strip isspace h) (Models.lit "talk")
                 then Models.strip isspace h
                 else Models.strip isspace h ++ Models.lit " talk"
             end).
  assert (Htp : no_colon tp = true /\ Models.strip isspace tp = tp /\
                tp <> [] /\ Models.endswith tp (Models.lit "talk") = true).
  { unfold tp. pose proof (strip_no_colon h Hh) as Hc.
    pose proof (text_strip_idem h) as Hi.
    pose proof (strip_talk_suffix h Hne) as Ht.
    destruct (Models.strip isspace h) as [|c r] eqn:Es; [congruence|].
    destruct (Models.endswith (c :: r) (Models.lit "talk")) eqn:Ee.
    - repeat split; auto.
    - repeat split.
      + apply no_colon_app; [exact Hc|reflexivity].
      + exact Ht.
      + discriminate.
      + change (Models.lit " talk") with (Models.lit " " ++ Models.lit "talk").
        rewrite List.app_assoc. apply endswith_talk. }
  destruct Htp as [H1 [H2 [H3 H4]]].
  rewrite (subject2talk_prefixed tp t H1), H2, H4.
  destruct tp; [congruence|reflexivity].
Qed.

(** X17: titles of the main namespace.  [title_talk2subject] takes
    [Talk:] followed by a title without [:] to that title.  But
    [title_subject2talk] reads a title without [:] as a bare prefix: when
    the title is not white space only and does not end with [talk], the
    result is the stripped title followed by [ talk:], not [Talk:] and the
    title.  Only a title with an empty (or white space) prefix before its
    first [:] gets the prefix [Talk]. *)
Theorem main_namespace_titles (title : Models.text) :
  no_colon title = true ->
  Models.strip isspace title <> [] ->
  Models.endswith (Models.strip isspace title) (Models.lit "talk") = false ->
  Models.title_talk2subject isspace (Models.lit "Talk:" ++ title) = title /\
  Models.title_subject2talk isspace title
  = Models.strip isspace title ++ Models.lit " talk:" /\
  (forall pad, no_colon pad = true -> Models.strip isspace pad = [] ->
     Models.title_subject2talk isspace (pad ++ Models.lit ":" ++ title)
     = Models.lit "Talk:" ++ title).
Proof.
  intros Hc Hne Hend. split; [|split].
  - unfold Models.title_talk2subject.
    change (Models.lit "Talk:" ++ title)
      with (Models.lit "Talk" ++ Models.lit ":" ++ title).
    rewrite partition_colon by reflexivity.
    change (Models.rpartition (Models.lit "Talk") (Models.lit "talk"))
      with (@nil N, @nil N, Models.lit "Talk").
    change (Models.strip isspace []) with (@nil N).
    destruct title as [|c r].
    + exfalso. apply Hne. reflexivity.
    + cbn [no_colon forallb] in Hc. apply andb_prop in Hc as [Hc _].
      apply negb_true_iff in Hc.
      cbn [app Models.lstrip Models.one_of Models.lit list_ascii_of_string map
           existsb].
      change (N_of_ascii ":") with 58.
      change (Models.strip isspace []) with (@nil N).
      cbn [app Models.lstrip Models.one_of existsb].
      rewrite N.eqb_refl. cbn [orb Models.lstrip Models.one_of existsb].
      rewrite Hc. reflexivity.
  - unfold Models.title_subject2talk.
    rewrite (partition_no_colon title Hc), Hend.
    destruct (Models.strip isspace title); [congruence|].
    rewrite List.app_nil_r, <- List.app_assoc. reflexivity.
  - intros pad Hp Hs. rewrite (subject2talk_prefixed pad title Hp), Hs.
    reflexivity.
Qed.

End Titles.

Lemma title_round_trip_witness :
  Models.title_subject2talk Models.unicode_isspace
    (Models.lit " User:Jimbo: notes")
  = Models.lit "User talk:Jimbo: notes" /\
  Models.title_talk2subject Models.unicode_isspace
    (Models.lit "User talk:Jimbo: notes")
  = Models.lit "User:Jimbo: notes".
Proof.
  exact (title_round_trip Models.unicode_isspace eq_refl
           (Models.lit " User") (Models.lit "Jimbo: notes") eq_refl
           ltac:(discriminate) eq_refl).
Defined.

Lemma title_subject2talk_idempotent_witness :
  Models.title_subject2talk Models.unicode_isspace
    (Models.title_subject2talk Models.unicode_isspace (Models.lit "Help:Contents"))
  = Models.title_subject2talk Models.unicode_isspace (Models.lit "Help:Contents").
Proof.
  exact (title_subject2talk_idempotent Models.unicode_isspace eq_refl
           (Models.lit "Help:Contents") ltac:(discriminate)).
Defined.

Lemma main_namespace_titles_witness :
  Models.title_talk2subject Models.unicode_isspace (Models.lit "Talk:Coffee")
  = Models.lit "Coffee" /\
  Models.title_subject2talk Models.unicode_isspace (Models.lit "Coffee")
  = Models.lit "Coffee talk:" /\
  (forall pad, no_colon pad = true ->
     Models.strip Models.unicode_isspace pad = [] ->
     Models.title_subject2talk Models.unicode_isspace
       (pad ++ Models.lit ":" ++ Models.lit "Coffee")
     = Models.lit "Talk:" ++ Models.lit "Coffee").
Proof.
  exact (main_namespace_titles Models.unicode_isspace (Models.lit "Coffee")
           eq_refl ltac:(discriminate) eq_refl).
Defined.

(** ** Namespaces *)

(** X18: subject and talk namespaces.  A page is a subject page or a talk
    page exactly when its namespace number is not negative, and never
    both; the namespace after that of a subject page (the one
    [get_talk_info] computes) is a talk namespace, and the namespace before
    that of a talk page (the one [get_subject_info] computes) is a subject
    namespace. *)
Theorem namespace_parity (ns : Z) :
  Models.is_subject_page ns && Models.is_talk_page ns = false /\
  Models.is_subject_page ns || Models.is_talk_page ns = (0 <=? ns) /\
  Models.is_talk_page (ns + 1) = Models.is_subject_page ns /\
  Models.is_subject_page (ns - 1) = Models.is_talk_page ns.
Proof.
  unfold Models.is_subject_page, Models.is_talk_page.
  pose proof (Z.mod_pos_bound ns 2 ltac:(lia)) as Hm.
  pose proof (Z.mod_pos_bound (ns + 1) 2 ltac:(lia)) as Hm1.
  pose proof (Z.mod_pos_bound (ns - 1) 2 ltac:(lia)) as Hm2.
  pose proof (Z.div_mod ns 2 ltac:(lia)) as Hd.
  pose proof (Z.div_mod (ns + 1) 2 ltac:(lia)) as Hd1.
  pose proof (Z.div_mod (ns - 1) 2 ltac:(lia)) as Hd2.
  repeat split;
    repeat match goal with
    | |- context [(?a >=? ?b)] => rewrite (Z.geb_leb a b)
    end;
    repeat match goal with
    | |- context [(?a <=? ?b)] => destruct (Z.leb_spec a b)
    | |- context [(?a =? ?b)] => destruct (Z.eqb_spec a b)
    end; cbn [andb orb]; try reflexivity; exfalso; lia.
Qed.

(** ** Dicts keyed by strings *)

Section Dict.

Variable V : Type.

Implicit Types (d : Models.sdict V) (k : string) (v : V).

Lemma get_put d k v k' :
  Models.get (Models.put d k v) k'
  = if (k =? k')%string then Some v else Models.get d k'.
Proof.
  induction d as [|[k0 v0] d IH]; simpl.
  - reflexivity.
  - destruct (String.eqb_spec k0 k) as [->|Hk]; simpl.
    + destruct (String.eqb_spec k k'); reflexivity.
    + rewrite IH. destruct (String.eqb_spec k k') as [->|Hk'].
      * destruct (String.eqb_spec k0 k'); [congruence|reflexivity].
      * reflexivity.
Qed.

Lemma get_app d d' k :
  Models.get (d ++ d') k
  = match Models.get d k with Some v => Some v | None => Models.get d' k end.
Proof.
  induction d as [|[k0 v0] d IH]; simpl; [reflexivity|].
  destruct (k0 =? k)%string; [reflexivity|exact IH].
Qed.

Lemma get_None d k : ~ In k (map fst d) -> Models.get d k = None.
Proof.
  induction d as [|[k0 v0] d IH]; simpl; [reflexivity|].
  intros H. destruct (String.eqb_spec k0 k) as [->|Hk]; [tauto|].
  apply IH. tauto.
Qed.

Lemma get_Some_In d k v : Models.get d k = Some v -> In (k, v) d.
Proof.
  induction d as [|[k0 v0] d IH]; simpl; [discriminate|].
  destruct (String.eqb_spec k0 k) as [->|Hk].
  - intros [= ->]. left. reflexivity.
  - intros H. right. apply IH, H.
Qed.

Lemma put_fresh d k v :
  ~ In k (map fst d) -> Models.put d k v = d ++ [(k, v)].
Proof.
  induction d as [|[k0 v0] d IH]; simpl; [reflexivity|].
  intros H. destruct (String.eqb_spec k0 k) as [->|Hk]; [tauto|].
  rewrite IH by tauto. reflexivity.
Qed.

Lemma keys_put d k v :
  map fst (Models.put d k v)
  = if existsb (String.eqb k) (map fst d) then map fst d
    else map fst d ++ [k].
Proof.
  induction d as [|[k0 v0] d IH]; simpl; [reflexivity|].
  rewrite (String.eqb_sym k k0).
  destruct (String.eqb_spec k0 k) as [->|Hk]; simpl; [reflexivity|].
  rewrite IH. destruct (existsb (String.eqb k) (map fst d)); reflexivity.
Qed.

Lemma NoDup_snoc (A : Type) (l : list A) (a : A) :
  NoDup l -> ~ In a l -> NoDup (l ++ [a]).
Proof.
  intros Hl Ha. apply NoDup_rev in Hl. rewrite <- (List.rev_involutive (l ++ [a])).
  apply NoDup_rev. rewrite List.rev_app_distr. simpl. constructor; [|exact Hl].
  rewrite <- List.in_rev. exact Ha.
Qed.

Lemma NoDup_put d k v :
  NoDup (map fst d) -> NoDup (map fst (Models.put d k v)).
Proof.
  intros H. rewrite keys_put.
  destruct (existsb (String.eqb k) (map fst d)) eqn:E; [exact H|].
  apply NoDup_snoc; [exact H|]. intros Hin.
  assert (existsb (String.eqb k) (map fst d) = true); [|congruence].
  apply existsb_exists. exists k. split; [exact Hin|apply String.eqb_refl].
Qed.

Lemma NoDup_update items : forall d,
  NoDup (map fst d) -> NoDup (map fst (Models.update d items)).
Proof.
  induction items as [|[k v] items IH]; intros d H; [exact H|].
  apply IH, NoDup_put, H.
Qed.

(** After [update], a key holds the value of the last item stored under
    it. *)
Lemma get_update items : forall d k,
  Models.get (Models.update d items) k
  = match Models.get (rev items) k with
    | Some v => Some v
    | None => Models.get d k
    end.
Proof.
  induction items as [|[k0 v0] items IH]; intros d k; [reflexivity|].
  cbn [Models.update fold_left fst snd rev].
  change (fold_left (fun d kv => Models.put d (fst kv) (snd kv)) items
            (Models.put d k0 v0))
    with (Models.update (Models.put d k0 v0) items).
  rewrite IH, get_app, get_put. simpl.
  destruct (Models.get (rev items) k); [reflexivity|].
  destruct (k0 =? k)%string; reflexivity.
Qed.

(** In a dict, the last item of a key is its only one. *)
Lemma get_rev d k :
  NoDup (map fst d) -> Models.get (rev d) k = Models.get d k.
Proof.
  induction d as [|[k0 v0] d IH]; [reflexivity|].
  cbn [map fst]. intros H. inversion H as [|? ? Hk0 Hd]; subst.
  cbn [rev]. rewrite get_app, (IH Hd). simpl.
  destruct (String.eqb_spec k0 k) as [->|Hk].
  - rewrite (get_None d k Hk0). reflexivity.
  - destruct (Models.get d k); reflexivity.
Qed.

Lemma update_fresh items : forall d,
  NoDup (map fst d ++ map fst items) -> Models.update d items = d ++ items.
Proof.
  induction items as [|[k v] items IH]; intros d H.
  - symmetry. apply List.app_nil_r.
  - cbn [Models.update fold_left fst snd].
    change (fold_left (fun d kv => Models.put d (fst kv) (snd kv)) items
              (Models.put d k v))
      with (Models.update (Models.put d k v) items).
    cbn [map fst] in H.
    assert (Hk : ~ In k (map fst d)).
    { intros Hin. apply NoDup_remove_2 in H. apply H.
      apply in_or_app. left. exact Hin. }
    rewrite (put_fresh d k v Hk), IH.
    + rewrite <- List.app_assoc. reflexivity.
    + rewrite List.map_app, <- List.app_assoc. exact H.
Qed.

Lemma get_pop_other d k k' :
  k <> k' -> Models.get (Models.pop d k) k' = Models.get d k'.
Proof.
  intros Hk. induction d as [|[k0 v0] d IH]; simpl; [reflexivity|].
  destruct (String.eqb_spec k0 k) as [->|H0]; simpl.
  - destruct (String.eqb_spec k k'); [congruence|reflexivity].
  - rewrite IH. reflexivity.
Qed.

End Dict.

(** ** Model classes *)

Section Attributes.

Variable V : Type.

Implicit Types (a : Models.WapitiModelAttr V)
  (l : list (Models.WapitiModelAttr V))
  (d : Models.sdict (Models.WapitiModelAttr V)).

Lemma keyed_put d a :
  keyed_by_name d -> keyed_by_name (Models.put d (Models.name a) a).
Proof.
  unfold keyed_by_name. induction d as [|[k0 a0] d IH]; simpl; intros H k a'.
  - intros [[= <- <-]|[]]. reflexivity.
  - destruct (String.eqb_spec k0 (Models.name a)) as [->|Hk]; simpl.
    + intros [[= <- <-]|Hin]; [reflexivity|]. apply H. right. exact Hin.
    + intros [[= <- <-]|Hin]; [apply H; left; reflexivity|].
      apply IH; [|exact Hin]. intros k1 a1 H1. apply H. right. exact H1.
Qed.

Lemma keyed_update items : forall d,
  keyed_by_name items -> keyed_by_name d ->
  keyed_by_name (Models.update d items).
Proof.
  induction items as [|[k a] items IH]; intros d Hi Hd; [exact Hd|].
  cbn [Models.update fold_left fst snd].
  apply IH.
  - intros k1 a1 H1. apply Hi. right. exact H1.
  - rewrite (Hi k a (or_introl eq_refl)). apply keyed_put, Hd.
Qed.

Lemma keyed_by_name_by_name l : keyed_by_name (Models.by_name l).
Proof.
  unfold keyed_by_name, Models.by_name. intros k a H.
  apply in_map_iff in H as [a' [[= <- <-] _]]. reflexivity.
Qed.

Lemma named_values d n :
  keyed_by_name d -> named n (Models.values d) = Models.get d n.
Proof.
  unfold named, Models.values. induction d as [|[k0 a0] d IH]; intros H.
  - reflexivity.
  - cbn [map snd find Models.get].
    rewrite <- (H k0 a0 (or_introl eq_refl)).
    destruct (k0 =? n)%string; [reflexivity|].
    apply IH. intros k a Hin. apply H. right. exact Hin.
Qed.

Lemma values_by_name l : Models.values (Models.by_name l) = l.
Proof.
  unfold Models.values, Models.by_name. rewrite List.map_map. apply List.map_id.
Qed.

Lemma keys_by_name l : map fst (Models.by_name l) = map Models.name l.
Proof. unfold Models.by_name. rewrite List.map_map. reflexivity. Qed.

Lemma keys_keyed d : keyed_by_name d -> map fst d = map Models.name (Models.values d).
Proof.
  unfold Models.values. induction d as [|[k0 a0] d IH]; intros H; [reflexivity|].
  cbn [map fst snd]. rewrite <- (H k0 a0 (or_introl eq_refl)). f_equal.
  apply IH. intros k a Hin. apply H. right. exact Hin.
Qed.

(** The last declaration of the name [n] in a list of attributes. *)
Lemma get_rev_by_name l n :
  Models.get (rev (Models.by_name l)) n = named n (rev l).
Proof.
  unfold Models.by_name. rewrite <- List.map_rev.
  change (map (fun a => (Models.name a, a)) (rev l))
    with (Models.by_name (rev l)).
  rewrite <- (named_values _ n (keyed_by_name_by_name (rev l))).
  rewrite values_by_name. reflexivity.
Qed.

(** [all_attributes.update(OrderedDict(...))] on the attributes of a base
    or of the class body. *)
Lemma update_attributes d l :
  NoDup (map fst d) -> keyed_by_name d ->
  let d' := Models.update d (Models.of_items (Models.by_name l)) in
  NoDup (map fst d') /\ keyed_by_name d' /\
  forall n, Models.get d' n
            = match named n (rev l) with
              | Some a => Some a
              | None => Models.get d n
              end.
Proof.
  intros Hd Hk. cbn zeta.
  assert (Hod : NoDup (map fst (Models.of_items (Models.by_name l)))).
  { apply NoDup_update. constructor. }
  assert (Hok : keyed_by_name (Models.of_items (Models.by_name l))).
  { apply keyed_update; [apply keyed_by_name_by_name|]. intros k a []. }
  split; [apply NoDup_update, Hd|]. split; [apply keyed_update; assumption|].
  intros n. rewrite get_update, (get_rev _ _ n Hod).
  unfold Models.of_items. rewrite get_update, get_rev_by_name.
  destruct (named n (rev l)); reflexivity.
Qed.

Lemma named_app n l l' :
  named n (l ++ l')
  = match named n l with Some a => Some a | None => named n l' end.
Proof.
  unfold named. induction l as [|a l IH]; simpl; [reflexivity|].
  destruct (Models.name a =? n)%string; [reflexivity|exact IH].
Qed.

Lemma bases_merged bases : forall d decl,
  NoDup (map fst d) -> keyed_by_name d ->
  (forall n, Models.get d n = named n (rev decl)) ->
  let d' := fold_left
              (fun all_attributes base_attr_list =>
                 Models.update all_attributes
                   (Models.of_items (Models.by_name base_attr_list)))
              bases d in
  NoDup (map fst d') /\ keyed_by_name d' /\
  forall n, Models.get d' n = named n (rev (decl ++ List.concat bases)).
Proof.
  induction bases as [|l bases IH]; intros d decl Hd Hk Hg; cbn zeta.
  - cbn [fold_left List.concat]. rewrite List.app_nil_r. auto.
  - cbn [fold_left List.concat].
    destruct (update_attributes d l Hd Hk) as [H1 [H2 H3]].
    rewrite List.app_assoc. apply IH; [exact H1|exact H2|].
    intros n. rewrite H3, List.rev_app_distr, named_app, Hg. reflexivity.
Qed.

Lemma merged_attributes bases attrs :
  exists d,
    Models.class_attributes bases attrs = Models.values d /\
    NoDup (map fst d) /\ keyed_by_name d /\
    forall n, Models.get d n = named n (rev (List.concat bases ++ attrs)).
Proof.
  unfold Models.class_attributes.
  assert (Hk0 : @keyed_by_name V []) by (intros k a []).
  destruct (bases_merged bases [] [] (NoDup_nil _) Hk0
              (fun n => eq_refl)) as [H1 [H2 H3]].
  cbn [app] in H3.
  destruct (update_attributes _ attrs H1 H2) as [H4 [H5 H6]].
  eexists. split; [reflexivity|]. split; [exact H4|]. split; [exact H5|].
  intros n. rewrite H6, H3, List.rev_app_distr, named_app. reflexivity.
Qed.

Lemma of_items_by_name l :
  NoDup (map Models.name l) -> Models.of_items (Models.by_name l) = Models.by_name l.
Proof.
  intros H. unfold Models.of_items. rewrite update_fresh; [reflexivity|].
  cbn [map app]. rewrite keys_by_name. exact H.
Qed.

Lemma fold_update_fresh bases : forall d,
  NoDup (map fst d ++ map Models.name (List.concat bases)) ->
  fold_left
    (fun all_attributes base_attr_list =>
       Models.update all_attributes
         (Models.of_items (Models.by_name base_attr_list)))
    bases d
  = d ++ Models.by_name (List.concat bases).
Proof.
  induction bases as [|l bases IH]; intros d H.
  - symmetry. apply List.app_nil_r.
  - cbn [fold_left List.concat] in *. rewrite List.map_app in H.
    assert (Hl : NoDup (map Models.name l)).
    { apply NoDup_app_remove_l in H. apply NoDup_app_remove_r in H. exact H. }
    rewrite (of_items_by_name l Hl). rewrite update_fresh.
    + rewrite IH.
      * unfold Models.by_name. rewrite List.map_app, List.app_assoc.
        reflexivity.
      * rewrite List.map_app, keys_by_name, <- List.app_assoc. exact H.
    + rewrite keys_by_name. rewrite List.app_assoc in H.
      apply NoDup_app_remove_r in H. exact H.
Qed.

(** X19: the attributes of a model class.  Whatever the bases and the body
    of the class declare, [WapitiModelMeta] gives the class a list of
    attributes with pairwise distinct names, in which every declared name
    has the attribute of its last declaration, the bases taken in order and
    the body last.  When no name is declared twice, the list is that of the
    bases followed by that of the body, unchanged. *)
Theorem class_attributes_merged (bases : list (list (Models.WapitiModelAttr V)))
  (attrs : list (Models.WapitiModelAttr V)) :
  NoDup (map Models.name (Models.class_attributes bases attrs)) /\
  (forall n, named n (Models.class_attributes bases attrs)
             = named n (rev (List.concat bases ++ attrs))) /\
  (NoDup (map Models.name (List.concat bases ++ attrs)) ->
   Models.class_attributes bases attrs = List.concat bases ++ attrs).
Proof.
  destruct (merged_attributes bases attrs) as [d [E [H1 [H2 H3]]]].
  split; [|split].
  - rewrite E, <- (keys_keyed d H2). exact H1.
  - intros n. rewrite E, (named_values d n H2). apply H3.
  - intros H. unfold Models.class_attributes.
    rewrite List.map_app in H.
    rewrite (fold_update_fresh bases [])
      by (cbn [map app]; apply NoDup_app_remove_r in H; exact H).
    cbn [app]. rewrite (of_items_by_name attrs)
      by (apply NoDup_app_remove_l in H; exact H).
    rewrite update_fresh
      by (rewrite !keys_by_name; exact H).
    unfold Models.by_name. rewrite <- List.map_app.
    apply (values_by_name (List.concat bases ++ attrs)).
Qed.

End Attributes.

(** ** Objects made from a query *)

Lemma distinct_NoDup l : distinct l = true -> NoDup l.
Proof.
  induction l as [|x l IH]; [constructor|].
  cbn [distinct]. intros H. apply andb_prop in H as [Hx Hl].
  constructor; [|apply IH, Hl]. intros Hin.
  apply negb_true_iff in Hx.
  assert (existsb (String.eqb x) l = true); [|congruence].
  apply existsb_exists. exists x. split; [exact Hin|apply String.eqb_refl].
Qed.

Section Query.

Variable V : Type.

Implicit Types (a attr : Models.WapitiModelAttr V)
  (attributes : list (Models.WapitiModelAttr V))
  (kw self : Models.sdict V).

Lemma query_kwargs_other attributes all_q_dict : forall kw n,
  ~ In n (map Models.name attributes) ->
  Models.get (Models.query_kwargs attributes all_q_dict kw) n
  = Models.get kw n.
Proof.
  induction attributes as [|attr rest IH]; intros kw n Hn; [reflexivity|].
  cbn [map In] in Hn. cbn [Models.query_kwargs].
  destruct (Models.mw_name attr) as [mw|]; [|apply IH; tauto].
  destruct (Models.get all_q_dict mw) as [val|]; [|apply IH; tauto].
  rewrite IH by tauto. rewrite get_put.
  destruct (String.eqb_spec (Models.name attr) n); [|reflexivity].
  tauto.
Qed.

(** The keyword arguments [from_query] makes hold, under the name of each
    attribute, the value found under its Mediawiki name. *)
Lemma query_kwargs_get attributes all_q_dict :
  NoDup (map Models.name attributes) ->
  forall kw a, In a attributes ->
    Models.get (Models.query_kwargs attributes all_q_dict kw) (Models.name a)
    = match match Models.mw_name a with
            | Some mw => Models.get all_q_dict mw
            | None => None
            end with
      | Some v => Some v
      | None => Models.get kw (Models.name a)
      end.
Proof.
  induction attributes as [|attr rest IH]; intros Hnd kw a Hin; [destruct Hin|].
  cbn [map] in Hnd. inversion Hnd as [|? ? Hattr Hrest]; subst.
  cbn [Models.query_kwargs]. destruct Hin as [->|Hin].
  - destruct (Models.mw_name a) as [mw|];
      [|apply query_kwargs_other; exact Hattr].
    destruct (Models.get all_q_dict mw) as [val|];
      [|apply query_kwargs_other; exact Hattr].
    rewrite query_kwargs_other by exact Hattr.
    rewrite get_put, String.eqb_refl. reflexivity.
  - assert (Hne : Models.name attr <> Models.name a).
    { intros E. apply Hattr. rewrite E. apply in_map, Hin. }
    destruct (Models.mw_name attr) as [mw|]; [|apply IH; assumption].
    destruct (Models.get all_q_dict mw) as [val|]; [|apply IH; assumption].
    rewrite (IH Hrest _ a Hin), get_put.
    destruct (String.eqb_spec (Models.name attr) (Models.name a));
      [contradiction|reflexivity].
Qed.

(** The loop of [__init__], when the keyword arguments hold [f a] under
    the name of each attribute [a]. *)
Lemma init_loop_spec (f : Models.WapitiModelAttr V -> option V) attributes :
  NoDup (map Models.name attributes) ->
  forall kw self missing,
    (forall a, In a attributes -> ~ In (Models.name a) (map fst self)) ->
    (forall a, In a attributes -> Models.get kw (Models.name a) = f a) ->
    Models.init_loop attributes kw self missing
    = (self ++ flat_map (fun a => match match f a with
                                        | Some v => Some v
                                        | None => Models.default a
                                        end with
                                  | Some v => [(Models.name a, v)]
                                  | None => []
                                  end) attributes,
       missing ++ flat_map (fun a => match match f a with
                                           | Some v => Some v
                                           | None => Models.default a
                                           end with
                                     | Some _ => []
                                     | None => [Models.name a]
                                     end) attributes).
Proof.
  induction attributes as [|attr rest IH]; intros Hnd kw self missing Hself Hkw.
  - cbn [Models.init_loop flat_map]. rewrite !List.app_nil_r. reflexivity.
  - cbn [map] in Hnd. inversion Hnd as [|? ? Hattr Hrest]; subst.
    assert (Hne : forall a, In a rest -> Models.name attr <> Models.name a).
    { intros a Hin E. apply Hattr. rewrite E. apply in_map, Hin. }
    assert (Hfresh : forall val a, In a rest ->
              ~ In (Models.name a)
                  (map fst (self ++ [(Models.name attr, val)]))).
    { intros val a Hin. rewrite List.map_app. intros H.
      apply in_app_or in H as [H|[H|[]]].
      - apply (Hself a (or_intror Hin) H).
      - apply (Hne a Hin H). }
    cbn [Models.init_loop flat_map].
    rewrite (Hkw attr (or_introl eq_refl)).
    destruct (f attr) as [val|].
    + rewrite (put_fresh _ self _ val (Hself attr (or_introl eq_refl))).
      rewrite (IH Hrest); [|apply Hfresh|].
      * rewrite <- List.app_assoc. reflexivity.
      * intros a Hin. rewrite get_pop_other by (apply Hne, Hin).
        apply Hkw. right. exact Hin.
    + destruct (Models.default attr) as [val|].
      * rewrite (put_fresh _ self _ val (Hself attr (or_introl eq_refl))).
        rewrite (IH Hrest); [|apply Hfresh|].
        -- rewrite <- List.app_assoc. reflexivity.
        -- intros a Hin. apply Hkw. right. exact Hin.
      * rewrite (IH Hrest).
        -- rewrite <- List.app_assoc. reflexivity.
        -- intros a Hin. apply Hself. right. exact Hin.
        -- intros a Hin. apply Hkw. right. exact Hin.
Qed.

(** X20: what [from_query] builds.  For a class with the [__init__] of
    [WapitiModelBase], attributes of pairwise distinct names and a query
    dict: every attribute gets the value stored under its Mediawiki name
    in [q_dict], or else in the keyword arguments, or else its default, and
    the object has these attributes and no others, in the order of the
    class; the keys of the query that no attribute names are ignored.  When
    some attributes have neither a value nor a default, no object is made:
    [__init__] ends (after its call of the debugger) with the [ValueError]
    that lists their names in order. *)
Theorem from_query_found (attributes : list (Models.WapitiModelAttr V))
  (q_dict kw : Models.sdict V) :
  distinct (map Models.name attributes) = true ->
  distinct (map fst q_dict) = true ->
  Models.from_query attributes q_dict kw
  = match not_found q_dict kw attributes with
    | [] => Models.Built (found_items q_dict kw attributes)
    | missing => Models.Missing missing
    end.
Proof.
  intros Ha Hq. apply distinct_NoDup in Ha, Hq.
  unfold Models.from_query, Models.init.
  rewrite (init_loop_spec (queried q_dict kw) attributes Ha).
  - change (match not_found q_dict kw attributes with
            | [] => Models.Built (found_items q_dict kw attributes)
            | _ :: _ => Models.Missing (not_found q_dict kw attributes)
            end
            = match not_found q_dict kw attributes with
              | [] => Models.Built (found_items q_dict kw attributes)
              | missing => Models.Missing missing
              end).
    destruct (not_found q_dict kw attributes); reflexivity.
  - intros a _ [].
  - intros a Hin. rewrite (query_kwargs_get attributes _ Ha [] a Hin).
    unfold queried. destruct (Models.mw_name a) as [mw|]; [|reflexivity].
    rewrite get_update, (get_rev _ q_dict mw Hq).
    destruct (Models.get q_dict mw); [reflexivity|].
    destruct (Models.get kw mw); reflexivity.
Qed.

End Query.

Lemma from_query_found_witness :
  Models.from_query
    [Models.WMA "title" (Some "title") None true;
     Models.WMA "page_id" (Some "pageid") None true;
     Models.WMA "ns" (Some "ns") None true;
     Models.WMA "source" (Some "source") None false]
    [("ns", PyInt 0); ("title", PyStr "Coffee"); ("pageid", PyInt 604727);
     ("touched", PyStr "2013-01-01T00:00:00Z")]
    [("source", PyStr "enwp"); ("ns", PyInt 1); ("page_id", PyInt 5)]
  = Models.Built
      [("title", PyStr "Coffee"); ("page_id", PyInt 604727); ("ns", PyInt 0);
       ("source", PyStr "enwp")].
Proof.
  exact (from_query_found obj
           [Models.WMA "title" (Some "title") None true;
            Models.WMA "page_id" (Some "pageid") None true;
            Models.WMA "ns" (Some "ns") None true;
            Models.WMA "source" (Some "source") None false]
           [("ns", PyInt 0); ("title", PyStr "Coffee");
            ("pageid", PyInt 604727);
            ("touched", PyStr "2013-01-01T00:00:00Z")]
           [("source", PyStr "enwp"); ("ns", PyInt 1); ("page_id", PyInt 5)]
           eq_refl eq_refl).
Defined.

(** ** Protections *)

Section Protections.

Variable datetime : Type.

Variable parse_timestamp : string -> option datetime.

Implicit Types (self : Models.sdict (Models.Protection datetime))
  (p : Models.protection_entry).

Lemma get_in_values self t x :
  Models.get self t = Some x -> In x (Models.values self).
Proof.
  intros H. apply get_Some_In in H. unfold Models.values.
  apply in_map_iff. exists (t, x). split; [reflexivity|exact H].
Qed.

(** X21: the protection predicates agree.  Whatever [protections] holds: a
    page is never both fully protected and semi-protected, and a page that
    is either has a protection; a page without an [edit] entry is
    neither. *)
Theorem protection_predicates (self : Models.sdict (Models.Protection datetime)) :
  Models.is_full_prot self && Models.is_semi_prot self = false /\
  (Models.is_full_prot self || Models.is_semi_prot self = true ->
   Models.has_protection self = true) /\
  (Models.get self "edit" = None ->
   Models.is_full_prot self = false /\ Models.is_semi_prot self = false).
Proof.
  unfold Models.is_full_prot, Models.is_semi_prot, Models.has_protection.
  destruct (Models.get self "edit") as [edit|] eqn:Ee.
  - assert (Hp : negb (Models.level edit =? Models.NEW)%string = true ->
                 existsb (fun x => negb (Models.level x =? Models.NEW)%string)
                   (Models.values self) = true).
    { intros H. apply existsb_exists. exists edit.
      split; [exact (get_in_values _ _ _ Ee)|exact H]. }
    destruct (String.eqb_spec (Models.level edit) Models.SYSOP) as [E|E].
    + rewrite E in *. split; [|split].
      * apply andb_false_r.
      * intros _. apply Hp. reflexivity.
      * discriminate.
    + split; [reflexivity|]. split; [|discriminate].
      cbn [orb]. intros H. apply Hp.
      apply String.eqb_eq in H. rewrite H. reflexivity.
  - split; [reflexivity|]. split; [discriminate|]. split; reflexivity.
Qed.

Lemma last_entry_snoc t protections p :
  last_entry t (protections ++ [p])
  = if (Models.entry_type p =? t)%string then Some p
    else last_entry t protections.
Proof.
  unfold last_entry. rewrite List.rev_app_distr. reflexivity.
Qed.

(** The loop of [ProtectionInfo.__init__], from the elements [before]
    already stored. *)
Lemma init_protections_spec protections : forall before self,
  (forall t, Models.get self t
             = match last_entry t before with
               | Some p =>
                   match entry_protection parse_timestamp p with
                   | inr x => Some x
                   | inl _ => None
                   end
               | None => None
               end) ->
  match Models.init_protections parse_timestamp protections self with
  | inr self' =>
      (forall p, In p protections ->
                 exists x, entry_protection parse_timestamp p = inr x) /\
      forall t, Models.get self' t
                = match last_entry t (before ++ protections) with
                  | Some p =>
                      match entry_protection parse_timestamp p with
                      | inr x => Some x
                      | inl _ => None
                      end
                  | None => None
                  end
  | inl e =>
      exists p, In p protections /\ entry_protection parse_timestamp p = inl e
  end.
Proof.
  induction protections as [|p protections IH]; intros before self Hself.
  - cbn [Models.init_protections]. rewrite List.app_nil_r.
    split; [intros p []|exact Hself].
  - cbn [Models.init_protections].
    assert (Hp : entry_protection parse_timestamp p
                 = match (if negb (Models.entry_expiry p =? "infinity")%string
                          then option_map Models.at_time
                                 (parse_timestamp (Models.entry_expiry p))
                          else Some Models.infinity) with
                   | None => inl Models.ValueError
                   | Some expiry =>
                       match Models.levels (Models.entry_level p) with
                       | None => inl Models.KeyError
                       | Some level => inr (Models.mkProtection level expiry)
                       end
                   end).
    { unfold entry_protection.
      destruct (Models.entry_expiry p =? "infinity")%string; reflexivity. }
    destruct (if negb (Models.entry_expiry p =? "infinity")%string
              then option_map Models.at_time
                     (parse_timestamp (Models.entry_expiry p))
              else Some Models.infinity) as [expiry|].
    + destruct (Models.levels (Models.entry_level p)) as [level|].
      * specialize (IH (before ++ [p])
                      (Models.put self (Models.entry_type p)
                         (Models.mkProtection level expiry))).
        rewrite <- List.app_assoc in IH. cbn [app] in IH.
        destruct (Models.init_protections parse_timestamp protections
                    (Models.put self (Models.entry_type p)
                       (Models.mkProtection level expiry))) as [e|self'].
        -- destruct IH as [p' [Hin He]].
           ++ intros t. rewrite get_put, last_entry_snoc, Hself.
              destruct (Models.entry_type p =? t)%string; [|reflexivity].
              rewrite Hp. reflexivity.
           ++ exists p'. split; [right; exact Hin|exact He].
        -- destruct IH as [Hok Hget].
           ++ intros t. rewrite get_put, last_entry_snoc, Hself.
              destruct (Models.entry_type p =? t)%string; [|reflexivity].
              rewrite Hp. reflexivity.
           ++ split; [|exact Hget].
              intros p' [<-|Hin]; [|apply Hok, Hin].
              eexists. exact Hp.
      * exists p. split; [left; reflexivity|exact Hp].
    + exists p. split; [left; reflexivity|exact Hp].
Qed.

(** X22: what [ProtectionInfo.__init__] stores.  When the timestamp of
    every element parses (or is [infinity]) and its level is one of [new],
    [autoconfirmed] and [sysop], [protections] maps each action to the
    level and expiry of the last element for that action, and holds nothing
    for the actions without an element.  Otherwise nothing is built: the
    constructor raises the [ValueError] of a timestamp or the [KeyError] of
    an unknown level of one of the elements. *)
Theorem protections_built (protections : list Models.protection_entry) :
  match Models.init_protections parse_timestamp protections [] with
  | inr self =>
      (forall p, In p protections ->
                 exists x, entry_protection parse_timestamp p = inr x) /\
      forall t, Models.get self t
                = match last_entry t protections with
                  | Some p =>
                      match entry_protection parse_timestamp p with
                      | inr x => Some x
                      | inl _ => None
                      end
                  | None => None
                  end
  | inl e =>
      exists p, In p protections /\ entry_protection parse_timestamp p = inl e
  end.
Proof.
  exact (init_protections_spec protections [] [] (fun t => eq_refl)).
Qed.

End Protections.

(** ** Page records *)

Lemma subject_namespace ns :
  Models.is_subject_page ns = true ->
  (0 <= ns) /\ Models.is_talk_page ns = false /\
  Models.is_talk_page (ns + 1) = true /\
  Models.is_subject_page (ns + 1) = false.
Proof.
  unfold Models.is_subject_page, Models.is_talk_page.
  rewrite !Z.geb_leb. intros H. apply andb_prop in H as [H0 H2].
  apply Z.leb_le in H0. apply Z.eqb_eq in H2.
  assert (E : (ns + 1) mod 2 = 1).
  { rewrite Z.add_mod, H2 by lia. reflexivity. }
  assert (Hle : (0 <=? ns) = true) by (apply Z.leb_le; lia).
  assert (Hle1 : (0 <=? ns + 1) = true) by (apply Z.leb_le; lia).
  rewrite H2, E, Hle, Hle1. repeat split; try lia.
Qed.

Lemma talk_namespace ns :
  Models.is_talk_page ns = true ->
  (0 <= ns) /\ Models.is_subject_page ns = false /\
  Models.is_subject_page (ns - 1) = true /\
  Models.is_talk_page (ns - 1) = false.
Proof.
  unfold Models.is_subject_page, Models.is_talk_page.
  rewrite !Z.geb_leb. intros H. apply andb_prop in H as [H0 H2].
  apply Z.leb_le in H0. apply Z.eqb_eq in H2.
  assert (E : (ns - 1) mod 2 = 0).
  { pose proof (Z.div_mod ns 2 ltac:(lia)) as Hd. rewrite H2 in Hd.
    replace (ns - 1) with ((ns / 2) * 2) by lia. apply Z.mod_mul. lia. }
  assert (Hpos : 1 <= ns).
  { destruct (Z.eq_dec ns 0) as [->|]; [discriminate|lia]. }
  assert (Hle : (0 <=? ns) = true) by (apply Z.leb_le; lia).
  assert (Hle1 : (0 <=? ns - 1) = true) by (apply Z.leb_le; lia).
  rewrite H2, E, Hle, Hle1. repeat split; try lia.
Qed.

Lemma namespace_sides ns :
  Models.is_subject_page ns || Models.is_talk_page ns = (0 <=? ns).
Proof.
  unfold Models.is_subject_page, Models.is_talk_page.
  rewrite !Z.geb_leb.
  pose proof (Z.mod_pos_bound ns 2 ltac:(lia)) as Hm.
  destruct (Z.leb_spec 0 ns); [|reflexivity]. cbn [andb].
  destruct (Z.eqb_spec (ns mod 2) 0); [reflexivity|].
  destruct (Z.eqb_spec (ns mod 2) 1); [reflexivity|lia].
Qed.

Section Pages.

Variable isspace : N -> bool.

Variable V : Type.

(** X23: the page on the other side.  A [PageInfo] is made from its
    required arguments exactly when [ns] is not negative.  On a subject
    page, [get_subject_info] returns the page itself, and [get_talk_info]
    raises [ValueError] when [talk_id] is [None]; otherwise it returns a
    page with the talk title, the namespace [ns + 1] and the attributes of
    the subject page, whose [page_id] is still the id of the subject page
    and whose [talk_id] is that same id: the [talk_id] the subject page held
    is not kept.  The same holds on a talk page with the two sides
    exchanged. *)
Theorem info_of_the_other_page (p : Models.PageInfo V) :
  (forall t (pid : V) n (src : V) sid tid rt,
     (exists q, Models.PageInfo_init
                  (Models.mkKw (Some t) (Some pid) (Some n) (Some src)
                     sid tid rt) = inr q)
     <-> 0 <= n) /\
  (Models.is_subject_page (Models.ns p) = true ->
   Models.get_subject_info isspace p = inr p /\
   Models.get_talk_info isspace p
   = match Models.talk_id p with
     | None => inl (Models.NotSet "talk_id")
     | Some _ =>
         inr (Models.mkPageInfo
                (Models.title_subject2talk isspace (Models.title p))
                (Models.page_id p) (Models.ns p + 1) (Models.source p)
                (Models.subject_id p) (Some (Models.page_id p))
                (match Models.req_title p with
                 | [] => Models.title_subject2talk isspace (Models.title p)
                 | r => r
                 end))
     end) /\
  (Models.is_talk_page (Models.ns p) = true ->
   Models.get_talk_info isspace p = inr p /\
   Models.get_subject_info isspace p
   = match Models.subject_id p with
     | None => inl (Models.NotSet "subject_id")
     | Some _ =>
         inr (Models.mkPageInfo
                (Models.title_talk2subject isspace (Models.title p))
                (Models.page_id p) (Models.ns p - 1) (Models.source p)
                (Some (Models.page_id p)) (Models.talk_id p)
                (match Models.req_title p with
                 | [] => Models.title_talk2subject isspace (Models.title p)
                 | r => r
                 end))
     end).
Proof.
  split; [|split].
  - intros t pid n src sid tid rt. unfold Models.PageInfo_init.
    cbn [Models.kw_title Models.kw_page_id Models.kw_ns Models.kw_source
         Models.kw_req_title Models.kw_subject_id Models.kw_talk_id].
    pose proof (namespace_sides n) as Hn.
    destruct (Models.is_subject_page n) eqn:Hs.
    + split; [intros _|intros _; eexists; reflexivity].
      apply (subject_namespace n Hs).
    + destruct (Models.is_talk_page n) eqn:Ht.
      * split; [intros _|intros _; eexists; reflexivity].
        apply (talk_namespace n Ht).
      * split; [intros [q [=]]|]. intros H0.
        cbn [orb] in Hn. apply Z.leb_le in H0. congruence.
  - intros Hs. destruct (subject_namespace _ Hs) as [_ [Ht [Ht1 Hs1]]].
    unfold Models.get_subject_info, Models.get_talk_info.
    rewrite Hs, Ht. split; [reflexivity|].
    destruct (Models.talk_id p) as [tid|] eqn:Etid; [|reflexivity].
    unfold Models.PageInfo_init, Models.kwargs_with.
    cbn [Models.kw_title Models.kw_page_id Models.kw_ns Models.kw_source
         Models.kw_req_title Models.kw_subject_id Models.kw_talk_id].
    rewrite Hs1, Ht1. destruct (Models.req_title p); reflexivity.
  - intros Ht. destruct (talk_namespace _ Ht) as [_ [Hs [Hs1 Ht1]]].
    unfold Models.get_subject_info, Models.get_talk_info.
    rewrite Hs, Ht. split; [reflexivity|].
    destruct (Models.subject_id p) as [sid|] eqn:Esid; [|reflexivity].
    unfold Models.PageInfo_init, Models.kwargs_with.
    cbn [Models.kw_title Models.kw_page_id Models.kw_ns Models.kw_source
         Models.kw_req_title Models.kw_subject_id Models.kw_talk_id].
    rewrite Hs1. destruct (Models.req_title p); reflexivity.
Qed.

End Pages.

Lemma info_of_the_other_page_witness :
  Models.get_talk_info Models.unicode_isspace
    (Models.mkPageInfo (Models.lit "Help:Contents") 1182 12 7 (Some 1182)
       (Some 4020) (Models.lit "Help:Contents"))
  = inr (Models.mkPageInfo (Models.lit "Help talk:Contents") 1182 13 7
           (Some 1182) (Some 1182) (Models.lit "Help:Contents")).
Proof.
  exact (proj2 (proj1 (proj2
           (info_of_the_other_page Models.unicode_isspace Z
              (Models.mkPageInfo (Models.lit "Help:Contents") 1182 12 7
                 (Some 1182) (Some 4020) (Models.lit "Help:Contents"))))
           eq_refl)).
Defined.
